(** * GoVirtualMachine: a shallow embedding of the lexer, parser,
      interpreter and virtual machine of the Susan toy ISA.

    Go packages are rendered as Rocq modules of the same name
    ([token], [instructions], [lexer], [parser], [interpreter], [vm]).
    Go's [int32] is a [Z] with the wrap-around written out, a Go [string]
    is a [String.string] (a sequence of bytes), slices are lists read
    with stdpp's lookup and written with stdpp's insert, with the
    run-time panic of an out-of-range index made explicit. *)

From Stdlib Require Import ZArith String Ascii List Bool Lia.
From stdpp Require Import base list.

Local Open Scope Z_scope.

(** ** 32-bit integers *)

Definition MaxInt32 : Z := 2147483647.
Definition MinInt32 : Z := -2147483648.

(** Conversion [int32(z)]: two's complement truncation. *)
Definition int32 (z : Z) : Z := (z + 2147483648) mod 4294967296 - 2147483648.

Definition in_int32 (z : Z) : Prop := MinInt32 <= z <= MaxInt32.

(** ** Outcomes of a Go call

    A call returns normally ([Ok]), returns a non-nil [error] ([Fail]), or
    raises a run-time panic ([Panic]). *)

Inductive GoPanic : Type :=
  | IndexOutOfRange
  | NilDereference
  | NegativeRepeatCount.

(** [strconv.NumError.Err] *)
Inductive NumError : Type :=
  | ErrSyntax
  | ErrRange.

Module token.

(** The token type constants of package token. *)
Inductive TokenType : Type :=
  | INT | REG | COMMA | LDI | STDOUT | JUMP | ADD | ADDV
  | DRAW | BLINK | SHAPE | PRINTR | EOF.

Definition TokenType_eqb (a b : TokenType) : bool :=
  match a, b with
  | INT, INT | REG, REG | COMMA, COMMA | LDI, LDI | STDOUT, STDOUT
  | JUMP, JUMP | ADD, ADD | ADDV, ADDV | DRAW, DRAW | BLINK, BLINK
  | SHAPE, SHAPE | PRINTR, PRINTR | EOF, EOF => true
  | _, _ => false
  end.

Record Token : Type := New { TokenType_ : TokenType; Value : Z }.

End token.

(** ** Errors

    Every [fmt.Errorf] site of the repository is one constructor; the
    formatted arguments are kept as constructor arguments. *)

Inductive error : Type :=
  (* lexer *)
  | IntMissingDelimiter            (* unexpected INT (missing delimiter) *)
  | IntConversion (e : NumError)   (* failed to convert input to integer %w *)
  | IntegerOverflow                (* register integer overflow error *)
  | IntegerUnderflow               (* register integer underflow error *)
  | RegMissingDelimiter            (* unexpected REG (missing delimiter) *)
  | MissingRegisterIndex           (* missing register index. *)
  | RegisterIndexRange             (* register indices must be between 0 and 9. *)
  | CommandLength                  (* invalid command: max length reached (10). *)
  | ShapeMissingDelimiter          (* shape declaration must be preceded by ' ' *)
  | ShapeLength                    (* invalid shape. *)
  | MissingShape                   (* missing shape after '$' *)
  | UnknownShape (s : string)      (* invalid shape: '%s' *)
  | CaseError (c : ascii)          (* input is case sensitive: invalid '%c' *)
  | InvalidCharacter (c : ascii)   (* invalid character: %c *)
  | UnknownCommand (s : string)    (* undefined: '%s'. *)
  | UnrecognizedSymbol (c : ascii) (* unrecognized symbol '%c' *)
  (* parser *)
  | Unexpected (t : token.TokenType)      (* syntax error: unexpected %s *)
  | UnknownInstruction (t : token.Token)  (* default case: invalid '%v' *)
  (* interpreter *)
  | InvalidCommand (op a1 a2 : Z)  (* invalid command %v *)
  | ReadOnlyError                  (* write to R0: permission denied *)
  | InvalidRegisterError (r : Z)   (* invalid register: R%d *)
  | InfiniteLoopError (pc addr : Z)(* JUMP at addr %d to %d: infinite loop warning. *)
  | SegfaultError                  (* JUMP addr invalid: segmentation violation. *)
  | VisualAddRange                 (* ADDV instruction: please use values less than 10 *)
  | InvalidShapeError (shape : Z). (* invalid shape id: %d *)

Inductive Outcome (A : Type) : Type :=
  | Ok (a : A)
  | Fail (e : error)
  | Panic (p : GoPanic).

Arguments Ok {A} a.
Arguments Fail {A} e.
Arguments Panic {A} p.

(** ** State and error monad

    A method with a pointer receiver of type [S] that returns [(A, error)]
    is a function [S -> S * Outcome A]: the receiver is threaded, and is
    returned as it stands when the method fails. *)

Definition M (S A : Type) : Type := S -> S * Outcome A.

Definition ret {S A : Type} (a : A) : M S A := fun s => (s, Ok a).

Definition fail {S A : Type} (e : error) : M S A := fun s => (s, Fail e).

Definition panic {S A : Type} (p : GoPanic) : M S A := fun s => (s, Panic p).

Definition bind {S A B : Type} (m : M S A) (k : A -> M S B) : M S B :=
  fun s =>
    match m s with
    | (s', Ok a) => k a s'
    | (s', Fail e) => (s', Fail e)
    | (s', Panic p) => (s', Panic p)
    end.

Definition get {S : Type} : M S S := fun s => (s, Ok s).

Definition modify {S : Type} (f : S -> S) : M S unit := fun s => (f s, Ok tt).

Declare Scope go_scope.
Delimit Scope go_scope with go.
Notation "x <- m ;; k" := (bind m (fun x => k))
  (at level 100, m at next level, right associativity) : go_scope.
Notation "m ;;; k" := (bind m (fun _ => k))
  (at level 100, right associativity) : go_scope.
Local Open Scope go_scope.

(** ** Package unicode, on the Latin-1 range

    The lexer converts single bytes with [rune(lex.CurrentChar)], so only
    code points 0..255 reach the predicates of package unicode; this is
    their Latin-1 table. *)

Module unicode.

Definition rune (c : ascii) : Z := Z.of_N (N_of_ascii c).

Definition between (lo hi r : Z) : bool := (lo <=? r) && (r <=? hi).

Definition IsDigit (c : ascii) : bool := between 48 57 (rune c).

Definition IsSpace (c : ascii) : bool :=
  let r := rune c in
  between 9 13 r || (r =? 32) || (r =? 133) || (r =? 160).

Definition IsUpper (c : ascii) : bool :=
  let r := rune c in
  between 65 90 r || between 192 214 r || between 216 222 r.

Definition IsLower (c : ascii) : bool :=
  let r := rune c in
  between 97 122 r || (r =? 181) || between 223 246 r || between 248 255 r.

(** category S: $ + < = > ^ ` | ~ and the Latin-1 supplement symbols *)
Definition IsSymbol (c : ascii) : bool :=
  let r := rune c in
  (r =? 36) || (r =? 43) || between 60 62 r || (r =? 94) || (r =? 96)
  || (r =? 124) || (r =? 126)
  || between 162 166 r || between 168 169 r || (r =? 172)
  || between 174 177 r || (r =? 180) || (r =? 184) || (r =? 215)
  || (r =? 247).

(** category P *)
Definition IsPunct (c : ascii) : bool :=
  let r := rune c in
  between 33 35 r || between 37 42 r || between 44 47 r
  || between 58 59 r || between 63 64 r || between 91 93 r
  || (r =? 95) || (r =? 123) || (r =? 125)
  || (r =? 161) || (r =? 167) || (r =? 171) || between 182 183 r
  || (r =? 187) || (r =? 191).

(** [unicode.ToLower], as a code point: the upper-case letters of
    Latin-1 sit 32 below their lower-case partners. *)
Definition ToLower (c : ascii) : Z :=
  let r := rune c in
  if between 65 90 r || between 192 214 r || between 216 222 r
  then r + 32 else r.

(** [string(rune(c))] and [strings.Builder.WriteRune(rune(c))]: the
    UTF-8 encoding of a code point below 256. *)
Definition utf8 (c : ascii) : string :=
  let r := rune c in
  if r <? 128 then String c EmptyString
  else String (ascii_of_N (Z.to_N (192 + r / 64)))
         (String (ascii_of_N (Z.to_N (128 + r mod 64))) EmptyString).

End unicode.

(** ** Package strconv: [ParseInt(s, 10, 32)]

    The standard library is not part of the repository; this follows
    [strconv.ParseUint] for base 10 and [bitSize] 32 (the digit loop with
    its cutoff, wrap and [maxVal] tests on a [uint64]) and
    [strconv.ParseInt] (sign, then the signed 32-bit range).  Both return
    a value together with an error, nil ([None]) on success. *)

Module strconv.

Definition maxUint64 : Z := 18446744073709551615.

(** [uint64(1)<<uint(bitSize) - 1] for [bitSize] 32 *)
Definition maxVal : Z := 4294967295.

Fixpoint ParseUint_loop (s : string) (n : Z) : Z * option NumError :=
  match s with
  | EmptyString => (n, None)
  | String c rest =>
      if unicode.IsDigit c then
        let d := unicode.rune c - 48 in
        if n >=? maxUint64 / 10 + 1 then (maxVal, Some ErrRange)
        else
          let n := n * 10 in
          let n1 := (n + d) mod (maxUint64 + 1) in
          if (n1 <? n) || (n1 >? maxVal) then (maxVal, Some ErrRange)
          else ParseUint_loop rest n1
      else (0, Some ErrSyntax)
  end.

Definition ParseUint (s : string) : Z * option NumError :=
  match s with
  | EmptyString => (0, Some ErrSyntax)
  | _ => ParseUint_loop s 0
  end.

(** A range error of [ParseUint] is not returned at once: [ParseInt] goes
    on to its own range test with the [maxVal] it got. *)
Definition ParseInt (s : string) : Z * option NumError :=
  match s with
  | EmptyString => (0, Some ErrSyntax)
  | String c rest =>
      let neg := Ascii.eqb c "-" in
      let s' := if Ascii.eqb c "+" || neg then rest else s in
      match ParseUint s' with
      | (_, Some ErrSyntax) => (0, Some ErrSyntax)
      | (un, _) =>
          let cutoff := 2147483648 in
          if negb neg && (un >=? cutoff) then (cutoff - 1, Some ErrRange)
          else if neg && (un >? cutoff) then (- cutoff, Some ErrRange)
          else (if neg then - un else un, None)
      end
  end.

End strconv.

(** ** Package lexer *)

Module lexer.

Import token.

Record Lexer : Type := mkLexer {
  Input : string;
  Position : nat;
  CurrentChar : ascii
}.

Definition nul : ascii := Ascii.zero.

Definition len (s : string) : Z := Z.of_nat (String.length s).

(** [s[i]]; every index expression of the lexer is guarded by a test
    that keeps [i] inside the string. *)
Definition at_ (s : string) (i : nat) : ascii :=
  match String.get i s with
  | Some c => c
  | None => nul
  end.

Definition New (input : string) : Lexer :=
  let currentChar := if len input >? 0 then at_ input 0 else nul in
  mkLexer input 0 currentChar.

Definition GetNextChar (lex : Lexer) : Lexer :=
  let position := S (Position lex) in
  if Z.of_nat position >? len (Input lex) - 1
  then mkLexer (Input lex) position nul
  else mkLexer (Input lex) position (at_ (Input lex) position).

Definition is_nul (c : ascii) : bool := Ascii.eqb c nul.

(** Upper bound on the iterations any scanning loop can still make: a
    loop iterates only while [CurrentChar] is not 0, each iteration calls
    [GetNextChar], and [GetNextChar] zeroes [CurrentChar] once [Position]
    passes the last byte. *)
Definition remaining (lex : Lexer) : nat :=
  S (String.length (Input lex) - Position lex).

Fixpoint IgnoreWhiteSpace_loop (fuel : nat) (lex : Lexer) : Lexer :=
  match fuel with
  | O => lex
  | S fuel =>
      if negb (is_nul (CurrentChar lex)) && unicode.IsSpace (CurrentChar lex)
      then IgnoreWhiteSpace_loop fuel (GetNextChar lex)
      else lex
  end.

Definition IgnoreWhiteSpace (lex : Lexer) : Lexer :=
  IgnoreWhiteSpace_loop (remaining lex) lex.

Definition Delimiter (lex : Lexer) : bool :=
  if (0 <? Position lex)%nat then
    let previousChar := at_ (Input lex) (Position lex - 1) in
    Ascii.eqb previousChar " " || Ascii.eqb previousChar ","
  else false.

Definition Register (lex : Lexer) : bool :=
  if (0 <? Position lex)%nat then
    let previousChar := at_ (Input lex) (Position lex - 1) in
    Ascii.eqb previousChar "r" || Ascii.eqb previousChar "R"
  else false.

(** The digit loop of [Integer]: returns the lexer and [integerString]. *)
Fixpoint Integer_loop (fuel : nat) (integerString : string) (lex : Lexer)
  : Lexer * string :=
  match fuel with
  | O => (lex, integerString)
  | S fuel =>
      if negb (is_nul (CurrentChar lex)) && unicode.IsDigit (CurrentChar lex)
      then Integer_loop fuel
             (integerString ++ unicode.utf8 (CurrentChar lex))
             (GetNextChar lex)
      else (lex, integerString)
  end.

Definition Integer : M Lexer Z := fun lex =>
  if negb (Register lex) && negb (Delimiter lex)
  then (lex, Fail IntMissingDelimiter)
  else
    let '(lex, integerString) := Integer_loop (remaining lex) "" lex in
    match strconv.ParseInt integerString with
    | (_, Some err) => (lex, Fail (IntConversion err))
    | (integer, None) =>
        if integer >? MaxInt32 then (lex, Fail IntegerOverflow)
        else if integer <? MinInt32 then (lex, Fail IntegerUnderflow)
        else (lex, Ok (int32 integer))
    end.

Definition RegisterIndex : M Lexer Z := fun lex =>
  if negb (Delimiter lex) then (lex, Fail RegMissingDelimiter)
  else
    let lex := GetNextChar lex in
    if unicode.IsSpace (CurrentChar lex)
    then (lex, Fail MissingRegisterIndex)
    else
      (registerIndex <- Integer ;;
       if registerIndex >? 9 then fail RegisterIndexRange
       else ret registerIndex) lex.

(** The loop of [Command], with the [strings.Builder] as accumulator. *)
Fixpoint Command_loop (fuel : nat) (builder : string) (lex : Lexer)
  : Lexer * Outcome string :=
  match fuel with
  | O => (lex, Ok builder)
  | S fuel =>
      if negb (is_nul (CurrentChar lex)) && unicode.IsUpper (CurrentChar lex)
      then
        if len builder >? 10 then (lex, Fail CommandLength)
        else Command_loop fuel
               (builder ++ unicode.utf8 (CurrentChar lex))
               (GetNextChar lex)
      else (lex, Ok builder)
  end.

Definition Command : M Lexer string := fun lex =>
  Command_loop (remaining lex) "" lex.

Fixpoint Shape_loop (fuel : nat) (builder : string) (lex : Lexer)
  : Lexer * Outcome string :=
  match fuel with
  | O => (lex, Ok builder)
  | S fuel =>
      if negb (is_nul (CurrentChar lex)) && unicode.IsLower (CurrentChar lex)
      then
        if len builder >? 6 then (lex, Fail ShapeLength)
        else Shape_loop fuel
               (builder ++ unicode.utf8 (CurrentChar lex))
               (GetNextChar lex)
      else (lex, Ok builder)
  end.

Definition Shape : M Lexer string := fun lex =>
  if negb (Delimiter lex) then (lex, Fail ShapeMissingDelimiter)
  else
    let lex := GetNextChar lex in
    (builder <- Shape_loop (remaining lex) "" ;;
     if len builder =? 0 then fail MissingShape
     else ret builder) lex.

(** The [switch] of [GetNextToken] below its whitespace case; every one
    of these cases returns. *)
Definition GetNextToken_switch : M Lexer Token := fun lex =>
  let c := CurrentChar lex in
  if unicode.ToLower c =? unicode.rune "r" then
    (regIndex <- RegisterIndex ;; ret (token.New REG regIndex)) lex
  else if unicode.IsDigit c then
    (integer <- Integer ;; ret (token.New INT integer)) lex
  else if Ascii.eqb c "," then
    (GetNextChar lex, Ok (token.New COMMA 0))
  else if Ascii.eqb c "$" then
    (shape <- Shape ;;
     if String.eqb shape "heart" then ret (token.New SHAPE 1)
     else if String.eqb shape "bird" then ret (token.New SHAPE 2)
     else fail (UnknownShape shape)) lex
  else if unicode.IsLower c then (lex, Fail (CaseError c))
  else if unicode.IsPunct c || unicode.IsSymbol c
  then (lex, Fail (InvalidCharacter c))
  else if unicode.IsUpper c then
    (command <- Command ;;
     if String.eqb command "LDI" then ret (token.New LDI 0)
     else if String.eqb command "STDOUT" then ret (token.New STDOUT 0)
     else if String.eqb command "PRINTR" then ret (token.New PRINTR 0)
     else if String.eqb command "JUMP" then ret (token.New JUMP 0)
     else if String.eqb command "ADD" then ret (token.New ADD 0)
     else if String.eqb command "ADDV" then ret (token.New ADDV 0)
     else if String.eqb command "DRAW" then ret (token.New DRAW 0)
     else if String.eqb command "BLINK" then ret (token.New BLINK 0)
     else fail (UnknownCommand command)) lex
  else (lex, Fail (UnrecognizedSymbol c)).

(** The [for lex.CurrentChar != 0] loop of [GetNextToken]: only the
    whitespace case comes back to the loop head, and after it the
    current character is 0 or not a space, so two iterations always
    suffice (lemma [GetNextToken_unfold] below). *)
Fixpoint GetNextToken_loop (fuel : nat) : M Lexer Token := fun lex =>
  match fuel with
  | O => (lex, Ok (token.New EOF 0))
  | S fuel =>
      if negb (is_nul (CurrentChar lex)) then
        if unicode.IsSpace (CurrentChar lex)
        then GetNextToken_loop fuel (IgnoreWhiteSpace lex)
        else GetNextToken_switch lex
      else (lex, Ok (token.New EOF 0))
  end.

Definition GetNextToken : M Lexer Token := GetNextToken_loop 2.

End lexer.

(** ** Package instructions *)

Module instructions.

(** The four implementations of the [Instruction] interface. *)
Inductive Instruction : Type :=
  | BinaryInstruction (OpCode Arg1 Arg2 : Z)
  | UnaryInstruction (OpCode Arg1 : Z)
  | NullaryInstruction (OpCode : Z)
  | Error (ErrorType : error).

Definition NewBinaryInstruction (opcode arg1 arg2 : Z) : Instruction :=
  BinaryInstruction opcode arg1 arg2.

Definition NewUnaryInstruction (opcode arg1 : Z) : Instruction :=
  UnaryInstruction opcode arg1.

Definition NewNullaryInstruction (opcode : Z) : Instruction :=
  NullaryInstruction opcode.

Definition NewError (err : error) : Instruction := Error err.

Definition GetOpCode (i : Instruction) : Z :=
  match i with
  | BinaryInstruction op _ _ => int32 op
  | UnaryInstruction op _ => op
  | NullaryInstruction op => op
  | Error _ => 0
  end.

Definition GetArg1 (i : Instruction) : Z :=
  match i with
  | BinaryInstruction _ a1 _ => int32 a1
  | UnaryInstruction _ a1 => a1
  | NullaryInstruction _ => 0
  | Error _ => 0
  end.

Definition GetArg2 (i : Instruction) : Z :=
  match i with
  | BinaryInstruction _ _ a2 => int32 a2
  | UnaryInstruction _ _ => 0
  | NullaryInstruction _ => 0
  | Error _ => 0
  end.

End instructions.

(** ** Package parser *)

Module parser.

Import token.

Definition OPCODE_STDOUT : Z := 0x00.
Definition OPCODE_LDI    : Z := 0x01.
Definition OPCODE_JUMP   : Z := 0x02.
Definition OPCODE_ADD    : Z := 0x17.
Definition OPCODE_ADDV   : Z := 0x18.
Definition OPCODE_DRAW   : Z := 0x19.
Definition OPCODE_BLINK  : Z := 0x20.
Definition OPCODE_PRINTR : Z := 0x21.

(** [CurrentToken] is a pointer: it is nil after a failed lexer call. *)
Record Parser : Type := mkParser {
  Lex : lexer.Lexer;
  CurrentToken : option Token
}.

(** Installs the result of [Lex.GetNextToken()] as the current token and
    hands back the lexer's error. *)
Definition pull (lex : lexer.Lexer) : Parser * Outcome unit :=
  match lexer.GetNextToken lex with
  | (lex', Ok tok) => (mkParser lex' (Some tok), Ok tt)
  | (lex', Fail err) => (mkParser lex' None, Fail err)
  | (lex', Panic p) => (mkParser lex' None, Panic p)
  end.

(** [New] returns the parser together with the error of the first
    [GetNextToken]. *)
Definition New (input : string) : Parser * Outcome unit :=
  pull (lexer.New input).

Definition Consume (expectedType : TokenType) : M Parser unit := fun p =>
  match CurrentToken p with
  | None => (p, Panic NilDereference)
  | Some tok =>
      if negb (TokenType_eqb (TokenType_ tok) expectedType)
      then (p, Fail (Unexpected (TokenType_ tok)))
      else pull (Lex p)
  end.

(** [currentToken = p.CurrentToken] *)
Definition current : M Parser Token := fun p =>
  match CurrentToken p with
  | None => (p, Panic NilDereference)
  | Some tok => (p, Ok tok)
  end.

(** The body of [Instruction]; [Fail err] stands for every
    [return instructions.NewError(err), err]. *)
Definition Instruction_switch : M Parser instructions.Instruction :=
  currentToken <- current ;;
  match TokenType_ currentToken with
  | JUMP =>
      Consume JUMP ;;;
      currentToken <- current ;;
      Consume INT ;;;
      let jumpTo := Value currentToken in
      ret (instructions.NewUnaryInstruction (int32 OPCODE_JUMP) jumpTo)
  | LDI =>
      Consume LDI ;;;
      currentToken <- current ;;
      Consume REG ;;;
      let regIndex := Value currentToken in
      Consume COMMA ;;;
      currentToken <- current ;;
      Consume INT ;;;
      let loadValue := Value currentToken in
      ret (instructions.NewBinaryInstruction (int32 OPCODE_LDI)
             regIndex loadValue)
  | ADD =>
      Consume ADD ;;;
      currentToken <- current ;;
      Consume REG ;;;
      let regIndex1 := Value currentToken in
      Consume COMMA ;;;
      currentToken <- current ;;
      Consume REG ;;;
      let regIndex2 := Value currentToken in
      ret (instructions.NewBinaryInstruction (int32 OPCODE_ADD)
             regIndex1 regIndex2)
  | ADDV =>
      Consume ADDV ;;;
      currentToken <- current ;;
      Consume REG ;;;
      let regIndex1 := Value currentToken in
      Consume COMMA ;;;
      currentToken <- current ;;
      Consume REG ;;;
      let regIndex2 := Value currentToken in
      ret (instructions.NewBinaryInstruction (int32 OPCODE_ADDV)
             regIndex1 regIndex2)
  | DRAW =>
      Consume DRAW ;;;
      currentToken <- current ;;
      Consume SHAPE ;;;
      let shape := Value currentToken in
      ret (instructions.NewUnaryInstruction (int32 OPCODE_DRAW) shape)
  | BLINK =>
      Consume BLINK ;;;
      currentToken <- current ;;
      Consume SHAPE ;;;
      let shape := Value currentToken in
      ret (instructions.NewUnaryInstruction (int32 OPCODE_BLINK) shape)
  | STDOUT =>
      Consume STDOUT ;;;
      currentToken <- current ;;
      Consume REG ;;;
      let regIndex := Value currentToken in
      ret (instructions.NewUnaryInstruction (int32 OPCODE_STDOUT) regIndex)
  | PRINTR =>
      Consume PRINTR ;;;
      ret (instructions.NewNullaryInstruction (int32 OPCODE_PRINTR))
  | _ => fail (UnknownInstruction currentToken)
  end.

(** [Instruction] returns an instruction and an error: on success the
    instruction and nil, on failure the [Error] instruction wrapping the
    error, and that error. *)
Definition Instruction
  : M Parser (instructions.Instruction * option error) := fun p =>
  match Instruction_switch p with
  | (p', Ok instr) => (p', Ok (instr, None))
  | (p', Fail err) => (p', Ok (instructions.NewError err, Some err))
  | (p', Panic g) => (p', Panic g)
  end.

End parser.

(** ** Slices *)

(** [l[i]] for a signed index: [None] is Go's index-out-of-range panic. *)
Definition index {A : Type} (l : list A) (i : Z) : option A :=
  if i <? 0 then None else l !! Z.to_nat i.

(** [discard zero m]: a call whose error result is dropped (assigned to
    [_] or not looked at); the caller goes on with the returned value,
    which is the zero value when the call failed. *)
Definition discard {S A : Type} (zero : A) (m : M S A) : M S A := fun s =>
  match m s with
  | (s', Fail _) => (s', Ok zero)
  | r => r
  end.

(** ** Package interpreter *)

Module interpreter.

Import instructions.

Definition OPCODE_STDOUT : Z := 0x00.
Definition OPCODE_LDI    : Z := 0x01.
Definition OPCODE_JUMP   : Z := 0x02.
Definition OPCODE_ADD    : Z := 0x17.
Definition OPCODE_ADDV   : Z := 0x18.
Definition OPCODE_DRAW   : Z := 0x19.
Definition OPCODE_BLINK  : Z := 0x20.
Definition OPCODE_PRINTR : Z := 0x21.

(** What the interpreter hands to its external sinks, in program order. *)
Inductive Output : Type :=
  | PrintValue (value : Z)               (* STDOUT: "%d\n" *)
  | PrintRegister (i : Z) (value : Z)    (* PRINTR: "R%d: %d\n" *)
  | AnimatedAdd (i j k : Z)              (* ADDV: i stars + j stars = k stars *)
  | DrawHeart (blink : Z)
  | DrawBird (blink : Z).

(** [Code] holds interface values, nil where nothing was stored.
    [Stdout] is the terminal: the sequence of outputs made so far. *)
Record Interpreter : Type := mkInterpreter {
  PC : Z;
  Registers : list Z;
  Code : list (option Instruction);
  Stdout : list Output
}.

Definition New (vregisters : list Z) (code : list (option Instruction))
  : Interpreter :=
  mkInterpreter 0 vregisters code [].

Definition set_PC (pc : Z) (interp : Interpreter) : Interpreter :=
  mkInterpreter pc (Registers interp) (Code interp) (Stdout interp).

Definition set_Registers (regs : list Z) (interp : Interpreter)
  : Interpreter :=
  mkInterpreter (PC interp) regs (Code interp) (Stdout interp).

Definition print (o : Output) : M Interpreter unit :=
  modify (fun interp =>
    mkInterpreter (PC interp) (Registers interp) (Code interp)
      (Stdout interp ++ [o])).

Definition WriteTo (register value : Z) : M Interpreter unit := fun interp =>
  if register =? 0 then (interp, Fail ReadOnlyError)
  else if register >? 9 then (interp, Fail (InvalidRegisterError register))
  else
    match index (Registers interp) register with
    | None => (interp, Panic IndexOutOfRange)
    | Some _ =>
        (set_Registers (<[Z.to_nat register := value]> (Registers interp))
           interp, Ok tt)
    end.

Definition ReadFrom (register : Z) : M Interpreter Z := fun interp =>
  if register >? 9 then (interp, Fail (InvalidRegisterError register))
  else
    match index (Registers interp) register with
    | None => (interp, Panic IndexOutOfRange)
    | Some value => (interp, Ok value)
    end.

Definition CheckJump (addr : Z) : M Interpreter unit :=
  lastAddr <- discard 0 (ReadFrom 0) ;;
  interp <- get ;;
  if addr <=? PC interp then fail (InfiniteLoopError (PC interp) addr)
  else if addr >? int32 (lastAddr - 1) then fail SegfaultError
  else ret tt.

Definition LoadImmediate (register value : Z) : M Interpreter unit :=
  WriteTo register value.

Definition JumpTo (address : Z) : M Interpreter unit :=
  CheckJump address ;;;
  modify (set_PC (int32 (address - 1))).

Definition Add (ri rj : Z) : M Interpreter unit :=
  value1 <- ReadFrom ri ;;
  value2 <- ReadFrom rj ;;
  let result := int32 (value1 + value2) in
  discard tt (WriteTo ri result) ;;;
  ret tt.

Definition PrintToStdOut (register : Z) : M Interpreter unit :=
  value <- ReadFrom register ;;
  print (PrintValue value).

Fixpoint PrintRegisters_from (i : Z) (count : nat) : M Interpreter unit :=
  match count with
  | O => ret tt
  | S count =>
      let i32 := int32 i in
      value <- ReadFrom i32 ;;
      print (PrintRegister i value) ;;;
      PrintRegisters_from (i + 1) count
  end.

(** [for i := 0; i < 10; i++] *)
Definition PrintRegisters : M Interpreter unit := PrintRegisters_from 0 10.

(** The rendering of ADDV is kept as one output; [strings.Repeat]
    panics on a negative count, which the first two calls meet when an
    operand is negative. *)
Definition AddV (ri rj : Z) : M Interpreter unit :=
  value1 <- ReadFrom ri ;;
  value2 <- ReadFrom rj ;;
  if (value1 >? 10) || (value2 >? 10) then fail VisualAddRange
  else
    let i := value1 in
    let j := value2 in
    let k := int32 (i + j) in
    discard tt (WriteTo ri k) ;;;
    if (i <? 0) || (j <? 0) || (i + j <? 0) then panic NegativeRepeatCount
    else print (AnimatedAdd i j (i + j)).

Definition Draw (shape : Z) : M Interpreter unit :=
  if shape =? 1 then print (DrawHeart 0)
  else if shape =? 2 then print (DrawBird 0)
  else fail (InvalidShapeError shape).

Definition Blink (shape : Z) : M Interpreter unit :=
  if shape =? 1 then print (DrawHeart 1)
  else if shape =? 2 then print (DrawBird 1)
  else fail (InvalidShapeError shape).

(** [instr] is an interface value; calling a method on nil panics. *)
Definition DecodeAndDispatch (instr : option Instruction)
  : M Interpreter unit :=
  match instr with
  | None => panic NilDereference
  | Some instr =>
      let op := GetOpCode instr in
      if op =? OPCODE_LDI then LoadImmediate (GetArg1 instr) (GetArg2 instr)
      else if op =? OPCODE_JUMP then JumpTo (GetArg1 instr)
      else if op =? OPCODE_ADD then Add (GetArg1 instr) (GetArg2 instr)
      else if op =? OPCODE_ADDV then AddV (GetArg1 instr) (GetArg2 instr)
      else if op =? OPCODE_DRAW then Draw (GetArg1 instr)
      else if op =? OPCODE_BLINK then Blink (GetArg1 instr)
      else if op =? OPCODE_STDOUT then PrintToStdOut (GetArg1 instr)
      else if op =? OPCODE_PRINTR then PrintRegisters
      else fail (InvalidCommand (GetOpCode instr) (GetArg1 instr)
                   (GetArg2 instr))
  end.

(** One iteration of the loop of [Interpret], entered with
    [PC < lastAddr]: fetch, dispatch, [PC++]. *)
Definition Interpret_body : M Interpreter unit :=
  interp <- get ;;
  match index (Code interp) (PC interp) with
  | None => panic IndexOutOfRange
  | Some instr =>
      DecodeAndDispatch instr ;;;
      modify (fun interp => set_PC (int32 (PC interp + 1)) interp)
  end.

(** [for interp.PC < lastAddr { ... }], with the number of iterations
    bounded by [fuel]; [None] when the bound is used up with the loop
    condition still true. *)
Fixpoint Interpret_loop (fuel : nat) (lastAddr : Z) (interp : Interpreter)
  : option (Interpreter * Outcome unit) :=
  if PC interp <? lastAddr then
    match fuel with
    | O => None
    | S fuel =>
        match Interpret_body interp with
        | (interp', Ok _) => Interpret_loop fuel lastAddr interp'
        | r => Some r
        end
    end
  else Some (interp, Ok tt).

(** The loop is entered with as many iterations allowed as there are
    addresses from [PC] to the bound. *)
Definition Interpret (interp : Interpreter)
  : option (Interpreter * Outcome unit) :=
  match discard 0 (ReadFrom 0) interp with
  | (interp, Ok lastAddr) =>
      Interpret_loop (Z.to_nat (lastAddr - PC interp)) lastAddr interp
  | (interp, Fail e) => Some (interp, Fail e)
  | (interp, Panic p) => Some (interp, Panic p)
  end.

End interpreter.

(** ** Package vm *)

Module vm.

Definition NUM_REGISTERS : nat := 10.
Definition INIT : nat := 10.

Record VirtualMemory : Type := mkVirtualMemory {
  Registers : list Z;
  Code : list (option instructions.Instruction);
  CodeSize : Z
}.

(** [make] fills a slice with zero values: 0 for [int32], nil for the
    [Instruction] interface. *)
Definition NewVirtualMemory : VirtualMemory :=
  mkVirtualMemory (replicate NUM_REGISTERS 0) (replicate INIT None) 0.

(** The interpreter is created from the slices of the virtual memory, so
    its [Registers] and [Code] are the same arrays: [store_Code] and
    [store_Register] write through both views. *)
Record VirtualMachine : Type := mkVirtualMachine {
  VMem : VirtualMemory;
  Interpreter : interpreter.Interpreter
}.

Definition NewVirtualMachine : VirtualMachine :=
  let vMem := NewVirtualMemory in
  mkVirtualMachine vMem (interpreter.New (Registers vMem) (Code vMem)).

(** [vm.VMem.Code[i] = instr] *)
Definition store_Code (i : Z) (instr : instructions.Instruction)
  : M VirtualMachine unit := fun vm =>
  match index (Code (VMem vm)) i with
  | None => (vm, Panic IndexOutOfRange)
  | Some _ =>
      let code := <[Z.to_nat i := Some instr]> (Code (VMem vm)) in
      (mkVirtualMachine
         (mkVirtualMemory (Registers (VMem vm)) code (CodeSize (VMem vm)))
         (interpreter.mkInterpreter (interpreter.PC (Interpreter vm))
            (interpreter.Registers (Interpreter vm)) code
            (interpreter.Stdout (Interpreter vm))),
       Ok tt)
  end.

(** [vm.VMem.Registers[i] = value] *)
Definition store_Register (i : Z) (value : Z)
  : M VirtualMachine unit := fun vm =>
  match index (Registers (VMem vm)) i with
  | None => (vm, Panic IndexOutOfRange)
  | Some _ =>
      let regs := <[Z.to_nat i := value]> (Registers (VMem vm)) in
      (mkVirtualMachine
         (mkVirtualMemory regs (Code (VMem vm)) (CodeSize (VMem vm)))
         (interpreter.set_Registers regs (Interpreter vm)),
       Ok tt)
  end.

Definition incr_CodeSize : M VirtualMachine unit :=
  modify (fun vm =>
    mkVirtualMachine
      (mkVirtualMemory (Registers (VMem vm)) (Code (VMem vm))
         (CodeSize (VMem vm) + 1))
      (Interpreter vm)).

(** [ParseInstructions], over the lines the scanner yields. *)
Fixpoint ParseInstructions (sourceCode : list string)
  : M VirtualMachine unit :=
  match sourceCode with
  | [] => ret tt
  | sourceInstruction :: sourceCode =>
      match parser.New sourceInstruction with
      | (_, Fail err) => fail err
      | (_, Panic g) => panic g
      | (p, Ok _) =>
          match parser.Instruction p with
          | (_, Ok (_, Some err)) => fail err
          | (_, Ok (byteCodeInstr, None)) =>
              vm <- get ;;
              store_Code (CodeSize (VMem vm)) byteCodeInstr ;;;
              incr_CodeSize ;;;
              ParseInstructions sourceCode
          | (_, Fail err) => fail err
          | (_, Panic g) => panic g
          end
      end
  end.

(** The interpreter runs on the shared registers and code block; its
    register writes are the virtual memory's. *)
Definition run_Interpreter (vm : VirtualMachine)
  : option (VirtualMachine * Outcome unit) :=
  match interpreter.Interpret (Interpreter vm) with
  | None => None
  | Some (interp, r) =>
      Some (mkVirtualMachine
              (mkVirtualMemory (interpreter.Registers interp)
                 (Code (VMem vm)) (CodeSize (VMem vm)))
              interp, r)
  end.

(** [Execute], on a file that opens and holds the lines [sourceCode]. *)
Definition Execute (sourceCode : list string) (vm : VirtualMachine)
  : option (VirtualMachine * Outcome unit) :=
  match (ParseInstructions sourceCode ;;;
         vm <- get ;;
         store_Register 0 (int32 (CodeSize (VMem vm)))) vm with
  | (vm, Ok _) => run_Interpreter vm
  | (vm, Fail err) => Some (vm, Fail err)
  | (vm, Panic g) => Some (vm, Panic g)
  end.

End vm.

(** ** Sample runs *)

Local Open Scope string_scope.
Local Open Scope Z_scope.

Definition lex_first (input : string) : Outcome token.Token :=
  snd (lexer.GetNextToken (lexer.New input)).

Definition parse_line (input : string)
  : Outcome (instructions.Instruction * option error) :=
  match parser.New input with
  | (p, Ok _) => snd (parser.Instruction p)
  | (_, Fail e) => Fail e
  | (_, Panic g) => Panic g
  end.

Definition run (sourceCode : list string)
  : option (list interpreter.Output * Outcome unit) :=
  match vm.Execute sourceCode vm.NewVirtualMachine with
  | Some (m, r) => Some (interpreter.Stdout (vm.Interpreter m), r)
  | None => None
  end.

(** ** Views used to state the properties *)

(** First byte of what is left of the line, 0 when nothing is left. *)
Definition peek (s : string) : ascii :=
  match s with
  | EmptyString => lexer.nul
  | String c _ => c
  end.

(** The lexer state on the line [done ++ todo] once [done] has been read:
    the cursor sits on the first byte of [todo]. *)
Definition lexer_at (done todo : string) : lexer.Lexer :=
  lexer.mkLexer (done ++ todo) (String.length done) (peek todo).

(** Value of a run of decimal digits, read left to right from [acc]. *)
Fixpoint decimal (acc : Z) (digits : string) : Z :=
  match digits with
  | EmptyString => acc
  | String c rest => decimal (acc * 10 + (unicode.rune c - 48)) rest
  end.

Fixpoint all_digits (s : string) : bool :=
  match s with
  | EmptyString => true
  | String c rest => unicode.IsDigit c && all_digits rest
  end.

Definition is_marker (c : ascii) : bool := Ascii.eqb c "r" || Ascii.eqb c "R".

Definition is_delimiter (c : ascii) : bool :=
  Ascii.eqb c " " || Ascii.eqb c ",".

(** [enough n lex]: [n] iterations are all a scanning loop started in
    [lex] can make. *)
Definition enough (n : nat) (lex : lexer.Lexer) : Prop :=
  lexer.is_nul (lexer.CurrentChar lex) = true
  \/ (lexer.remaining lex <= n)%nat.

(** [preserves R m]: every run of [m], whatever its outcome, takes a state
    to an [R]-related one. *)
Definition preserves {S A : Type} (R : S -> S -> Prop) (m : M S A) : Prop :=
  forall s s' r, m s = (s', r) -> R s s'.

(** What no opcode routine changes, [JumpTo] apart: the program counter,
    the code block and register 0. *)
Definition frame (i i' : interpreter.Interpreter) : Prop :=
  interpreter.PC i' = interpreter.PC i
  /\ interpreter.Code i' = interpreter.Code i
  /\ interpreter.Registers i' !! 0%nat = interpreter.Registers i !! 0%nat.

(** The same, with the program counter left free. *)
Definition bound_kept (i i' : interpreter.Interpreter) : Prop :=
  interpreter.Code i' = interpreter.Code i
  /\ interpreter.Registers i' !! 0%nat = interpreter.Registers i !! 0%nat.

(** [fails_with P m]: every error [m] returns satisfies [P]. *)
Definition fails_with {S A : Type} (P : error -> Prop) (m : M S A) : Prop :=
  forall s s' e, m s = (s', Fail e) -> P e.

Definition not_InvalidRegisterError (e : error) : Prop :=
  forall r, e <> InvalidRegisterError r.

(** A REG token carries a register index. *)
Definition REG_in_range (tok : token.Token) : Prop :=
  token.TokenType_ tok = token.REG -> 0 <= token.Value tok <= 9.

(** The arguments of an instruction that the interpreter uses as register
    indices: the first of STDOUT and LDI, both of ADD and ADDV. *)
Definition register_arguments_in_range (instr : instructions.Instruction)
  : Prop :=
  let op := instructions.GetOpCode instr in
  ((op = interpreter.OPCODE_STDOUT \/ op = interpreter.OPCODE_LDI) ->
   0 <= instructions.GetArg1 instr <= 9)
  /\ ((op = interpreter.OPCODE_ADD \/ op = interpreter.OPCODE_ADDV) ->
      0 <= instructions.GetArg1 instr <= 9
      /\ 0 <= instructions.GetArg2 instr <= 9).

(** [instr] is what the parser returns, with a nil error, for some line. *)
Definition parsed (instr : instructions.Instruction) : Prop :=
  exists input p p',
    parser.New input = (p, Ok tt)
    /\ parser.Instruction p = (p', Ok (instr, None)).

(** The parser's lookahead, when it is a REG token, carries an index. *)
Definition lookahead_in_range (p : parser.Parser) : Prop :=
  forall tok, parser.CurrentToken p = Some tok -> REG_in_range tok.

(** ** Views for the lexer's token rules *)

Fixpoint all_space (s : string) : bool :=
  match s with
  | EmptyString => true
  | String c rest => unicode.IsSpace c && all_space rest
  end.

(** Runs of ASCII capitals and of ASCII small letters. *)
Fixpoint all_upper (s : string) : bool :=
  match s with
  | EmptyString => true
  | String c rest => unicode.between 65 90 (unicode.rune c) && all_upper rest
  end.

Fixpoint all_lower (s : string) : bool :=
  match s with
  | EmptyString => true
  | String c rest => unicode.between 97 122 (unicode.rune c) && all_lower rest
  end.

(** The byte before the cursor, 0 at the start of the line. *)
Fixpoint last_byte (s : string) : ascii :=
  match s with
  | EmptyString => lexer.nul
  | String c EmptyString => c
  | String _ rest => last_byte rest
  end.

(** The mnemonics of the instruction set and their token types. *)
Definition mnemonic (w : string) : option token.TokenType :=
  if String.eqb w "LDI" then Some token.LDI
  else if String.eqb w "STDOUT" then Some token.STDOUT
  else if String.eqb w "PRINTR" then Some token.PRINTR
  else if String.eqb w "JUMP" then Some token.JUMP
  else if String.eqb w "ADD" then Some token.ADD
  else if String.eqb w "ADDV" then Some token.ADDV
  else if String.eqb w "DRAW" then Some token.DRAW
  else if String.eqb w "BLINK" then Some token.BLINK
  else None.

(** The shape names and their identifiers. *)
Definition shape_id (name : string) : option Z :=
  if String.eqb name "heart" then Some 1
  else if String.eqb name "bird" then Some 2
  else None.

(** [consumes x y]: when [x] is a cursor on a line, [y] is the cursor on
    the same line after some more of it has been read. *)
Definition consumes (x y : lexer.Lexer) : Prop :=
  forall a b, x = lexer_at a b ->
    exists c b', b = c ++ b' /\ y = lexer_at (a ++ c) b'.

(** ** Views for the parser's output *)

(** What a token of each type carries. *)
Definition token_wf (tok : token.Token) : Prop :=
  match token.TokenType_ tok with
  | token.REG => 0 <= token.Value tok <= 9
  | token.INT => 0 <= token.Value tok <= MaxInt32
  | token.SHAPE => token.Value tok = 1 \/ token.Value tok = 2
  | _ => token.Value tok = 0
  end.

Definition lookahead_wf (p : parser.Parser) : Prop :=
  forall tok, parser.CurrentToken p = Some tok -> token_wf tok.

(** The eight encodings, with the ranges of their operands. *)
Definition well_encoded (instr : instructions.Instruction) : Prop :=
  match instr with
  | instructions.UnaryInstruction op a =>
      (op = interpreter.OPCODE_STDOUT /\ 0 <= a <= 9)
      \/ (op = interpreter.OPCODE_JUMP /\ 0 <= a <= MaxInt32)
      \/ ((op = interpreter.OPCODE_DRAW \/ op = interpreter.OPCODE_BLINK)
          /\ (a = 1 \/ a = 2))
  | instructions.BinaryInstruction op a b =>
      (op = interpreter.OPCODE_LDI /\ 0 <= a <= 9 /\ 0 <= b <= MaxInt32)
      \/ ((op = interpreter.OPCODE_ADD \/ op = interpreter.OPCODE_ADDV)
          /\ 0 <= a <= 9 /\ 0 <= b <= 9)
  | instructions.NullaryInstruction op => op = interpreter.OPCODE_PRINTR
  | instructions.Error _ => False
  end.

(** The errors the opcode routines return on well-encoded instructions. *)
Definition runtime_error (e : error) : Prop :=
  e = ReadOnlyError
  \/ (exists pc addr, e = InfiniteLoopError pc addr)
  \/ e = SegfaultError
  \/ e = VisualAddRange.

(** [never_panics m]: no run of [m] ends in a run-time panic. *)
Definition never_panics {S A : Type} (m : M S A) : Prop :=
  forall s s' g, m s <> (s', Panic g).

(** ** Views for the interpreter's runs *)

(** What a run keeps of the terminal and of the register file: the output
    made so far stays in place, and so does the number of registers. *)
Definition grows (i i' : interpreter.Interpreter) : Prop :=
  length (interpreter.Registers i') = length (interpreter.Registers i)
  /\ exists more,
       interpreter.Stdout i' = (interpreter.Stdout i ++ more)%list.

(** The register file as [NewVirtualMemory] allocates it. *)
Definition ten_registers (i : interpreter.Interpreter) : Prop :=
  length (interpreter.Registers i) = 10%nat.

(** [safe I P m]: run from a state in [I], [m] ends in a state in [I], and
    a panic it ends in satisfies [P]. *)
Definition safe {S A : Type} (I : S -> Prop) (P : GoPanic -> Prop)
  (m : M S A) : Prop :=
  forall s s' r, I s -> m s = (s', r) ->
    I s' /\ forall g, r = Panic g -> P g.

Definition negative_repeat (g : GoPanic) : Prop := g = NegativeRepeatCount.

(** The addresses below [lastAddr] hold instructions in one of the
    parser's encodings. *)
Definition code_below (lastAddr : Z) (i : interpreter.Interpreter) : Prop :=
  forall a, 0 <= a < lastAddr ->
    exists instr,
      interpreter.Code i !! Z.to_nat a = Some (Some instr)
      /\ well_encoded instr.

(** ** Views for the virtual machine *)

(** [line] does not parse, and [e] is the error returned for it. *)
Definition line_error (line : string) (e : error) : Prop :=
  parse_line line = Fail e
  \/ exists instr, parse_line line = Ok (instr, Some e).

(** The machine between two lines of [ParseInstructions]: the interpreter
    sees the code block of the virtual memory, [CodeSize] is inside the
    block, the slots below it are filled, and what is stored came out of
    the parser. *)
Definition loaded (m : vm.VirtualMachine) : Prop :=
  interpreter.Code (vm.Interpreter m) = vm.Code (vm.VMem m)
  /\ 0 <= vm.CodeSize (vm.VMem m)
       <= Z.of_nat (length (vm.Code (vm.VMem m)))
  /\ (forall i instr,
         vm.Code (vm.VMem m) !! i = Some (Some instr) -> parsed instr)
  /\ (forall i, (i < Z.to_nat (vm.CodeSize (vm.VMem m)))%nat ->
         exists instr, vm.Code (vm.VMem m) !! i = Some (Some instr)).

(** ** Views for words and shape names over Latin-1 *)

(** Runs of letters as the lexer tests them, with [unicode.IsUpper] and
    [unicode.IsLower] on the Latin-1 range. *)
Fixpoint all_IsUpper (s : string) : bool :=
  match s with
  | EmptyString => true
  | String c rest => unicode.IsUpper c && all_IsUpper rest
  end.

Fixpoint all_IsLower (s : string) : bool :=
  match s with
  | EmptyString => true
  | String c rest => unicode.IsLower c && all_IsLower rest
  end.

(** What [WriteRune] has put in the builder once the bytes of [s] have
    been written: one byte for an ASCII letter, two for the others. *)
Fixpoint written (s : string) : string :=
  match s with
  | EmptyString => EmptyString
  | String c rest => unicode.utf8 c ++ written rest
  end.

(** [s] without its last byte: what has been read when the loop tests the
    length of the builder for the last time. *)
Fixpoint but_last (s : string) : string :=
  match s with
  | EmptyString => EmptyString
  | String _ EmptyString => EmptyString
  | String c rest => String c (but_last rest)
  end.

(** ** Strings *)

Lemma append_nil_r (s : string) : s ++ "" = s.
Proof. induction s as [|c s IH]; simpl; [reflexivity | now rewrite IH]. Qed.

Lemma append_assoc (a b c : string) : (a ++ b) ++ c = a ++ b ++ c.
Proof. induction a as [|x a IH]; simpl; [reflexivity | now rewrite IH]. Qed.

Lemma append_snoc (a : string) (c : ascii) (b : string) :
  (a ++ String c "") ++ b = a ++ String c b.
Proof. now rewrite append_assoc. Qed.

Lemma length_append (a b : string) :
  String.length (a ++ b) = (String.length a + String.length b)%nat.
Proof. induction a as [|x a IH]; simpl; [reflexivity | now rewrite IH]. Qed.

Lemma at_append (a b : string) :
  lexer.at_ (a ++ b) (String.length a) = peek b.
Proof.
  unfold lexer.at_. induction a as [|x a IH]; simpl.
  - destruct b; reflexivity.
  - exact IH.
Qed.

(** ** The cursor *)

Lemma New_at (input : string) : lexer.New input = lexer_at "" input.
Proof.
  unfold lexer.New, lexer_at, lexer.len. destruct input as [|c s].
  - reflexivity.
  - rewrite Z.gtb_ltb. destruct (Z.ltb_spec 0 (Z.of_nat (String.length (String c s)))) as [_|H].
    + reflexivity.
    + simpl in H. lia.
Qed.

Lemma GetNextChar_at (a : string) (c : ascii) (b : string) :
  lexer.GetNextChar (lexer_at a (String c b)) = lexer_at (a ++ String c "") b.
Proof.
  unfold lexer.GetNextChar, lexer_at, lexer.len. cbn [lexer.Input lexer.Position].
  rewrite append_snoc.
  assert (HL : S (String.length a) = String.length (a ++ String c "")).
  { rewrite length_append. simpl. lia. }
  rewrite <- HL. rewrite length_append, Z.gtb_ltb.
  destruct (Z.ltb_spec (Z.of_nat (String.length a + String.length (String c b)) - 1)
              (Z.of_nat (S (String.length a)))) as [H|H].
  - destruct b; [reflexivity | simpl in H; lia].
  - destruct b as [|x b]; [simpl in H; lia |].
    f_equal. rewrite <- (append_snoc a c (String x b)), HL.
    apply at_append.
Qed.

Lemma Delimiter_at (a : string) (d : ascii) (b : string) :
  lexer.Delimiter (lexer_at (a ++ String d "") b) = is_delimiter d.
Proof.
  unfold lexer.Delimiter, lexer_at. cbn [lexer.Input lexer.Position].
  rewrite length_append. simpl String.length.
  replace (String.length a + 1)%nat with (S (String.length a)) by lia.
  cbn [Nat.ltb Nat.leb]. replace (S (String.length a) - 1)%nat with (String.length a) by lia.
  rewrite append_snoc, at_append. reflexivity.
Qed.

Lemma Register_at (a : string) (d : ascii) (b : string) :
  lexer.Register (lexer_at (a ++ String d "") b) = is_marker d.
Proof.
  unfold lexer.Register, lexer_at. cbn [lexer.Input lexer.Position].
  rewrite length_append. simpl String.length.
  replace (String.length a + 1)%nat with (S (String.length a)) by lia.
  cbn [Nat.ltb Nat.leb]. replace (S (String.length a) - 1)%nat with (String.length a) by lia.
  rewrite append_snoc, at_append. reflexivity.
Qed.

Lemma Delimiter_start (b : string) : lexer.Delimiter (lexer_at "" b) = false.
Proof. reflexivity. Qed.

(** ** The scanning loops are the source's [for] loops

    With [enough] fuel a loop does not depend on its fuel, and so
    satisfies the equation of the [for] loop it stands for. *)

Lemma enough_remaining (lex : lexer.Lexer) : enough (lexer.remaining lex) lex.
Proof. right. lia. Qed.

Ltac len_lia :=
  repeat match goal with
         | |- context [String.length ?s] =>
             generalize dependent (String.length s); intros
         | H : context [String.length ?s] |- _ =>
             generalize dependent (String.length s); intros
         end;
  lia.

Lemma enough_GetNextChar (n : nat) (lex : lexer.Lexer) :
  (lexer.remaining lex <= S n)%nat -> enough n (lexer.GetNextChar lex).
Proof.
  unfold enough, lexer.remaining, lexer.GetNextChar, lexer.len. intros H.
  rewrite Z.gtb_ltb.
  destruct (Z.ltb_spec (Z.of_nat (String.length (lexer.Input lex)) - 1)
              (Z.of_nat (S (lexer.Position lex)))) as [L|L].
  - left. reflexivity.
  - right. cbn [lexer.Input lexer.Position]. len_lia.
Qed.

Ltac loop_fuel IH :=
  match goal with
  | Hn : enough (S _) ?lex, Hm : enough ?m ?lex |- _ =>
      cbn [lexer.IgnoreWhiteSpace_loop lexer.Integer_loop
           lexer.Command_loop lexer.Shape_loop];
      unfold enough in Hn, Hm;
      destruct (lexer.is_nul (lexer.CurrentChar lex)) eqn:Z;
      [ destruct m;
        cbn [lexer.IgnoreWhiteSpace_loop lexer.Integer_loop
             lexer.Command_loop lexer.Shape_loop];
        rewrite ?Z; reflexivity | ];
      destruct Hn as [Hn|Hn]; [discriminate|];
      destruct Hm as [Hm|Hm]; [discriminate|];
      destruct m as [|m]; [unfold lexer.remaining in Hm; lia|];
      cbn [negb andb lexer.IgnoreWhiteSpace_loop lexer.Integer_loop
           lexer.Command_loop lexer.Shape_loop];
      rewrite ?Z; cbn [negb andb];
      repeat match goal with
             | |- context [if ?b then _ else _] => destruct b; try reflexivity
             end;
      apply IH; apply enough_GetNextChar; assumption
  end.

Ltac loop_base :=
  match goal with
  | Hn : enough 0%nat ?lex, Hm : enough ?m ?lex |- _ =>
      unfold enough in Hn;
      destruct Hn as [Hn|Hn]; [| unfold lexer.remaining in Hn; lia];
      destruct m; cbn; rewrite ?Hn; reflexivity
  end.

Lemma IgnoreWhiteSpace_loop_fuel (n m : nat) (lex : lexer.Lexer) :
  enough n lex -> enough m lex ->
  lexer.IgnoreWhiteSpace_loop n lex = lexer.IgnoreWhiteSpace_loop m lex.
Proof.
  revert m lex. induction n as [|n IH]; intros m lex Hn Hm.
  - loop_base.
  - loop_fuel IH.
Qed.

Lemma Integer_loop_fuel (n m : nat) (acc : string) (lex : lexer.Lexer) :
  enough n lex -> enough m lex ->
  lexer.Integer_loop n acc lex = lexer.Integer_loop m acc lex.
Proof.
  revert m acc lex. induction n as [|n IH]; intros m acc lex Hn Hm.
  - loop_base.
  - loop_fuel IH.
Qed.

Lemma Command_loop_fuel (n m : nat) (acc : string) (lex : lexer.Lexer) :
  enough n lex -> enough m lex ->
  lexer.Command_loop n acc lex = lexer.Command_loop m acc lex.
Proof.
  revert m acc lex. induction n as [|n IH]; intros m acc lex Hn Hm.
  - loop_base.
  - loop_fuel IH.
Qed.

Lemma Shape_loop_fuel (n m : nat) (acc : string) (lex : lexer.Lexer) :
  enough n lex -> enough m lex ->
  lexer.Shape_loop n acc lex = lexer.Shape_loop m acc lex.
Proof.
  revert m acc lex. induction n as [|n IH]; intros m acc lex Hn Hm.
  - loop_base.
  - loop_fuel IH.
Qed.

Ltac loop_unfold L :=
  apply L;
  [ apply enough_GetNextChar; unfold lexer.remaining; lia
  | apply enough_remaining ].

(** [for lex.CurrentChar != 0 && unicode.IsSpace(...) { lex.GetNextChar() }] *)
Lemma IgnoreWhiteSpace_unfold (lex : lexer.Lexer) :
  lexer.IgnoreWhiteSpace lex =
  if negb (lexer.is_nul (lexer.CurrentChar lex))
     && unicode.IsSpace (lexer.CurrentChar lex)
  then lexer.IgnoreWhiteSpace (lexer.GetNextChar lex)
  else lex.
Proof.
  unfold lexer.IgnoreWhiteSpace at 1. unfold lexer.remaining at 1.
  cbn [lexer.IgnoreWhiteSpace_loop].
  destruct (_ && _); [| reflexivity].
  loop_unfold IgnoreWhiteSpace_loop_fuel.
Qed.

Lemma Integer_loop_unfold (acc : string) (lex : lexer.Lexer) :
  lexer.Integer_loop (lexer.remaining lex) acc lex =
  if negb (lexer.is_nul (lexer.CurrentChar lex))
     && unicode.IsDigit (lexer.CurrentChar lex)
  then lexer.Integer_loop (lexer.remaining (lexer.GetNextChar lex))
         (acc ++ unicode.utf8 (lexer.CurrentChar lex)) (lexer.GetNextChar lex)
  else (lex, acc).
Proof.
  unfold lexer.remaining at 1. cbn [lexer.Integer_loop].
  destruct (_ && _); [| reflexivity].
  loop_unfold Integer_loop_fuel.
Qed.

Lemma Command_loop_unfold (acc : string) (lex : lexer.Lexer) :
  lexer.Command_loop (lexer.remaining lex) acc lex =
  if negb (lexer.is_nul (lexer.CurrentChar lex))
     && unicode.IsUpper (lexer.CurrentChar lex)
  then if lexer.len acc >? 10 then (lex, Fail CommandLength)
       else lexer.Command_loop (lexer.remaining (lexer.GetNextChar lex))
              (acc ++ unicode.utf8 (lexer.CurrentChar lex))
              (lexer.GetNextChar lex)
  else (lex, Ok acc).
Proof.
  unfold lexer.remaining at 1. cbn [lexer.Command_loop].
  destruct (_ && _); [| reflexivity].
  destruct (_ >? _); [reflexivity |].
  loop_unfold Command_loop_fuel.
Qed.

Lemma Shape_loop_unfold (acc : string) (lex : lexer.Lexer) :
  lexer.Shape_loop (lexer.remaining lex) acc lex =
  if negb (lexer.is_nul (lexer.CurrentChar lex))
     && unicode.IsLower (lexer.CurrentChar lex)
  then if lexer.len acc >? 6 then (lex, Fail ShapeLength)
       else lexer.Shape_loop (lexer.remaining (lexer.GetNextChar lex))
              (acc ++ unicode.utf8 (lexer.CurrentChar lex))
              (lexer.GetNextChar lex)
  else (lex, Ok acc).
Proof.
  unfold lexer.remaining at 1. cbn [lexer.Shape_loop].
  destruct (_ && _); [| reflexivity].
  destruct (_ >? _); [reflexivity |].
  loop_unfold Shape_loop_fuel.
Qed.

Lemma IgnoreWhiteSpace_loop_stops (n : nat) (lex : lexer.Lexer) :
  enough n lex ->
  negb (lexer.is_nul (lexer.CurrentChar (lexer.IgnoreWhiteSpace_loop n lex)))
  && unicode.IsSpace (lexer.CurrentChar (lexer.IgnoreWhiteSpace_loop n lex))
  = false.
Proof.
  revert lex. induction n as [|n IH]; intros lex [H|H].
  - cbn. now rewrite H.
  - unfold lexer.remaining in H. lia.
  - cbn [lexer.IgnoreWhiteSpace_loop]. rewrite H. cbn. now rewrite H.
  - cbn [lexer.IgnoreWhiteSpace_loop].
    destruct (negb (lexer.is_nul (lexer.CurrentChar lex))
              && unicode.IsSpace (lexer.CurrentChar lex)) eqn:E; [| exact E].
    apply IH, enough_GetNextChar, H.
Qed.

(** The [for lex.CurrentChar != 0 { switch ... }] loop of [GetNextToken]. *)
Lemma GetNextToken_unfold (lex : lexer.Lexer) :
  lexer.GetNextToken lex =
  if negb (lexer.is_nul (lexer.CurrentChar lex)) then
    if unicode.IsSpace (lexer.CurrentChar lex)
    then lexer.GetNextToken (lexer.IgnoreWhiteSpace lex)
    else lexer.GetNextToken_switch lex
  else (lex, Ok (token.New token.EOF 0)).
Proof.
  unfold lexer.GetNextToken. cbn [lexer.GetNextToken_loop].
  destruct (negb _); [| reflexivity].
  destruct (unicode.IsSpace _); [| reflexivity].
  pose proof (IgnoreWhiteSpace_loop_stops _ lex (enough_remaining lex)) as H.
  fold (lexer.IgnoreWhiteSpace lex) in H.
  destruct (negb (lexer.is_nul _)); [| reflexivity].
  cbn [andb] in H. now rewrite H.
Qed.

(** ** Character classes *)

Ltac by_byte c :=
  destruct c as [[] [] [] [] [] [] [] []];
  try (intros; discriminate);
  vm_compute; intros; repeat split; try reflexivity; try discriminate.

Lemma digit_facts (c : ascii) :
  unicode.IsDigit c = true ->
  lexer.is_nul c = false /\ unicode.IsSpace c = false
  /\ (unicode.ToLower c =? unicode.rune "r")%Z = false
  /\ unicode.utf8 c = String c ""
  /\ Ascii.eqb c "-" = false /\ Ascii.eqb c "+" = false
  /\ 0 <= unicode.rune c - 48 <= 9.
Proof. by_byte c. Qed.

Lemma marker_facts (c : ascii) :
  is_marker c = true ->
  lexer.is_nul c = false /\ unicode.IsSpace c = false
  /\ (unicode.ToLower c =? unicode.rune "r")%Z = true.
Proof. by_byte c. Qed.

Lemma nul_not_digit (c : ascii) :
  lexer.is_nul c = true -> unicode.IsDigit c = false.
Proof. by_byte c. Qed.

(** ** Package strconv on runs of digits *)

Lemma decimal_ge (s : string) (acc : Z) :
  all_digits s = true -> 0 <= acc -> acc <= decimal acc s.
Proof.
  revert acc. induction s as [|c s IH]; intros acc H Hacc; simpl in *.
  - lia.
  - apply andb_prop in H as [Hc Hs].
    pose proof (digit_facts c Hc) as (_ & _ & _ & _ & _ & _ & Hd).
    specialize (IH (acc * 10 + (unicode.rune c - 48)) Hs). lia.
Qed.

Lemma ParseUint_loop_digits (s : string) (n : Z) :
  all_digits s = true -> 0 <= n <= strconv.maxVal ->
  strconv.ParseUint_loop s n =
  if decimal n s <=? strconv.maxVal then (decimal n s, None)
  else (strconv.maxVal, Some ErrRange).
Proof.
  unfold strconv.maxVal.
  revert n. induction s as [|c s IH]; intros n H Hn; simpl in *.
  - destruct (Z.leb_spec n 4294967295); [reflexivity | lia].
  - apply andb_prop in H as [Hc Hs]. rewrite Hc.
    pose proof (digit_facts c Hc) as (_ & _ & _ & _ & _ & _ & Hd).
    pose proof (decimal_ge s (n * 10 + (unicode.rune c - 48)) Hs) as Hge.
    unfold strconv.maxUint64, strconv.maxVal.
    change (18446744073709551615 / 10 + 1) with 1844674407370955162.
    change (18446744073709551615 + 1) with 18446744073709551616.
    rewrite Z.geb_leb.
    destruct (Z.leb_spec 1844674407370955162 n) as [Hc1|Hc1]; [lia |].
    rewrite Z.mod_small by lia. rewrite Z.gtb_ltb.
    destruct (Z.ltb_spec (n * 10 + (unicode.rune c - 48)) (n * 10)); [lia |].
    cbn [orb].
    destruct (Z.ltb_spec 4294967295 (n * 10 + (unicode.rune c - 48)))
      as [Hbig|Hfit].
    + destruct (Z.leb_spec (decimal (n * 10 + (unicode.rune c - 48)) s)
                  4294967295); [lia | reflexivity].
    + apply IH; [exact Hs | lia].
Qed.

(** On a non-empty run of digits [ParseInt(s, 10, 32)] is the decimal value
    when it fits 32 bits, and the range error otherwise. *)
Lemma ParseInt_digits (c : ascii) (s : string) :
  all_digits (String c s) = true ->
  strconv.ParseInt (String c s) =
  if decimal 0 (String c s) <=? MaxInt32
  then (decimal 0 (String c s), None)
  else (MaxInt32, Some ErrRange).
Proof.
  intros H. unfold strconv.ParseInt.
  pose proof H as H'. cbn [all_digits] in H'. apply andb_prop in H' as [Hc Hs].
  pose proof (digit_facts c Hc) as (_ & _ & _ & _ & Hm & Hp & _).
  rewrite Hm, Hp. cbn [orb negb andb].
  unfold strconv.ParseUint.
  rewrite ParseUint_loop_digits by (unfold strconv.maxVal; auto with zarith).
  pose proof (decimal_ge (String c s) 0 H) as Hge.
  unfold strconv.maxVal, MaxInt32.
  destruct (Z.leb_spec (decimal 0 (String c s)) 4294967295).
  - rewrite Z.geb_leb.
    destruct (Z.leb_spec 2147483648 (decimal 0 (String c s)));
      destruct (Z.leb_spec (decimal 0 (String c s)) 2147483647);
      try reflexivity; lia.
  - destruct (Z.leb_spec (decimal 0 (String c s)) 2147483647);
      [lia | reflexivity].
Qed.

Lemma int32_small (z : Z) : in_int32 z -> int32 z = z.
Proof.
  unfold in_int32, MinInt32, MaxInt32, int32. intros H.
  rewrite Z.mod_small; lia.
Qed.

Lemma int32_range (z : Z) : in_int32 (int32 z).
Proof.
  unfold in_int32, MinInt32, MaxInt32, int32.
  pose proof (Z.mod_pos_bound (z + 2147483648) 4294967296). lia.
Qed.

(** ** The lexer on a run of digits *)

Lemma Integer_loop_at (digits : string) :
  forall (a acc rest : string),
    all_digits digits = true ->
    unicode.IsDigit (peek rest) = false ->
    lexer.Integer_loop (lexer.remaining (lexer_at a (digits ++ rest))) acc
      (lexer_at a (digits ++ rest))
    = (lexer_at (a ++ digits) rest, acc ++ digits).
Proof.
  induction digits as [|c ds IH]; intros a acc rest Hd Hr.
  - cbn [append]. rewrite Integer_loop_unfold. cbn [lexer_at lexer.CurrentChar].
    rewrite Hr, andb_false_r, !append_nil_r. reflexivity.
  - cbn [append]. rewrite Integer_loop_unfold. cbn [lexer_at lexer.CurrentChar peek].
    fold (lexer_at a (String c (ds ++ rest))).
    cbn [all_digits] in Hd. apply andb_prop in Hd as [Hc Hds].
    pose proof (digit_facts c Hc) as (Hn & _ & _ & Hu & _).
    rewrite Hn, Hc, Hu. cbn [negb andb].
    rewrite GetNextChar_at, IH by assumption.
    now rewrite !append_snoc.
Qed.

Lemma Integer_at (a : string) (d c : ascii) (ds rest : string) :
  is_marker d || is_delimiter d = true ->
  all_digits (String c ds) = true ->
  unicode.IsDigit (peek rest) = false ->
  lexer.Integer (lexer_at (a ++ String d "") (String c ds ++ rest))
  = (lexer_at ((a ++ String d "") ++ String c ds) rest,
     if decimal 0 (String c ds) <=? MaxInt32
     then Ok (decimal 0 (String c ds))
     else Fail (IntConversion ErrRange)).
Proof.
  intros Hd Hc Hr. unfold lexer.Integer.
  rewrite Register_at, Delimiter_at, <- negb_orb, Hd. cbn [negb].
  rewrite Integer_loop_at by assumption. cbn [append]. cbv beta iota.
  rewrite ParseInt_digits by assumption.
  pose proof (decimal_ge _ 0 Hc ltac:(lia)) as Hge.
  destruct (Z.leb_spec (decimal 0 (String c ds)) MaxInt32) as [H|H];
    [| reflexivity].
  rewrite Z.gtb_ltb.
  destruct (Z.ltb_spec MaxInt32 (decimal 0 (String c ds))); [lia |].
  destruct (Z.ltb_spec (decimal 0 (String c ds)) MinInt32);
    [unfold MinInt32 in *; lia |].
  rewrite int32_small; [reflexivity |].
  unfold in_int32, MinInt32. lia.
Qed.

(** ** Lexing registers and integer literals *)

(** C4 (as stated, at the line "r1"): a register marker at the start of
    the line is not taken as preceded by a delimiter; lexing fails with the
    missing-delimiter error instead of producing a REG token. *)
Lemma register_at_line_start_rejected :
  lex_first "r1" = Fail RegMissingDelimiter
  /\ lex_first "r1" <> Ok (token.New token.REG 1).
Proof. split; [reflexivity | discriminate]. Qed.

(** C4 (amended): a register marker [r]/[R] at the start of the line, or
    preceded by a byte that is neither a space nor a comma, fails with the
    missing-delimiter error; preceded by a space or a comma and followed by
    one digit and no further digit, it lexes to a REG token whose value is
    that digit. *)
Theorem register_marker_lexing
  (a line rest : string) (d x r k : ascii) :
  is_marker r = true ->
  is_delimiter d = true ->
  is_delimiter x = false ->
  unicode.IsDigit k = true ->
  unicode.IsDigit (peek rest) = false ->
  lexer.GetNextToken (lexer.New (String r line))
  = (lexer.New (String r line), Fail RegMissingDelimiter)
  /\ lexer.GetNextToken (lexer_at (a ++ String x "") (String r line))
     = (lexer_at (a ++ String x "") (String r line), Fail RegMissingDelimiter)
  /\ lexer.GetNextToken (lexer_at (a ++ String d "") (String r (String k rest)))
     = (lexer_at (((a ++ String d "") ++ String r "") ++ String k "") rest,
        Ok (token.New token.REG (unicode.rune k - 48))).
Proof.
  intros Hr Hd Hx Hk Hrest.
  pose proof (marker_facts r Hr) as (Hn & Hs & Hl).
  pose proof (digit_facts k Hk) as (_ & Hks & _ & _ & _ & _ & Hkv).
  repeat split.
  - rewrite New_at, GetNextToken_unfold. cbn [lexer_at lexer.CurrentChar peek].
    rewrite Hn, Hs. cbn [negb]. unfold lexer.GetNextToken_switch.
    cbn [lexer_at lexer.CurrentChar peek]. rewrite Hl. reflexivity.
  - rewrite GetNextToken_unfold. cbn [lexer_at lexer.CurrentChar peek].
    rewrite Hn, Hs. cbn [negb]. unfold lexer.GetNextToken_switch.
    cbn [lexer_at lexer.CurrentChar peek]. rewrite Hl.
    unfold bind, lexer.RegisterIndex.
    fold (lexer_at (a ++ String x "") (String r line)).
    now rewrite Delimiter_at, Hx.
  - rewrite GetNextToken_unfold. cbn [lexer_at lexer.CurrentChar peek].
    rewrite Hn, Hs. cbn [negb]. unfold lexer.GetNextToken_switch.
    cbn [lexer_at lexer.CurrentChar peek]. rewrite Hl.
    unfold bind at 1. unfold lexer.RegisterIndex.
    fold (lexer_at (a ++ String d "") (String r (String k rest))).
    rewrite Delimiter_at, Hd. cbn [negb].
    rewrite GetNextChar_at. cbn [lexer_at lexer.CurrentChar peek].
    rewrite Hks.
    fold (lexer_at ((a ++ String d "") ++ String r "") (String k rest)).
    unfold bind.
    change (String k rest) with (String k "" ++ rest).
    rewrite Integer_at;
      [| now rewrite Hr | cbn; now rewrite Hk | assumption].
    cbn [decimal]. unfold MaxInt32.
    destruct (Z.leb_spec (0 * 10 + (unicode.rune k - 48)) 2147483647); [| lia].
    rewrite Z.gtb_ltb.
    destruct (Z.ltb_spec 9 (0 * 10 + (unicode.rune k - 48))); [lia |].
    reflexivity.
Qed.

Lemma register_marker_lexing_witness :
  lexer.GetNextToken (lexer_at ("STDOUT" ++ String " " "") (String "r" (String "7" "")))
  = (lexer_at ((("STDOUT" ++ String " " "") ++ String "r" "") ++ String "7" "") "",
     Ok (token.New token.REG 7)).
Proof.
  exact (proj2 (proj2 (register_marker_lexing "STDOUT" "1" "" " " "D" "r" "7"
                         eq_refl eq_refl eq_refl eq_refl eq_refl))).
Defined.

(** C5 (as stated, at the literal -5 after a space): no negative literal
    is lexed; the minus sign fails with the invalid-character error. *)
Lemma negative_literal_rejected :
  lex_first " -5" = Fail (InvalidCharacter "-")
  /\ lex_first " -5" <> Ok (token.New token.INT (-5)).
Proof. split; [reflexivity | discriminate]. Qed.

(** C5 (amended): a run of decimal digits preceded by a space or a comma
    lexes to an INT token holding exactly its value when the value is in
    [0, 2147483647], and fails with the integer-conversion error carrying
    strconv's range error when the value is larger; a minus sign in front
    of the digits fails with the invalid-character error. *)
Theorem integer_literal_lexing
  (a : string) (d c : ascii) (ds rest : string) :
  is_delimiter d = true ->
  all_digits (String c ds) = true ->
  unicode.IsDigit (peek rest) = false ->
  let lex := lexer_at (a ++ String d "") (String c ds ++ rest) in
  let lex' := lexer_at ((a ++ String d "") ++ String c ds) rest in
  let value := decimal 0 (String c ds) in
  0 <= value
  /\ (value <= MaxInt32 ->
      lexer.GetNextToken lex = (lex', Ok (token.New token.INT value)))
  /\ (MaxInt32 < value ->
      lexer.GetNextToken lex = (lex', Fail (IntConversion ErrRange)))
  /\ lexer.GetNextToken
       (lexer_at (a ++ String d "") (String "-" (String c ds ++ rest)))
     = (lexer_at (a ++ String d "") (String "-" (String c ds ++ rest)),
        Fail (InvalidCharacter "-")).
Proof.
  intros Hd Hc Hr lex lex' value.
  pose proof (decimal_ge _ 0 Hc ltac:(lia)) as Hge. fold value in Hge.
  assert (Hlex : lexer.GetNextToken lex =
                 match (if value <=? MaxInt32 then Ok value
                        else Fail (IntConversion ErrRange)) with
                 | Ok v => (lex', Ok (token.New token.INT v))
                 | Fail e => (lex', Fail e)
                 | Panic p => (lex', Panic p)
                 end).
  { subst lex lex' value. rewrite GetNextToken_unfold.
    cbn [append lexer_at lexer.CurrentChar peek].
    pose proof Hc as Hc'. cbn [all_digits] in Hc'.
    apply andb_prop in Hc' as [Hc' _].
    pose proof (digit_facts c Hc') as (Hn & Hs & Hl & _).
    rewrite Hn, Hs. cbn [negb]. unfold lexer.GetNextToken_switch.
    cbn [lexer_at lexer.CurrentChar peek]. rewrite Hl, Hc'.
    fold (lexer_at (a ++ String d "") (String c (ds ++ rest))).
    change (String c (ds ++ rest)) with (String c ds ++ rest).
    unfold bind. rewrite Integer_at; [| now rewrite Hd, orb_true_r | assumption ..].
    destruct (_ <=? _); reflexivity. }
  split; [exact Hge |]. split; [| split; [| reflexivity]].
  - intros H. rewrite Hlex.
    destruct (Z.leb_spec value MaxInt32); [reflexivity | lia].
  - intros H. rewrite Hlex.
    destruct (Z.leb_spec value MaxInt32); [lia | reflexivity].
Qed.

Lemma integer_literal_lexing_witness :
  lexer.GetNextToken (lexer_at ("LDI r1" ++ String "," "") ("42" ++ ""))
  = (lexer_at (("LDI r1" ++ String "," "") ++ "42") "",
     Ok (token.New token.INT 42)).
Proof.
  apply (integer_literal_lexing "LDI r1" "," "4" "2" ""
           eq_refl eq_refl eq_refl).
  vm_compute. discriminate.
Defined.

(** ** The interpreter: what a step leaves alone *)

Section Preserves.

Context {S : Type} (R : S -> S -> Prop).
Hypothesis R_refl : forall s, R s s.
Hypothesis R_trans : forall s1 s2 s3, R s1 s2 -> R s2 s3 -> R s1 s3.

Lemma preserves_ret {A : Type} (a : A) : preserves R (ret a).
Proof. intros s s' r [= <- _]. apply R_refl. Qed.

Lemma preserves_fail {A : Type} (e : error) : preserves R (@fail S A e).
Proof. intros s s' r [= <- _]. apply R_refl. Qed.

Lemma preserves_panic {A : Type} (p : GoPanic) : preserves R (@panic S A p).
Proof. intros s s' r [= <- _]. apply R_refl. Qed.

Lemma preserves_get : preserves R (@get S).
Proof. intros s s' r [= <- _]. apply R_refl. Qed.

Lemma preserves_modify (f : S -> S) :
  (forall s, R s (f s)) -> preserves R (modify f).
Proof. intros Hf s s' r [= <- _]. apply Hf. Qed.

Lemma preserves_bind {A B : Type} (m : M S A) (k : A -> M S B) :
  preserves R m -> (forall a, preserves R (k a)) -> preserves R (bind m k).
Proof.
  intros Hm Hk s s' r. unfold bind.
  destruct (m s) as [s1 [a|e|p]] eqn:E; intros H.
  - eapply R_trans; [eapply Hm, E | eapply Hk, H].
  - injection H as <- _. eapply Hm, E.
  - injection H as <- _. eapply Hm, E.
Qed.

Lemma preserves_discard {A : Type} (zero : A) (m : M S A) :
  preserves R m -> preserves R (discard zero m).
Proof.
  intros Hm s s' r. unfold discard.
  destruct (m s) as [s1 [a|e|p]] eqn:E; intros [= <- _]; eapply Hm, E.
Qed.

End Preserves.

Lemma frame_refl (i : interpreter.Interpreter) : frame i i.
Proof. repeat split. Qed.

Lemma frame_trans (i1 i2 i3 : interpreter.Interpreter) :
  frame i1 i2 -> frame i2 i3 -> frame i1 i3.
Proof. intros (A & B & C) (A' & B' & C'). repeat split; congruence. Qed.

Lemma index_Some {A : Type} (l : list A) (i : Z) (x : A) :
  index l i = Some x -> 0 <= i /\ l !! Z.to_nat i = Some x.
Proof.
  unfold index. destruct (Z.ltb_spec i 0); [discriminate | auto].
Qed.

Lemma frame_WriteTo (register value : Z) :
  preserves frame (interpreter.WriteTo register value).
Proof.
  intros i i' r. unfold interpreter.WriteTo.
  destruct (Z.eqb_spec register 0) as [|Hne]; [intros [= <- _]; apply frame_refl|].
  destruct (register >? 9); [intros [= <- _]; apply frame_refl|].
  destruct (index _ _) eqn:E; intros [= <- _]; [| apply frame_refl].
  apply index_Some in E as [Hpos _].
  repeat split. cbn. apply list_lookup_insert_ne. lia.
Qed.

Lemma frame_ReadFrom (register : Z) :
  preserves frame (interpreter.ReadFrom register).
Proof.
  intros i i' r. unfold interpreter.ReadFrom.
  destruct (register >? 9); [intros [= <- _]; apply frame_refl|].
  destruct (index _ _); intros [= <- _]; apply frame_refl.
Qed.

Lemma frame_print (o : interpreter.Output) :
  preserves frame (interpreter.print o).
Proof. apply preserves_modify. intros i. repeat split. Qed.

Create HintDb frame discriminated.
#[local] Hint Resolve frame_refl frame_trans frame_WriteTo frame_ReadFrom
  frame_print : frame.
#[local] Hint Extern 1 (preserves frame (ret _)) =>
  apply (preserves_ret frame frame_refl) : frame.
#[local] Hint Extern 1 (preserves frame (fail _)) =>
  apply (preserves_fail frame frame_refl) : frame.
#[local] Hint Extern 1 (preserves frame (panic _)) =>
  apply (preserves_panic frame frame_refl) : frame.
#[local] Hint Extern 1 (preserves frame get) =>
  apply (preserves_get frame frame_refl) : frame.
#[local] Hint Extern 1 (preserves frame (discard _ _)) =>
  apply (preserves_discard frame) : frame.
#[local] Hint Extern 1 (preserves frame (bind _ _)) =>
  apply (preserves_bind frame frame_trans); [| intros ?] : frame.
#[local] Hint Extern 1 (preserves frame (if ?b then _ else _)) =>
  destruct b : frame.

Ltac frame_solve := auto 20 with frame.

Lemma frame_CheckJump (addr : Z) : preserves frame (interpreter.CheckJump addr).
Proof. unfold interpreter.CheckJump. frame_solve. Qed.

Lemma frame_LoadImmediate (register value : Z) :
  preserves frame (interpreter.LoadImmediate register value).
Proof. unfold interpreter.LoadImmediate. frame_solve. Qed.

Lemma frame_Add (ri rj : Z) : preserves frame (interpreter.Add ri rj).
Proof. unfold interpreter.Add. frame_solve. Qed.

Lemma frame_AddV (ri rj : Z) : preserves frame (interpreter.AddV ri rj).
Proof. unfold interpreter.AddV. frame_solve. Qed.

Lemma frame_PrintToStdOut (register : Z) :
  preserves frame (interpreter.PrintToStdOut register).
Proof. unfold interpreter.PrintToStdOut. frame_solve. Qed.

Lemma frame_PrintRegisters_from (count : nat) (i : Z) :
  preserves frame (interpreter.PrintRegisters_from i count).
Proof.
  revert i. induction count as [|count IH]; intros i;
    cbn [interpreter.PrintRegisters_from]; frame_solve.
Qed.

Lemma frame_Draw (shape : Z) : preserves frame (interpreter.Draw shape).
Proof. unfold interpreter.Draw. frame_solve. Qed.

Lemma frame_Blink (shape : Z) : preserves frame (interpreter.Blink shape).
Proof. unfold interpreter.Blink. frame_solve. Qed.

(** ** The interpreter: jumps and the program counter *)

Lemma JumpTo_spec (address : Z) (interp : interpreter.Interpreter) :
  interpreter.JumpTo address interp =
  match interpreter.Registers interp !! 0%nat with
  | None => (interp, Panic IndexOutOfRange)
  | Some bound =>
      if address <=? interpreter.PC interp
      then (interp, Fail (InfiniteLoopError (interpreter.PC interp) address))
      else if address >? int32 (bound - 1) then (interp, Fail SegfaultError)
      else (interpreter.set_PC (int32 (address - 1)) interp, Ok tt)
  end.
Proof.
  unfold interpreter.JumpTo, interpreter.CheckJump, bind, discard,
    interpreter.ReadFrom, index, get, modify, fail, ret.
  change (0 >? 9) with false. change (0 <? 0) with false.
  change (Z.to_nat 0) with 0%nat. cbv iota.
  destruct (interpreter.Registers interp !! 0%nat) as [bound|]; [| reflexivity].
  destruct (address <=? interpreter.PC interp); [reflexivity |].
  destruct (address >? int32 (bound - 1)); reflexivity.
Qed.

Lemma bound_kept_refl (i : interpreter.Interpreter) : bound_kept i i.
Proof. split; reflexivity. Qed.

Lemma bound_kept_trans (i1 i2 i3 : interpreter.Interpreter) :
  bound_kept i1 i2 -> bound_kept i2 i3 -> bound_kept i1 i3.
Proof. intros (A & B) (A' & B'). split; congruence. Qed.

Lemma frame_bound_kept (i i' : interpreter.Interpreter) :
  frame i i' -> bound_kept i i'.
Proof. intros (_ & A & B). split; assumption. Qed.

(** Every routine but [JumpTo] leaves the program counter alone; [JumpTo]
    is the only other case of the dispatch. *)
Lemma DecodeAndDispatch_cases
  (instr : option instructions.Instruction)
  (interp interp' : interpreter.Interpreter) (r : Outcome unit) :
  interpreter.DecodeAndDispatch instr interp = (interp', r) ->
  frame interp interp'
  \/ exists i, instr = Some i
       /\ instructions.GetOpCode i = interpreter.OPCODE_JUMP
       /\ interpreter.JumpTo (instructions.GetArg1 i) interp = (interp', r).
Proof.
  unfold interpreter.DecodeAndDispatch. destruct instr as [i|].
  2:{ intros [= <- _]. left. apply frame_refl. }
  cbv zeta.
  destruct (Z.eqb_spec (instructions.GetOpCode i) interpreter.OPCODE_LDI).
  { intros H. left. eapply frame_LoadImmediate, H. }
  destruct (Z.eqb_spec (instructions.GetOpCode i) interpreter.OPCODE_JUMP).
  { intros H. right. exists i. auto. }
  destruct (Z.eqb_spec (instructions.GetOpCode i) interpreter.OPCODE_ADD).
  { intros H. left. eapply frame_Add, H. }
  destruct (Z.eqb_spec (instructions.GetOpCode i) interpreter.OPCODE_ADDV).
  { intros H. left. eapply frame_AddV, H. }
  destruct (Z.eqb_spec (instructions.GetOpCode i) interpreter.OPCODE_DRAW).
  { intros H. left. eapply frame_Draw, H. }
  destruct (Z.eqb_spec (instructions.GetOpCode i) interpreter.OPCODE_BLINK).
  { intros H. left. eapply frame_Blink, H. }
  destruct (Z.eqb_spec (instructions.GetOpCode i) interpreter.OPCODE_STDOUT).
  { intros H. left. eapply frame_PrintToStdOut, H. }
  destruct (Z.eqb_spec (instructions.GetOpCode i) interpreter.OPCODE_PRINTR).
  { intros H. left. eapply frame_PrintRegisters_from, H. }
  intros [= <- _]. left. apply frame_refl.
Qed.

Lemma JumpTo_bound_kept (address : Z) :
  preserves bound_kept (interpreter.JumpTo address).
Proof.
  intros i i' r. rewrite JumpTo_spec.
  destruct (interpreter.Registers i !! 0%nat);
    repeat match goal with
           | |- context [if ?b then _ else _] => destruct b
           end;
    intros [= <- _]; split; reflexivity.
Qed.

Lemma DecodeAndDispatch_bound_kept (instr : option instructions.Instruction) :
  preserves bound_kept (interpreter.DecodeAndDispatch instr).
Proof.
  intros i i' r H. apply DecodeAndDispatch_cases in H as [H|(x & _ & _ & H)].
  - apply frame_bound_kept, H.
  - eapply JumpTo_bound_kept, H.
Qed.

(** One iteration of the dispatch loop keeps the code block and
    register 0. *)
Lemma Interpret_body_bound_kept : preserves bound_kept interpreter.Interpret_body.
Proof.
  unfold interpreter.Interpret_body.
  apply (preserves_bind bound_kept bound_kept_trans).
  - apply (preserves_get bound_kept bound_kept_refl).
  - intros i. destruct (index _ _).
    + apply (preserves_bind bound_kept bound_kept_trans).
      * apply DecodeAndDispatch_bound_kept.
      * intros _. apply preserves_modify. intros s. split; reflexivity.
    + apply (preserves_panic bound_kept bound_kept_refl).
Qed.

(** A successful iteration entered below [MaxInt32] moves the program
    counter strictly forward. *)
Lemma Interpret_body_progress (interp interp' : interpreter.Interpreter) :
  in_int32 (interpreter.PC interp) ->
  interpreter.PC interp < MaxInt32 ->
  interpreter.Interpret_body interp = (interp', Ok tt) ->
  interpreter.PC interp < interpreter.PC interp'
  /\ in_int32 (interpreter.PC interp').
Proof.
  intros Hpc Hmax. unfold interpreter.Interpret_body, bind, get, modify.
  destruct (index _ _) as [instr|]; [| discriminate].
  destruct (interpreter.DecodeAndDispatch instr interp) as [i1 [[]|e|p]] eqn:E;
    try discriminate.
  intros [= <-]. cbn [interpreter.PC interpreter.set_PC].
  split; [| apply int32_range].
  apply DecodeAndDispatch_cases in E as [(Hf & _)|(x & _ & _ & E)].
  - rewrite Hf, int32_small; unfold in_int32, MinInt32, MaxInt32 in *; lia.
  - rewrite JumpTo_spec in E.
    destruct (interpreter.Registers interp !! 0%nat) as [bound|]; [| discriminate].
    destruct (Z.leb_spec (instructions.GetArg1 x) (interpreter.PC interp));
      [discriminate |].
    rewrite Z.gtb_ltb in E.
    destruct (Z.ltb_spec (int32 (bound - 1)) (instructions.GetArg1 x));
      [discriminate |].
    injection E as <-. cbn [interpreter.PC interpreter.set_PC].
    pose proof (int32_range (bound - 1)) as Hb.
    unfold in_int32, MinInt32, MaxInt32 in *.
    rewrite (int32_small (instructions.GetArg1 x - 1));
      [| unfold in_int32, MinInt32, MaxInt32; lia].
    rewrite int32_small; unfold in_int32, MinInt32, MaxInt32; lia.
Qed.

(** A successful iteration entered below the bound held in register 0
    does not overshoot it. *)
Lemma Interpret_body_within
  (interp interp' : interpreter.Interpreter) (bound : Z) :
  in_int32 (interpreter.PC interp) ->
  in_int32 bound ->
  interpreter.Registers interp !! 0%nat = Some bound ->
  interpreter.PC interp < bound ->
  interpreter.Interpret_body interp = (interp', Ok tt) ->
  interpreter.PC interp' <= bound.
Proof.
  intros Hpc Hb H0 Hlt. unfold interpreter.Interpret_body, bind, get, modify.
  destruct (index _ _) as [instr|]; [| discriminate].
  destruct (interpreter.DecodeAndDispatch instr interp) as [i1 [[]|e|p]] eqn:E;
    try discriminate.
  intros [= <-]. cbn [interpreter.PC interpreter.set_PC].
  unfold in_int32, MinInt32, MaxInt32 in *.
  apply DecodeAndDispatch_cases in E as [(Hf & _)|(x & _ & _ & E)].
  - rewrite Hf, int32_small; unfold in_int32, MinInt32, MaxInt32; lia.
  - rewrite JumpTo_spec, H0 in E.
    destruct (Z.leb_spec (instructions.GetArg1 x) (interpreter.PC interp));
      [discriminate |].
    rewrite Z.gtb_ltb in E.
    rewrite (int32_small (bound - 1)) in E
      by (unfold in_int32, MinInt32, MaxInt32; lia).
    destruct (Z.ltb_spec (bound - 1) (instructions.GetArg1 x));
      [discriminate |].
    injection E as <-. cbn [interpreter.PC interpreter.set_PC].
    rewrite (int32_small (instructions.GetArg1 x - 1));
      [| unfold in_int32, MinInt32, MaxInt32; lia].
    rewrite int32_small; unfold in_int32, MinInt32, MaxInt32; lia.
Qed.

Lemma Interpret_loop_more_fuel (n m : nat) (lastAddr : Z)
  (interp : interpreter.Interpreter)
  (res : interpreter.Interpreter * Outcome unit) :
  interpreter.Interpret_loop n lastAddr interp = Some res ->
  (n <= m)%nat ->
  interpreter.Interpret_loop m lastAddr interp = Some res.
Proof.
  revert m interp. induction n as [|n IH]; intros m interp H Hle.
  - cbn [interpreter.Interpret_loop] in H. destruct m; cbn [interpreter.Interpret_loop];
      destruct (interpreter.PC interp <? lastAddr); congruence.
  - destruct m as [|m]; [lia |]. cbn [interpreter.Interpret_loop] in *.
    destruct (interpreter.PC interp <? lastAddr); [| exact H].
    destruct (interpreter.Interpret_body interp) as [i1 [[]|e|p]];
      try exact H.
    apply IH; [exact H | lia].
Qed.

Lemma Interpret_loop_bound_kept (n : nat) (lastAddr : Z)
  (interp interp' : interpreter.Interpreter) (r : Outcome unit) :
  interpreter.Interpret_loop n lastAddr interp = Some (interp', r) ->
  bound_kept interp interp'.
Proof.
  revert interp. induction n as [|n IH]; intros interp; cbn [interpreter.Interpret_loop].
  - destruct (_ <? _); [discriminate |]. intros [= <- _]. apply bound_kept_refl.
  - destruct (_ <? _); [| intros [= <- _]; apply bound_kept_refl].
    destruct (interpreter.Interpret_body interp) as [i1 o] eqn:E.
    pose proof (Interpret_body_bound_kept _ _ _ E) as Hk.
    destruct o as [[]|e|p].
    + intros H. eapply bound_kept_trans; [exact Hk | apply IH, H].
    + intros [= <- _]. exact Hk.
    + intros [= <- _]. exact Hk.
Qed.

(** The loop comes to an end within [lastAddr - PC] iterations. *)
Lemma Interpret_loop_total (n : nat) (lastAddr : Z)
  (interp : interpreter.Interpreter) :
  in_int32 lastAddr ->
  in_int32 (interpreter.PC interp) ->
  (Z.to_nat (lastAddr - interpreter.PC interp) <= n)%nat ->
  exists interp' r,
    interpreter.Interpret_loop n lastAddr interp = Some (interp', r)
    /\ (r = Ok tt ->
        interpreter.Registers interp !! 0%nat = Some lastAddr ->
        interpreter.PC interp <= lastAddr ->
        interpreter.PC interp' = lastAddr).
Proof.
  intros Hb. revert interp. induction n as [|n IH]; intros interp Hpc Hn.
  - cbn [interpreter.Interpret_loop]. destruct (Z.ltb_spec (interpreter.PC interp) lastAddr); [lia |].
    exists interp, (Ok tt). split; [reflexivity | lia].
  - cbn [interpreter.Interpret_loop]. destruct (Z.ltb_spec (interpreter.PC interp) lastAddr) as [Hlt|Hge].
    2:{ exists interp, (Ok tt). split; [reflexivity | lia]. }
    destruct (interpreter.Interpret_body interp) as [i1 o] eqn:E.
    destruct o as [[]|e|p].
    + assert (Hmax : interpreter.PC interp < MaxInt32)
        by (unfold in_int32 in *; lia).
      destruct (Interpret_body_progress _ _ Hpc Hmax E) as [Hgt Hpc1].
      destruct (IH i1 Hpc1 ltac:(lia)) as (i2 & r & Hrun & Hend).
      exists i2, r. split; [exact Hrun |].
      intros Hr H0 _.
      pose proof (Interpret_body_bound_kept _ _ _ E) as [_ Hk].
      apply Hend; [exact Hr | congruence |].
      exact (Interpret_body_within interp i1 lastAddr Hpc Hb H0 Hlt E).
    + exists i1, (Fail e). split; [reflexivity | discriminate].
    + exists i1, (Panic p). split; [reflexivity | discriminate].
Qed.

Lemma Interpret_spec (interp : interpreter.Interpreter) :
  interpreter.Interpret interp =
  match interpreter.Registers interp !! 0%nat with
  | None => Some (interp, Panic IndexOutOfRange)
  | Some lastAddr =>
      interpreter.Interpret_loop
        (Z.to_nat (lastAddr - interpreter.PC interp)) lastAddr interp
  end.
Proof.
  unfold interpreter.Interpret, discard, interpreter.ReadFrom, index.
  change (0 >? 9) with false. change (0 <? 0) with false.
  change (Z.to_nat 0) with 0%nat. cbv iota.
  destruct (interpreter.Registers interp !! 0%nat); reflexivity.
Qed.

(** The iteration of the dispatch loop on a JUMP instruction. *)
Lemma Interpret_body_JUMP
  (interp : interpreter.Interpreter) (instr : instructions.Instruction)
  (bound : Z) :
  index (interpreter.Code interp) (interpreter.PC interp) = Some (Some instr) ->
  instructions.GetOpCode instr = interpreter.OPCODE_JUMP ->
  interpreter.Registers interp !! 0%nat = Some bound ->
  interpreter.Interpret_body interp =
  let T := instructions.GetArg1 instr in
  if T <=? interpreter.PC interp
  then (interp, Fail (InfiniteLoopError (interpreter.PC interp) T))
  else if T >? int32 (bound - 1) then (interp, Fail SegfaultError)
  else (interpreter.set_PC (int32 (int32 (T - 1) + 1)) interp, Ok tt).
Proof.
  intros Hc Hop H0.
  unfold interpreter.Interpret_body, bind at 1, get. rewrite Hc.
  unfold bind, interpreter.DecodeAndDispatch. rewrite Hop.
  change (interpreter.OPCODE_JUMP =? interpreter.OPCODE_LDI) with false.
  change (interpreter.OPCODE_JUMP =? interpreter.OPCODE_JUMP) with true.
  cbv iota zeta. rewrite JumpTo_spec, H0.
  destruct (_ <=? _); [reflexivity |].
  destruct (_ >? _); reflexivity.
Qed.

(** ** Interpreter claims *)



(** C7: the dispatch loop terminates.  Every successful iteration moves
    the program counter strictly forward, so [Interpret] returns within
    [bound - PC] iterations: it runs to completion, with the program counter
    on the bound held in register 0, or stops at the first instruction that
    fails. *)
Theorem Interpret_terminates (interp : interpreter.Interpreter) :
  in_int32 (interpreter.PC interp) ->
  (forall v, interpreter.Registers interp !! 0%nat = Some v -> in_int32 v) ->
  (forall i i' lastAddr,
      in_int32 (interpreter.PC i) -> in_int32 lastAddr ->
      interpreter.PC i < lastAddr ->
      interpreter.Interpret_body i = (i', Ok tt) ->
      interpreter.PC i < interpreter.PC i')
  /\ exists interp' r,
       interpreter.Interpret interp = Some (interp', r)
       /\ (forall bound fuel,
              interpreter.Registers interp !! 0%nat = Some bound ->
              (Z.to_nat (bound - interpreter.PC interp) <= fuel)%nat ->
              interpreter.Interpret_loop fuel bound interp = Some (interp', r))
       /\ (r = Ok tt ->
           forall bound,
             interpreter.Registers interp !! 0%nat = Some bound ->
             interpreter.PC interp <= bound ->
             interpreter.PC interp' = bound).
Proof.
  intros Hpc Hreg. split.
  - intros i i' lastAddr Hi Hl Hlt E.
    apply (Interpret_body_progress i i' Hi); [| exact E].
    unfold in_int32 in Hl. lia.
  - rewrite Interpret_spec.
    destruct (interpreter.Registers interp !! 0%nat) as [lastAddr|] eqn:H0.
    + destruct (Interpret_loop_total
                  (Z.to_nat (lastAddr - interpreter.PC interp)) lastAddr interp
                  (Hreg _ eq_refl) Hpc (le_n _)) as (i' & r & Hrun & Hend).
      exists i', r. split; [exact Hrun |]. split.
      * intros bound fuel [= <-] Hfuel.
        eapply Interpret_loop_more_fuel; eauto.
      * intros Hr bound [= <-] Hle. apply Hend; auto.
    + exists interp, (Panic IndexOutOfRange).
      split; [reflexivity |]. split; [discriminate | discriminate].
Qed.

Lemma Interpret_terminates_witness :
  exists interp' r,
    interpreter.Interpret
      (interpreter.New [2; 0; 0; 0; 0; 0; 0; 0; 0; 0]
         [Some (instructions.BinaryInstruction 1 1 7);
          Some (instructions.UnaryInstruction 0 1)])
    = Some (interp', r).
Proof.
  destruct (Interpret_terminates
              (interpreter.New [2; 0; 0; 0; 0; 0; 0; 0; 0; 0]
                 [Some (instructions.BinaryInstruction 1 1 7);
                  Some (instructions.UnaryInstruction 0 1)]))
    as (_ & i' & r & H & _).
  - unfold in_int32, MinInt32, MaxInt32. cbn. lia.
  - intros v [= <-]. unfold in_int32, MinInt32, MaxInt32. lia.
  - exists i', r. exact H.
Defined.

(** C3 (the code at [ADD r0,r1]): the write to register 0 does fail with
    ReadOnlyError, but [Add] drops the error that [WriteTo] returns: an
    ADD whose destination is register 0 never reports it, and the program
    [ADD r0,r1] / [STDOUT r0] runs to completion. *)
Theorem Add_drops_ReadOnlyError :
  (forall v interp,
      interpreter.WriteTo 0 v interp = (interp, Fail ReadOnlyError))
  /\ (forall rj interp,
         snd (interpreter.Add 0 rj interp) <> Fail ReadOnlyError)
  /\ parse_line "ADD r0,r1"
     = Ok (instructions.BinaryInstruction interpreter.OPCODE_ADD 0 1, None)
  /\ run ["ADD r0,r1"; "STDOUT r0"]
     = Some ([interpreter.PrintValue 2], Ok tt).
Proof.
  split; [reflexivity |]. split; [| split; reflexivity].
  intros rj interp.
  unfold interpreter.Add, bind, discard, ret.
  destruct (interpreter.ReadFrom 0 interp) as [i1 [v1|e1|p1]] eqn:E1;
    cbn [snd]; try discriminate.
  - destruct (interpreter.ReadFrom rj i1) as [i2 [v2|e2|p2]] eqn:E2;
      cbn [snd]; try discriminate.
    unfold interpreter.ReadFrom in E2.
    destruct (rj >? 9); [injection E2 as _ <-; discriminate |].
    destruct (index _ _); discriminate.
  - unfold interpreter.ReadFrom in E1. change (0 >? 9) with false in E1.
    cbv iota in E1. destruct (index _ _); discriminate.
Qed.

(** C8: the program LDI r1,1 / LDI r2,8 / ADD r1,r2 / STDOUT r1, parsed
    and interpreted from zeroed registers, succeeds and prints exactly 9. *)
Theorem scenario_prints_9 :
  run ["LDI r1,1"; "LDI r2,8"; "ADD r1,r2"; "STDOUT r1"]
  = Some ([interpreter.PrintValue 9], Ok tt).
Proof. vm_compute. reflexivity. Qed.

(** C10: on the line "JUMP 4 5" the parser succeeds and returns the
    instruction of the prefix "JUMP 4"; the trailing token 5 is pulled
    into the lookahead and never looked at. *)
Theorem trailing_token_ignored :
  parse_line "JUMP 4 5"
  = Ok (instructions.UnaryInstruction parser.OPCODE_JUMP 4, None)
  /\ parse_line "JUMP 4 5" = parse_line "JUMP 4"
  /\ parser.CurrentToken
       (fst (parser.Instruction (fst (parser.New "JUMP 4 5"))))
     = Some (token.New token.INT 5).
Proof. repeat split. Qed.

(** C2 (the code at an 11-line program): the code block is allocated with
    [INIT] = 10 slots and never grows; ten lines fill it, and the store of
    the eleventh instruction is an index out of range, a run-time panic. *)
Theorem code_block_does_not_grow :
  length (vm.Code vm.NewVirtualMemory) = 10%nat
  /\ snd (vm.ParseInstructions (replicate 10 "PRINTR") vm.NewVirtualMachine)
     = Ok tt
  /\ snd (vm.ParseInstructions (replicate 11 "PRINTR") vm.NewVirtualMachine)
     = Panic IndexOutOfRange
  /\ run (replicate 11 "PRINTR") = Some ([], Panic IndexOutOfRange).
Proof. repeat split; vm_compute; reflexivity. Qed.

(** ** The virtual machine: parsing into the code block *)

(** [ParseInstructions] writes to the code block and to [CodeSize] only;
    it stores one instruction per line, inside the allocated block. *)
Lemma ParseInstructions_spec (sourceCode : list string) :
  forall (m m' : vm.VirtualMachine) (r : Outcome unit),
    vm.ParseInstructions sourceCode m = (m', r) ->
    0 <= vm.CodeSize (vm.VMem m) <= Z.of_nat (length (vm.Code (vm.VMem m))) ->
    vm.Registers (vm.VMem m') = vm.Registers (vm.VMem m)
    /\ interpreter.Registers (vm.Interpreter m')
       = interpreter.Registers (vm.Interpreter m)
    /\ interpreter.PC (vm.Interpreter m') = interpreter.PC (vm.Interpreter m)
    /\ length (vm.Code (vm.VMem m')) = length (vm.Code (vm.VMem m))
    /\ (r = Ok tt ->
        vm.CodeSize (vm.VMem m')
        = vm.CodeSize (vm.VMem m) + Z.of_nat (length sourceCode)
        /\ vm.CodeSize (vm.VMem m') <= Z.of_nat (length (vm.Code (vm.VMem m')))).
Proof.
  induction sourceCode as [|line rest IH]; intros m m' r H Hsize.
  - injection H as <- <-. repeat split; cbn [length]; lia.
  - cbn [vm.ParseInstructions] in H.
    destruct (parser.New line) as [p [[]|e|g]];
      [| injection H as <- <-; repeat split; discriminate ..].
    destruct (parser.Instruction p) as [p' [[instr [err|]]|e|g]];
      try (injection H as <- <-; repeat split; discriminate).
    unfold bind at 1, get in H. unfold bind at 1, vm.store_Code in H.
    destruct (index (vm.Code (vm.VMem m)) (vm.CodeSize (vm.VMem m))) eqn:Ei;
      [| injection H as <- <-; repeat split; discriminate].
    unfold bind at 1, vm.incr_CodeSize, modify in H.
    apply index_Some in Ei as [_ Ei]. apply lookup_lt_Some in Ei.
    apply IH in H; cbn [vm.VMem vm.Code vm.CodeSize vm.Registers vm.Interpreter
                         interpreter.Registers interpreter.PC] in *;
      rewrite ?length_insert in *; [| lia].
    destruct H as (A & B & C & D & E).
    split; [exact A |]. split; [exact B |]. split; [exact C |].
    split; [exact D |].
    intros Hr. destruct (E Hr) as [E1 E2]. cbn [length]. lia.
Qed.

Lemma Interpret_bound_kept (interp interp' : interpreter.Interpreter)
  (r : Outcome unit) :
  interpreter.Interpret interp = Some (interp', r) -> bound_kept interp interp'.
Proof.
  rewrite Interpret_spec.
  destruct (interpreter.Registers interp !! 0%nat).
  - apply Interpret_loop_bound_kept.
  - intros [= <- _]. apply bound_kept_refl.
Qed.

(** C6: register 0 is written once, by [Execute], after parsing and before
    the interpreter is invoked, and holds the code-block length from then
    on: parsing leaves it at its initial 0 (and so does a failed parse);
    no iteration of the dispatch loop and no run of [Interpret] changes
    it; every [WriteTo] on it fails with ReadOnlyError whatever the
    value. *)
Theorem register0_written_once (sourceCode : list string) :
  (forall v interp,
      interpreter.WriteTo 0 v interp = (interp, Fail ReadOnlyError))
  /\ (forall interp interp' r,
         interpreter.Interpret_body interp = (interp', r) ->
         interpreter.Registers interp' !! 0%nat
         = interpreter.Registers interp !! 0%nat)
  /\ (forall interp interp' r,
         interpreter.Interpret interp = Some (interp', r) ->
         interpreter.Registers interp' !! 0%nat
         = interpreter.Registers interp !! 0%nat)
  /\ (forall m1 r1,
         vm.ParseInstructions sourceCode vm.NewVirtualMachine = (m1, r1) ->
         vm.Registers (vm.VMem m1) !! 0%nat = Some 0
         /\ interpreter.Registers (vm.Interpreter m1) !! 0%nat = Some 0
         /\ (r1 <> Ok tt ->
             vm.Execute sourceCode vm.NewVirtualMachine = Some (m1, r1))
         /\ (r1 = Ok tt ->
             exists m2,
               vm.Execute sourceCode vm.NewVirtualMachine
               = vm.run_Interpreter m2
               /\ vm.CodeSize (vm.VMem m2) = Z.of_nat (length sourceCode)
               /\ interpreter.Registers (vm.Interpreter m2) !! 0%nat
                  = Some (Z.of_nat (length sourceCode))
               /\ forall m' r,
                    vm.Execute sourceCode vm.NewVirtualMachine = Some (m', r) ->
                    interpreter.Registers (vm.Interpreter m') !! 0%nat
                    = Some (Z.of_nat (length sourceCode))
                    /\ vm.Registers (vm.VMem m') !! 0%nat
                       = Some (Z.of_nat (length sourceCode)))).
Proof.
  split; [reflexivity |].
  split; [intros i i' r H; apply (Interpret_body_bound_kept _ _ _ H) |].
  split; [intros i i' r H; apply (Interpret_bound_kept _ _ _ H) |].
  intros m1 r1 Hparse.
  destruct (ParseInstructions_spec sourceCode _ _ _ Hparse)
    as (HR & HIR & _ & HL & Hsize); [cbn; lia |].
  cbn in HR, HIR, HL.
  split; [now rewrite HR |]. split; [now rewrite HIR |].
  assert (HE : vm.Execute sourceCode vm.NewVirtualMachine =
               match r1 with
               | Ok _ =>
                   let regs :=
                     <[0%nat := int32 (vm.CodeSize (vm.VMem m1))]>
                       (vm.Registers (vm.VMem m1)) in
                   vm.run_Interpreter
                     (vm.mkVirtualMachine
                        (vm.mkVirtualMemory regs (vm.Code (vm.VMem m1))
                           (vm.CodeSize (vm.VMem m1)))
                        (interpreter.set_Registers regs (vm.Interpreter m1)))
               | Fail e => Some (m1, Fail e)
               | Panic g => Some (m1, Panic g)
               end).
  { unfold vm.Execute, bind, get, vm.store_Register, index.
    rewrite Hparse. destruct r1 as [[]|e|g]; [| reflexivity ..].
    rewrite HR. reflexivity. }
  rewrite HE. split.
  - intros Hne. destruct r1 as [[]|e|g]; [congruence | reflexivity ..].
  - intros ->. destruct (Hsize eq_refl) as [Hcs Hle].
    cbn in Hcs. rewrite HL in Hle.
    rewrite int32_small
      by (unfold in_int32, MinInt32, MaxInt32; lia).
    eexists. split; [reflexivity |].
    cbn [vm.VMem vm.Interpreter vm.CodeSize interpreter.set_Registers
         interpreter.Registers].
    split; [exact Hcs |]. rewrite Hcs, HR.
    split; [reflexivity |].
    intros m' r. unfold vm.run_Interpreter.
    destruct (interpreter.Interpret _) as [[interp ri]|] eqn:Hrun;
      [| discriminate].
    intros [= <- _]. apply Interpret_bound_kept in Hrun as [_ Hk].
    cbn [vm.VMem vm.Interpreter vm.Registers interpreter.set_Registers
         interpreter.Registers] in *.
    rewrite Hk. split; reflexivity.
Qed.

Lemma register0_written_once_witness :
  match vm.Execute ["LDI r1,1"; "STDOUT r0"] vm.NewVirtualMachine with
  | Some (m', _) =>
      interpreter.Registers (vm.Interpreter m') !! 0%nat = Some 2
  | None => False
  end.
Proof.
  destruct (register0_written_once ["LDI r1,1"; "STDOUT r0"])
    as (_ & _ & _ & H).
  destruct (vm.ParseInstructions ["LDI r1,1"; "STDOUT r0"] vm.NewVirtualMachine)
    as [m1 r1] eqn:E.
  destruct (H m1 r1 eq_refl) as (_ & _ & _ & H').
  assert (Hr : r1 = Ok tt) by (vm_compute in E; congruence).
  destruct (H' Hr) as (m2 & _ & _ & _ & Hfinal).
  destruct (vm.Execute _ _) as [[m' r]|] eqn:Ex.
  - exact (proj1 (Hfinal m' r eq_refl)).
  - vm_compute in Ex. discriminate.
Defined.

(** ** Register tokens carry an index in 0..9 *)

Lemma all_digits_app (a b : string) :
  all_digits a = true -> all_digits b = true -> all_digits (a ++ b) = true.
Proof.
  induction a as [|c a IH]; cbn; [auto |].
  intros H Hb. apply andb_prop in H as [-> Ha]. now apply IH.
Qed.

Lemma Integer_loop_all_digits (n : nat) :
  forall (acc : string) (lex : lexer.Lexer),
    all_digits acc = true ->
    all_digits (snd (lexer.Integer_loop n acc lex)) = true.
Proof.
  induction n as [|n IH]; intros acc lex Hacc; cbn [lexer.Integer_loop].
  - exact Hacc.
  - destruct (negb _ && unicode.IsDigit (lexer.CurrentChar lex)) eqn:E;
      [| exact Hacc].
    apply andb_prop in E as [_ Hd]. apply IH, all_digits_app; [exact Hacc |].
    destruct (digit_facts _ Hd) as (_ & _ & _ & -> & _). cbn. now rewrite Hd.
Qed.

Lemma Integer_nonneg (lex lex' : lexer.Lexer) (v : Z) :
  lexer.Integer lex = (lex', Ok v) -> 0 <= v.
Proof.
  unfold lexer.Integer. destruct (negb _ && negb _); [discriminate |].
  pose proof (Integer_loop_all_digits (lexer.remaining lex) "" lex eq_refl) as Hd.
  destruct (lexer.Integer_loop _ _ _) as [lex1 s]. cbn [snd] in Hd.
  destruct s as [|c s]; [discriminate |].
  rewrite (ParseInt_digits c s Hd).
  pose proof (decimal_ge _ 0 Hd ltac:(lia)) as Hge.
  destruct (Z.leb_spec (decimal 0 (String c s)) MaxInt32); [| discriminate].
  rewrite Z.gtb_ltb.
  destruct (Z.ltb_spec MaxInt32 (decimal 0 (String c s))); [discriminate |].
  destruct (Z.ltb_spec (decimal 0 (String c s)) MinInt32); [discriminate |].
  intros [= _ <-]. rewrite int32_small; [exact Hge|].
  unfold in_int32, MinInt32, MaxInt32 in *. cbn [decimal] in *. lia.
Qed.

Lemma RegisterIndex_range (lex lex' : lexer.Lexer) (v : Z) :
  lexer.RegisterIndex lex = (lex', Ok v) -> 0 <= v <= 9.
Proof.
  unfold lexer.RegisterIndex. destruct (negb _); [discriminate |].
  destruct (unicode.IsSpace _); [discriminate |].
  unfold bind.
  destruct (lexer.Integer _) as [lex1 [i|e|g]] eqn:E; try discriminate.
  apply Integer_nonneg in E. rewrite Z.gtb_ltb.
  destruct (Z.ltb_spec 9 i); [discriminate |].
  intros [= _ <-]. lia.
Qed.

Ltac other_token :=
  repeat match goal with
         | |- context [if ?b then _ else _] => destruct b
         end;
  intros [= _ <-]; intros [=].

Lemma GetNextToken_switch_REG (lex lex' : lexer.Lexer) (tok : token.Token) :
  lexer.GetNextToken_switch lex = (lex', Ok tok) -> REG_in_range tok.
Proof.
  unfold lexer.GetNextToken_switch, REG_in_range. cbv zeta.
  destruct (_ =? _).
  { unfold bind.
    destruct (lexer.RegisterIndex lex) as [lex1 [v|e|g]] eqn:E;
      try discriminate.
    intros [= _ <-] _. cbn. eapply RegisterIndex_range, E. }
  destruct (unicode.IsDigit _).
  { unfold bind. destruct (lexer.Integer lex) as [lex1 [v|e|g]];
      try discriminate. intros [= _ <-]; intros [=]. }
  destruct (Ascii.eqb _ ","); [intros [= _ <-]; intros [=] |].
  destruct (Ascii.eqb _ "$").
  { unfold bind. destruct (lexer.Shape lex) as [lex1 [v|e|g]];
      try discriminate. unfold ret, fail. other_token. }
  destruct (unicode.IsLower _); [discriminate |].
  destruct (_ || _); [discriminate |].
  destruct (unicode.IsUpper _); [| discriminate].
  unfold bind. destruct (lexer.Command lex) as [lex1 [v|e|g]];
    try discriminate. unfold ret, fail. other_token.
Qed.

Lemma GetNextToken_REG (lex lex' : lexer.Lexer) (tok : token.Token) :
  lexer.GetNextToken lex = (lex', Ok tok) -> REG_in_range tok.
Proof.
  unfold lexer.GetNextToken. cbn [lexer.GetNextToken_loop].
  repeat match goal with
         | |- context [if ?b then _ else _] => destruct b
         end;
    try apply GetNextToken_switch_REG;
    intros [= _ <-]; intros [=].
Qed.

(** ** The parser keeps register indices in range *)

Lemma TokenType_eqb_eq (a b : token.TokenType) :
  token.TokenType_eqb a b = true -> a = b.
Proof. destruct a, b; (reflexivity || discriminate). Qed.

Lemma pull_in_range (lex : lexer.Lexer) (p : parser.Parser) (r : Outcome unit) :
  parser.pull lex = (p, r) -> lookahead_in_range p.
Proof.
  unfold parser.pull.
  destruct (lexer.GetNextToken lex) as [lex' [tok|e|g]] eqn:E;
    intros [= <- _] t [=].
  subst t. eapply GetNextToken_REG, E.
Qed.

Lemma Consume_Ok (expected : token.TokenType) (p p' : parser.Parser) (u : unit) :
  parser.Consume expected p = (p', Ok u) ->
  lookahead_in_range p'
  /\ exists tok, parser.CurrentToken p = Some tok
                 /\ token.TokenType_ tok = expected.
Proof.
  unfold parser.Consume. destruct (parser.CurrentToken p) as [tok|];
    [| discriminate].
  destruct (token.TokenType_eqb _ _) eqn:E; [| discriminate].
  cbn [negb]. intros H. split; [eapply pull_in_range, H |].
  exists tok. split; [reflexivity | apply TokenType_eqb_eq, E].
Qed.

Lemma current_Ok (p p' : parser.Parser) (tok : token.Token) :
  parser.current p = (p', Ok tok) ->
  p' = p /\ parser.CurrentToken p = Some tok.
Proof.
  unfold parser.current. destruct (parser.CurrentToken p); [| discriminate].
  intros [= <- <-]. split; reflexivity.
Qed.

Ltac step H :=
  match type of H with
  | bind ?m ?k ?s = (_, Ok _) =>
      let E := fresh "E" in
      unfold bind at 1 in H;
      destruct (m s) as [? [?|?|?]] eqn:E;
      [ | discriminate H | discriminate H ]
  | ret _ _ = _ => unfold ret in H; injection H as <- <-
  | fail _ _ = _ => discriminate H
  end.

Lemma Instruction_switch_in_range
  (p p' : parser.Parser) (instr : instructions.Instruction) :
  lookahead_in_range p ->
  parser.Instruction_switch p = (p', Ok instr) ->
  register_arguments_in_range instr.
Proof.
  intros Hp H. unfold parser.Instruction_switch in H.
  step H. destruct (token.TokenType_ a) eqn:Ht; repeat step H.
  all: repeat match goal with
         | E : parser.current _ = (_, Ok _) |- _ =>
             apply current_Ok in E as [-> E]
         | E : parser.Consume _ _ = (_, Ok _) |- _ =>
             apply Consume_Ok in E as [? (? & ? & ?)]
         end.
  all: repeat match goal with
         | E1 : parser.CurrentToken ?q = Some ?a,
           E2 : parser.CurrentToken ?q = Some ?x |- _ =>
             rewrite E1 in E2; injection E2 as <-
         end.
  all: repeat match goal with
         | Hq : lookahead_in_range ?q, E : parser.CurrentToken ?q = Some ?a,
           Ht : token.TokenType_ ?a = token.REG |- _ =>
             pose proof (Hq a E Ht); clear Ht
         end.
  all: unfold register_arguments_in_range; cbv zeta;
    cbn [instructions.GetOpCode instructions.GetArg1 instructions.GetArg2
         instructions.NewBinaryInstruction instructions.NewUnaryInstruction
         instructions.NewNullaryInstruction];
    split; intros [Hop|Hop]; vm_compute in Hop; try discriminate Hop;
    rewrite ?int32_small by (unfold in_int32, MinInt32, MaxInt32; lia);
    repeat split; lia.
Qed.

Lemma parsed_in_range (instr : instructions.Instruction) :
  parsed instr -> register_arguments_in_range instr.
Proof.
  intros (input & p & p' & Hnew & Hinstr).
  unfold parser.New in Hnew. apply pull_in_range in Hnew.
  unfold parser.Instruction in Hinstr.
  destruct (parser.Instruction_switch p) as [p1 [i|e|g]] eqn:E;
    try discriminate.
  injection Hinstr as _ <-. eapply Instruction_switch_in_range; eauto.
Qed.

(** ** The interpreter on parsed code never meets an invalid register *)

Section FailsWith.

Context {S : Type} (P : error -> Prop).

Lemma fails_with_ret {A : Type} (a : A) : fails_with P (@ret S A a).
Proof. intros s s' e [=]. Qed.

Lemma fails_with_panic {A : Type} (g : GoPanic) : fails_with P (@panic S A g).
Proof. intros s s' e [=]. Qed.

Lemma fails_with_fail {A : Type} (e : error) : P e -> fails_with P (@fail S A e).
Proof. intros He s s' e' [= _ <-]. exact He. Qed.

Lemma fails_with_get : fails_with P (@get S).
Proof. intros s s' e [=]. Qed.

Lemma fails_with_modify (f : S -> S) : fails_with P (modify f).
Proof. intros s s' e [=]. Qed.

Lemma fails_with_discard {A : Type} (zero : A) (m : M S A) :
  fails_with P (discard zero m).
Proof.
  intros s s' e. unfold discard. destruct (m s) as [s1 [a|e1|g]]; intros [=].
Qed.

Lemma fails_with_bind {A B : Type} (m : M S A) (k : A -> M S B) :
  fails_with P m -> (forall a, fails_with P (k a)) -> fails_with P (bind m k).
Proof.
  intros Hm Hk s s' e. unfold bind.
  destruct (m s) as [s1 [a|e1|g]] eqn:E; intros H.
  - eapply Hk, H.
  - injection H as _ <-. eapply Hm, E.
  - discriminate.
Qed.

End FailsWith.

Lemma ReadFrom_in_range (register : Z) :
  register <= 9 ->
  fails_with not_InvalidRegisterError (interpreter.ReadFrom register).
Proof.
  intros H s s' e. unfold interpreter.ReadFrom. rewrite Z.gtb_ltb.
  destruct (Z.ltb_spec 9 register); [lia |].
  destruct (index _ _); intros [=].
Qed.

Lemma WriteTo_in_range (register value : Z) :
  register <= 9 ->
  fails_with not_InvalidRegisterError (interpreter.WriteTo register value).
Proof.
  intros H s s' e. unfold interpreter.WriteTo. rewrite Z.gtb_ltb.
  destruct (register =? 0); [intros [= _ <-] r; discriminate |].
  destruct (Z.ltb_spec 9 register); [lia |].
  destruct (index _ _); intros [=].
Qed.

Create HintDb fails discriminated.
#[local] Hint Resolve ReadFrom_in_range WriteTo_in_range : fails.
#[local] Hint Extern 1 (fails_with _ (ret _)) => apply fails_with_ret : fails.
#[local] Hint Extern 1 (fails_with _ (panic _)) => apply fails_with_panic : fails.
#[local] Hint Extern 1 (fails_with _ get) => apply fails_with_get : fails.
#[local] Hint Extern 1 (fails_with _ (modify _)) => apply fails_with_modify : fails.
#[local] Hint Extern 1 (fails_with _ (interpreter.print _)) =>
  apply fails_with_modify : fails.
#[local] Hint Extern 1 (fails_with _ (discard _ _)) => apply fails_with_discard : fails.
#[local] Hint Extern 1 (fails_with _ (fail _)) =>
  apply fails_with_fail; intros ?; discriminate : fails.
#[local] Hint Extern 1 (fails_with _ (bind _ _)) =>
  apply fails_with_bind; [| intros ?] : fails.
#[local] Hint Extern 1 (fails_with _ (if ?b then _ else _)) => destruct b : fails.

Ltac fails_solve := auto 20 with fails.

Lemma PrintRegisters_from_in_range (count : nat) (i : Z) :
  0 <= i -> i + Z.of_nat count <= 10 ->
  fails_with not_InvalidRegisterError (interpreter.PrintRegisters_from i count).
Proof.
  revert i. induction count as [|count IH]; intros i Hi Hc;
    cbn [interpreter.PrintRegisters_from]; [fails_solve |].
  cbv zeta. apply fails_with_bind.
  - apply ReadFrom_in_range. rewrite int32_small;
      unfold in_int32, MinInt32, MaxInt32; lia.
  - intros v. apply fails_with_bind; [fails_solve |].
    intros _. apply IH; lia.
Qed.

Lemma DecodeAndDispatch_in_range (instr : option instructions.Instruction) :
  (forall i, instr = Some i -> register_arguments_in_range i) ->
  fails_with not_InvalidRegisterError (interpreter.DecodeAndDispatch instr).
Proof.
  intros H. unfold interpreter.DecodeAndDispatch.
  destruct instr as [i|]; [| fails_solve].
  destruct (H i eq_refl) as [H1 H2]. cbv zeta in *.
  destruct (Z.eqb_spec (instructions.GetOpCode i) interpreter.OPCODE_LDI).
  { unfold interpreter.LoadImmediate. apply WriteTo_in_range. apply H1. auto. }
  destruct (Z.eqb_spec (instructions.GetOpCode i) interpreter.OPCODE_JUMP).
  { unfold interpreter.JumpTo, interpreter.CheckJump. fails_solve. }
  destruct (Z.eqb_spec (instructions.GetOpCode i) interpreter.OPCODE_ADD).
  { destruct H2 as [A B]; [auto |]. unfold interpreter.Add.
    apply fails_with_bind; [apply ReadFrom_in_range; lia | intros v1].
    apply fails_with_bind; [apply ReadFrom_in_range; lia | intros v2].
    fails_solve. }
  destruct (Z.eqb_spec (instructions.GetOpCode i) interpreter.OPCODE_ADDV).
  { destruct H2 as [A B]; [auto |]. unfold interpreter.AddV.
    apply fails_with_bind; [apply ReadFrom_in_range; lia | intros v1].
    apply fails_with_bind; [apply ReadFrom_in_range; lia | intros v2].
    fails_solve. }
  destruct (Z.eqb_spec (instructions.GetOpCode i) interpreter.OPCODE_DRAW).
  { unfold interpreter.Draw. fails_solve. }
  destruct (Z.eqb_spec (instructions.GetOpCode i) interpreter.OPCODE_BLINK).
  { unfold interpreter.Blink. fails_solve. }
  destruct (Z.eqb_spec (instructions.GetOpCode i) interpreter.OPCODE_STDOUT).
  { unfold interpreter.PrintToStdOut.
    apply fails_with_bind; [apply ReadFrom_in_range; apply H1; auto |].
    intros v. fails_solve. }
  destruct (Z.eqb_spec (instructions.GetOpCode i) interpreter.OPCODE_PRINTR).
  { apply PrintRegisters_from_in_range; lia. }
  fails_solve.
Qed.

Lemma Interpret_body_in_range (interp : interpreter.Interpreter) :
  (forall i instr,
      interpreter.Code interp !! i = Some (Some instr) ->
      register_arguments_in_range instr) ->
  forall interp' e,
    interpreter.Interpret_body interp = (interp', Fail e) ->
    not_InvalidRegisterError e.
Proof.
  intros Hcode interp' e. unfold interpreter.Interpret_body, bind at 1, get.
  destruct (index _ _) as [instr|] eqn:Ei; [| discriminate].
  apply index_Some in Ei as [_ Ei].
  apply (fails_with_bind not_InvalidRegisterError).
  - apply DecodeAndDispatch_in_range. intros i ->. eapply Hcode, Ei.
  - intros _. apply fails_with_modify.
Qed.

Lemma Interpret_loop_in_range (fuel : nat) (lastAddr : Z) :
  forall interp interp' e,
    (forall i instr,
        interpreter.Code interp !! i = Some (Some instr) ->
        register_arguments_in_range instr) ->
    interpreter.Interpret_loop fuel lastAddr interp = Some (interp', Fail e) ->
    not_InvalidRegisterError e.
Proof.
  induction fuel as [|fuel IH]; intros interp interp' e Hcode;
    cbn [interpreter.Interpret_loop];
    destruct (_ <? _); try discriminate.
  destruct (interpreter.Interpret_body interp) as [i1 [[]|e1|g]] eqn:E.
  - apply IH. pose proof (Interpret_body_bound_kept _ _ _ E) as [-> _].
    exact Hcode.
  - intros [= _ <-]. eapply Interpret_body_in_range; eauto.
  - discriminate.
Qed.



(** * Further properties of the lexer *)

Lemma string_snoc_cases (a : string) :
  a = "" \/ exists a' d, a = a' ++ String d "".
Proof.
  induction a as [|c a IH]; [left; reflexivity | right].
  destruct IH as [-> | (a' & d & ->)].
  - exists "", c. reflexivity.
  - exists (String c a'), d. reflexivity.
Qed.

Lemma last_byte_snoc (a : string) (d : ascii) :
  last_byte (a ++ String d "") = d.
Proof.
  induction a as [|c a IH]; [reflexivity |].
  cbn [append last_byte]. destruct (a ++ String d "") eqn:E; [| exact IH].
  destruct a; discriminate.
Qed.

Lemma Delimiter_last (a b : string) :
  lexer.Delimiter (lexer_at a b) = is_delimiter (last_byte a).
Proof.
  destruct (string_snoc_cases a) as [-> | (a' & d & ->)].
  - reflexivity.
  - now rewrite Delimiter_at, last_byte_snoc.
Qed.

Lemma Register_last (a b : string) :
  lexer.Register (lexer_at a b) = is_marker (last_byte a).
Proof.
  destruct (string_snoc_cases a) as [-> | (a' & d & ->)].
  - reflexivity.
  - now rewrite Register_at, last_byte_snoc.
Qed.

Lemma space_not_nul (c : ascii) :
  unicode.IsSpace c = true -> lexer.is_nul c = false.
Proof. by_byte c. Qed.

Lemma GetNextToken_IgnoreWhiteSpace (lex : lexer.Lexer) :
  lexer.GetNextToken (lexer.IgnoreWhiteSpace lex) = lexer.GetNextToken lex.
Proof.
  destruct (negb (lexer.is_nul (lexer.CurrentChar lex))
            && unicode.IsSpace (lexer.CurrentChar lex)) eqn:E.
  - apply andb_prop in E as [En Es].
    rewrite (GetNextToken_unfold lex), En, Es. reflexivity.
  - rewrite (IgnoreWhiteSpace_unfold lex), E. reflexivity.
Qed.

Lemma IgnoreWhiteSpace_skip (ws : string) :
  forall a rest,
    all_space ws = true ->
    lexer.IgnoreWhiteSpace (lexer_at a (ws ++ rest))
    = lexer.IgnoreWhiteSpace (lexer_at (a ++ ws) rest).
Proof.
  induction ws as [|c ws IH]; intros a rest H.
  - cbn [append]. now rewrite append_nil_r.
  - cbn [all_space] in H. apply andb_prop in H as [Hc Hws].
    cbn [append]. rewrite IgnoreWhiteSpace_unfold.
    cbn [lexer_at lexer.CurrentChar peek].
    rewrite (space_not_nul c Hc), Hc. cbn [negb andb].
    fold (lexer_at a (String c (ws ++ rest))).
    rewrite GetNextChar_at, IH by assumption.
    now rewrite append_snoc.
Qed.

(** X1: white space before a token is skipped, whatever its length and
    whichever of the eight Latin-1 space bytes it is made of; when nothing
    is left after it (or a 0 byte comes next) the token is EOF and the
    lexer stays where it is. *)
Theorem whitespace_skipped (a ws rest : string) :
  all_space ws = true ->
  lexer.GetNextToken (lexer_at a (ws ++ rest))
  = lexer.GetNextToken (lexer_at (a ++ ws) rest)
  /\ (lexer.is_nul (peek rest) = true ->
      lexer.GetNextToken (lexer_at a (ws ++ rest))
      = (lexer_at (a ++ ws) rest, Ok (token.New token.EOF 0))).
Proof.
  intros H.
  assert (E : lexer.GetNextToken (lexer_at a (ws ++ rest))
              = lexer.GetNextToken (lexer_at (a ++ ws) rest)).
  { rewrite <- (GetNextToken_IgnoreWhiteSpace (lexer_at a (ws ++ rest))).
    rewrite IgnoreWhiteSpace_skip by assumption.
    apply GetNextToken_IgnoreWhiteSpace. }
  split; [exact E |].
  intros Hn. rewrite E, GetNextToken_unfold.
  cbn [lexer_at lexer.CurrentChar]. now rewrite Hn.
Qed.

Lemma whitespace_skipped_witness :
  lexer.GetNextToken (lexer_at "ADD" ((String "009" "  ") ++ ""))
  = (lexer_at ("ADD" ++ String "009" "  ") "", Ok (token.New token.EOF 0)).
Proof.
  apply (whitespace_skipped "ADD" (String "009" "  ") "" eq_refl). reflexivity.
Defined.

Lemma Integer_digits (a digits rest : string) :
  is_marker (last_byte a) || is_delimiter (last_byte a) = true ->
  all_digits digits = true ->
  unicode.IsDigit (peek rest) = false ->
  lexer.Integer (lexer_at a (digits ++ rest))
  = (lexer_at (a ++ digits) rest,
     match digits with
     | EmptyString => Fail (IntConversion ErrSyntax)
     | _ => if decimal 0 digits <=? MaxInt32
            then Ok (decimal 0 digits)
            else Fail (IntConversion ErrRange)
     end).
Proof.
  intros Hd Hc Hr. destruct digits as [|c ds].
  - unfold lexer.Integer.
    rewrite Register_last, Delimiter_last, <- negb_orb, Hd. cbn [negb].
    rewrite (Integer_loop_at "" a "" rest eq_refl Hr). reflexivity.
  - destruct (string_snoc_cases a) as [-> | (a' & d & ->)];
      [discriminate |].
    rewrite last_byte_snoc in Hd. now apply Integer_at.
Qed.

Lemma Integer_no_delimiter (a b : string) :
  is_marker (last_byte a) || is_delimiter (last_byte a) = false ->
  lexer.Integer (lexer_at a b) = (lexer_at a b, Fail IntMissingDelimiter).
Proof.
  intros H. unfold lexer.Integer.
  now rewrite Register_last, Delimiter_last, <- negb_orb, H.
Qed.

(** [GetNextToken] on a digit goes to [Integer]. *)
Lemma GetNextToken_on_digit (a : string) (c : ascii) (tail : string) :
  unicode.IsDigit c = true ->
  lexer.GetNextToken (lexer_at a (String c tail))
  = (integer <- lexer.Integer ;; ret (token.New token.INT integer))
      (lexer_at a (String c tail)).
Proof.
  intros Hc. rewrite GetNextToken_unfold.
  cbn [lexer_at lexer.CurrentChar peek].
  pose proof (digit_facts c Hc) as (Hn & Hs & Hl & _).
  rewrite Hn, Hs. cbn [negb]. unfold lexer.GetNextToken_switch.
  cbn [lexer_at lexer.CurrentChar peek]. now rewrite Hl, Hc.
Qed.

(** [GetNextToken] on a register marker goes to [RegisterIndex]. *)
Lemma GetNextToken_on_marker (a : string) (r : ascii) (tail : string) :
  is_marker r = true ->
  lexer.GetNextToken (lexer_at a (String r tail))
  = (regIndex <- lexer.RegisterIndex ;; ret (token.New token.REG regIndex))
      (lexer_at a (String r tail)).
Proof.
  intros Hr. rewrite GetNextToken_unfold.
  cbn [lexer_at lexer.CurrentChar peek].
  pose proof (marker_facts r Hr) as (Hn & Hs & Hl).
  rewrite Hn, Hs. cbn [negb]. unfold lexer.GetNextToken_switch.
  cbn [lexer_at lexer.CurrentChar peek]. now rewrite Hl.
Qed.

Lemma RegisterIndex_digits (a : string) (r : ascii) (digits rest : string) :
  is_marker r = true ->
  is_delimiter (last_byte a) = true ->
  all_digits digits = true ->
  unicode.IsDigit (peek rest) = false ->
  lexer.RegisterIndex (lexer_at a (String r (digits ++ rest)))
  = match digits with
    | EmptyString =>
        (lexer_at (a ++ String r "") rest,
         if unicode.IsSpace (peek rest) then Fail MissingRegisterIndex
         else Fail (IntConversion ErrSyntax))
    | _ =>
        (lexer_at ((a ++ String r "") ++ digits) rest,
         if decimal 0 digits <=? 9 then Ok (decimal 0 digits)
         else if decimal 0 digits <=? MaxInt32 then Fail RegisterIndexRange
         else Fail (IntConversion ErrRange))
    end.
Proof.
  intros Hr Hd Hc Hrest. unfold lexer.RegisterIndex.
  rewrite Delimiter_last, Hd. cbn [negb]. rewrite GetNextChar_at.
  cbn [lexer_at lexer.CurrentChar].
  fold (lexer_at (a ++ String r "") (digits ++ rest)).
  assert (Hm : is_marker (last_byte (a ++ String r ""))
               || is_delimiter (last_byte (a ++ String r "")) = true)
    by now rewrite last_byte_snoc, Hr.
  destruct digits as [|c ds].
  - cbn [append]. destruct (unicode.IsSpace (peek rest)); [reflexivity |].
    unfold bind.
    pose proof (Integer_digits (a ++ String r "") "" rest Hm eq_refl Hrest)
      as HI.
    cbn [append] in HI. rewrite HI. now rewrite append_nil_r.
  - pose proof Hc as Hc'. cbn [all_digits] in Hc'.
    apply andb_prop in Hc' as [Hc' _].
    pose proof (digit_facts c Hc') as (_ & Hs & _).
    cbn [append peek]. rewrite Hs. unfold bind.
    change (String c (ds ++ rest)) with (String c ds ++ rest).
    rewrite (Integer_digits _ _ _ Hm Hc Hrest).
    pose proof (decimal_ge _ 0 Hc ltac:(lia)) as Hge.
    unfold MaxInt32.
    destruct (Z.leb_spec (decimal 0 (String c ds)) 2147483647);
      destruct (Z.leb_spec (decimal 0 (String c ds)) 9);
      try lia; try reflexivity.
    + rewrite Z.gtb_ltb.
      destruct (Z.ltb_spec 9 (decimal 0 (String c ds))); [lia | reflexivity].
    + rewrite Z.gtb_ltb.
      destruct (Z.ltb_spec 9 (decimal 0 (String c ds))); [reflexivity | lia].
Qed.

(** X2: a run of digits is lexed as an integer exactly when the byte
    before it is a space, a comma or a register marker [r]/[R]; at the
    start of the line or after any other byte lexing fails with the
    missing-delimiter error and the lexer does not move. *)
Theorem integer_delimiter_rule (a : string) (c : ascii) (ds rest : string) :
  all_digits (String c ds) = true ->
  unicode.IsDigit (peek rest) = false ->
  decimal 0 (String c ds) <= MaxInt32 ->
  let lex := lexer_at a (String c ds ++ rest) in
  (is_marker (last_byte a) || is_delimiter (last_byte a) = true ->
   lexer.GetNextToken lex
   = (lexer_at (a ++ String c ds) rest,
      Ok (token.New token.INT (decimal 0 (String c ds)))))
  /\ (is_marker (last_byte a) || is_delimiter (last_byte a) = false ->
      lexer.GetNextToken lex = (lex, Fail IntMissingDelimiter)).
Proof.
  intros Hc Hr Hv lex. subst lex.
  pose proof Hc as Hc'. cbn [all_digits] in Hc'.
  apply andb_prop in Hc' as [Hc' _].
  cbn [append]. rewrite (GetNextToken_on_digit a c (ds ++ rest) Hc').
  unfold bind.
  change (String c (ds ++ rest)) with (String c ds ++ rest).
  split; intros Hd.
  - rewrite (Integer_digits _ _ _ Hd Hc Hr).
    destruct (Z.leb_spec (decimal 0 (String c ds)) MaxInt32);
      [reflexivity | lia].
  - now rewrite Integer_no_delimiter.
Qed.

Lemma integer_delimiter_rule_witness :
  lexer.GetNextToken (lexer_at "PRINTR" ("5" ++ ""))
  = (lexer_at ("PRINTR" ++ "5") "", Ok (token.New token.INT 5))
  /\ lexer.GetNextToken (lexer_at "JUMP" ("4" ++ ""))
     = (lexer_at "JUMP" ("4" ++ ""), Fail IntMissingDelimiter).
Proof.
  split.
  - apply (integer_delimiter_rule "PRINTR" "5" "" "" eq_refl eq_refl);
      [vm_compute; discriminate | reflexivity].
  - apply (integer_delimiter_rule "JUMP" "4" "" "" eq_refl eq_refl);
      [vm_compute; discriminate | reflexivity].
Defined.

(** X3: after a delimiter, a register marker takes the whole run of digits
    that follows as its index: the token is REG with the decimal value of
    the run when that is at most 9 (leading zeros are accepted), the
    register-range error for a larger value that fits 32 bits, and the
    conversion range error beyond; with no digit after the marker the
    error is missing-index before white space and the conversion syntax
    error otherwise. *)
Theorem register_index_rule
  (a : string) (r : ascii) (digits rest : string) :
  is_marker r = true ->
  is_delimiter (last_byte a) = true ->
  all_digits digits = true ->
  unicode.IsDigit (peek rest) = false ->
  lexer.GetNextToken (lexer_at a (String r (digits ++ rest)))
  = match digits with
    | EmptyString =>
        (lexer_at (a ++ String r "") rest,
         if unicode.IsSpace (peek rest) then Fail MissingRegisterIndex
         else Fail (IntConversion ErrSyntax))
    | _ =>
        (lexer_at ((a ++ String r "") ++ digits) rest,
         if decimal 0 digits <=? 9
         then Ok (token.New token.REG (decimal 0 digits))
         else if decimal 0 digits <=? MaxInt32 then Fail RegisterIndexRange
         else Fail (IntConversion ErrRange))
    end.
Proof.
  intros Hr Hd Hc Hrest.
  rewrite (GetNextToken_on_marker a r (digits ++ rest) Hr). unfold bind.
  rewrite (RegisterIndex_digits a r digits rest Hr Hd Hc Hrest).
  destruct digits as [|c ds].
  - destruct (unicode.IsSpace (peek rest)); reflexivity.
  - destruct (_ <=? 9); [reflexivity |]. destruct (_ <=? MaxInt32); reflexivity.
Qed.

Lemma register_index_rule_witness :
  lexer.GetNextToken (lexer_at "ADD " (String "R" ("007" ++ ",r1")))
  = (lexer_at (("ADD " ++ String "R" "") ++ "007") ",r1",
     Ok (token.New token.REG 7)).
Proof.
  exact (register_index_rule "ADD " "R" "007" ",r1"
           eq_refl eq_refl eq_refl eq_refl).
Defined.

Lemma upper_facts (c : ascii) :
  unicode.between 65 90 (unicode.rune c) = true ->
  lexer.is_nul c = false /\ unicode.IsSpace c = false
  /\ unicode.IsDigit c = false /\ unicode.IsUpper c = true
  /\ unicode.IsLower c = false
  /\ unicode.IsPunct c || unicode.IsSymbol c = false
  /\ Ascii.eqb c "," = false /\ Ascii.eqb c "$" = false
  /\ unicode.utf8 c = String c ""
  /\ (unicode.ToLower c =? unicode.rune "r") = is_marker c.
Proof. by_byte c. Qed.

Lemma lower_facts (c : ascii) :
  unicode.between 97 122 (unicode.rune c) = true ->
  lexer.is_nul c = false /\ unicode.IsLower c = true
  /\ unicode.utf8 c = String c "".
Proof. by_byte c. Qed.

Lemma Command_loop_at (w : string) :
  forall (a acc rest : string),
    all_upper w = true ->
    unicode.IsUpper (peek rest) = false ->
    (String.length acc + String.length w <= 11)%nat ->
    lexer.Command_loop (lexer.remaining (lexer_at a (w ++ rest))) acc
      (lexer_at a (w ++ rest))
    = (lexer_at (a ++ w) rest, Ok (acc ++ w)).
Proof.
  induction w as [|c w IH]; intros a acc rest Hw Hr Hlen.
  - cbn [append]. rewrite Command_loop_unfold.
    cbn [lexer_at lexer.CurrentChar].
    rewrite Hr, andb_false_r, !append_nil_r. reflexivity.
  - cbn [append]. rewrite Command_loop_unfold.
    cbn [lexer_at lexer.CurrentChar peek].
    fold (lexer_at a (String c (w ++ rest))).
    cbn [all_upper] in Hw. apply andb_prop in Hw as [Hc Hw].
    pose proof (upper_facts c Hc) as (Hn & _ & _ & Hu & _ & _ & _ & _ & Hutf & _).
    rewrite Hn, Hu, Hutf. cbn [negb andb].
    unfold lexer.len. rewrite Z.gtb_ltb.
    cbn [String.length] in Hlen.
    destruct (Z.ltb_spec 10 (Z.of_nat (String.length acc))); [lia |].
    rewrite GetNextChar_at, IH; try assumption.
    + now rewrite !append_snoc.
    + rewrite length_append. cbn [String.length]. lia.
Qed.

(** [GetNextToken] on an ASCII capital other than [R] goes to [Command]. *)
Lemma GetNextToken_on_capital (a : string) (c : ascii) (tail : string) :
  unicode.between 65 90 (unicode.rune c) = true ->
  is_marker c = false ->
  lexer.GetNextToken (lexer_at a (String c tail))
  = (command <- lexer.Command ;;
     match mnemonic command with
     | Some t => ret (token.New t 0)
     | None => fail (UnknownCommand command)
     end) (lexer_at a (String c tail)).
Proof.
  intros Hc Hm. rewrite GetNextToken_unfold.
  cbn [lexer_at lexer.CurrentChar peek].
  pose proof (upper_facts c Hc)
    as (Hn & Hs & Hd & Hu & Hl & Hp & Hcomma & Hdollar & _ & Hr).
  rewrite Hn, Hs. cbn [negb]. unfold lexer.GetNextToken_switch.
  cbn [lexer_at lexer.CurrentChar peek].
  rewrite Hr, Hm, Hd, Hcomma, Hdollar, Hl, Hp, Hu.
  unfold bind. destruct (lexer.Command _) as [lex' [command|e|g]];
    try reflexivity.
  unfold mnemonic.
  repeat match goal with
         | |- context [String.eqb command ?s] =>
             destruct (String.eqb command s); [reflexivity |]
         end.
  reflexivity.
Qed.

Lemma IsUpper_facts (c : ascii) :
  unicode.IsUpper c = true ->
  lexer.is_nul c = false /\ unicode.IsSpace c = false
  /\ unicode.IsDigit c = false
  /\ unicode.IsLower c = false
  /\ unicode.IsPunct c || unicode.IsSymbol c = false
  /\ Ascii.eqb c "," = false /\ Ascii.eqb c "$" = false
  /\ (unicode.ToLower c =? unicode.rune "r") = is_marker c.
Proof. by_byte c. Qed.

Lemma IsLower_facts (c : ascii) :
  unicode.IsLower c = true -> lexer.is_nul c = false.
Proof. by_byte c. Qed.

Lemma but_last_cons (c d : ascii) (s : string) :
  but_last (String c (String d s)) = String c (but_last (String d s)).
Proof. reflexivity. Qed.

Lemma all_upper_written (s : string) :
  all_upper s = true ->
  all_IsUpper s = true /\ written s = s
  /\ written (but_last s) = but_last s.
Proof.
  induction s as [|c s IH]; [now repeat split |].
  cbn [all_upper]. intros H. apply andb_prop in H as [Hc Hs].
  destruct (IH Hs) as (IH1 & IH2 & IH3).
  pose proof (upper_facts c Hc) as (_ & _ & _ & Hu & _ & _ & _ & _ & Hutf & _).
  cbn [all_IsUpper written]. rewrite Hu, IH1, IH2, Hutf.
  split; [reflexivity |]. split; [reflexivity |].
  destruct s as [|d s]; [reflexivity |].
  rewrite but_last_cons. cbn [written]. now rewrite Hutf, IH3.
Qed.

Lemma all_lower_written (s : string) :
  all_lower s = true ->
  all_IsLower s = true /\ written s = s
  /\ written (but_last s) = but_last s.
Proof.
  induction s as [|c s IH]; [now repeat split |].
  cbn [all_lower]. intros H. apply andb_prop in H as [Hc Hs].
  destruct (IH Hs) as (IH1 & IH2 & IH3).
  pose proof (lower_facts c Hc) as (_ & Hl & Hutf).
  cbn [all_IsLower written]. rewrite Hl, IH1, IH2, Hutf.
  split; [reflexivity |]. split; [reflexivity |].
  destruct s as [|d s]; [reflexivity |].
  rewrite but_last_cons. cbn [written]. now rewrite Hutf, IH3.
Qed.

Lemma length_but_last (c : ascii) (s : string) :
  String.length (but_last (String c s)) = String.length s.
Proof.
  revert c. induction s as [|d s IH]; intros c; [reflexivity |].
  rewrite but_last_cons. cbn [String.length]. now rewrite IH.
Qed.

(** The loop of [Command] on a run of upper-case letters: the test on the
    builder is passed before every letter when it is passed before the
    last one. *)
Lemma Command_loop_written (w : string) :
  forall (a acc rest : string),
    all_IsUpper w = true ->
    unicode.IsUpper (peek rest) = false ->
    w = "" \/
    (String.length acc + String.length (written (but_last w)) <= 10)%nat ->
    lexer.Command_loop (lexer.remaining (lexer_at a (w ++ rest))) acc
      (lexer_at a (w ++ rest))
    = (lexer_at (a ++ w) rest, Ok (acc ++ written w)).
Proof.
  induction w as [|c w IH]; intros a acc rest Hw Hr Hlen.
  - cbn [append written]. rewrite Command_loop_unfold.
    cbn [lexer_at lexer.CurrentChar].
    rewrite Hr, andb_false_r, !append_nil_r. reflexivity.
  - destruct Hlen as [[=] | Hlen].
    cbn [append]. rewrite Command_loop_unfold.
    cbn [lexer_at lexer.CurrentChar peek].
    fold (lexer_at a (String c (w ++ rest))).
    cbn [all_IsUpper] in Hw. apply andb_prop in Hw as [Hc Hw].
    pose proof (IsUpper_facts c Hc) as (Hn & _).
    rewrite Hn, Hc. cbn [negb andb].
    unfold lexer.len. rewrite Z.gtb_ltb.
    destruct (Z.ltb_spec 10 (Z.of_nat (String.length acc))); [lia |].
    rewrite GetNextChar_at, IH; try assumption.
    + cbn [written]. now rewrite !append_snoc, append_assoc.
    + destruct w as [|d w]; [now left | right].
      rewrite but_last_cons in Hlen. cbn [written] in Hlen.
      rewrite !length_append in *. lia.
Qed.

Lemma Command_loop_overlong (w : string) :
  forall (a acc rest : string),
    all_IsUpper w = true ->
    w <> "" ->
    (11 <= String.length acc + String.length (written (but_last w)))%nat ->
    snd (lexer.Command_loop (lexer.remaining (lexer_at a (w ++ rest))) acc
           (lexer_at a (w ++ rest)))
    = Fail CommandLength.
Proof.
  induction w as [|c w IH]; intros a acc rest Hw Hne Hlen; [congruence |].
  cbn [append]. rewrite Command_loop_unfold.
  cbn [lexer_at lexer.CurrentChar peek].
  fold (lexer_at a (String c (w ++ rest))).
  cbn [all_IsUpper] in Hw. apply andb_prop in Hw as [Hc Hw].
  pose proof (IsUpper_facts c Hc) as (Hn & _).
  rewrite Hn, Hc. cbn [negb andb].
  unfold lexer.len. rewrite Z.gtb_ltb.
  destruct (Z.ltb_spec 10 (Z.of_nat (String.length acc))); [reflexivity |].
  destruct w as [|d w]; [cbn [but_last written String.length] in Hlen; lia |].
  rewrite GetNextChar_at. apply IH; [assumption | discriminate |].
  rewrite but_last_cons in Hlen. cbn [written] in Hlen.
  rewrite !length_append in *. lia.
Qed.

(** [GetNextToken] on an upper-case letter other than [R] goes to
    [Command]. *)
Lemma GetNextToken_on_upper (a : string) (c : ascii) (tail : string) :
  unicode.IsUpper c = true ->
  is_marker c = false ->
  lexer.GetNextToken (lexer_at a (String c tail))
  = (command <- lexer.Command ;;
     match mnemonic command with
     | Some t => ret (token.New t 0)
     | None => fail (UnknownCommand command)
     end) (lexer_at a (String c tail)).
Proof.
  intros Hc Hm. rewrite GetNextToken_unfold.
  cbn [lexer_at lexer.CurrentChar peek].
  pose proof (IsUpper_facts c Hc)
    as (Hn & Hs & Hd & Hl & Hp & Hcomma & Hdollar & Hr).
  rewrite Hn, Hs. cbn [negb]. unfold lexer.GetNextToken_switch.
  cbn [lexer_at lexer.CurrentChar peek].
  rewrite Hr, Hm, Hd, Hcomma, Hdollar, Hl, Hp, Hc.
  unfold bind. destruct (lexer.Command _) as [lex' [command|e|g]];
    try reflexivity.
  unfold mnemonic.
  repeat match goal with
         | |- context [String.eqb command ?s] =>
             destruct (String.eqb command s); [reflexivity |]
         end.
  reflexivity.
Qed.

(** X4: a word is a greedy run of upper-case letters, ASCII or Latin-1,
    read up to the first byte that is not one, and needs no delimiter on
    either side.  The builder receives the UTF-8 encoding of each letter,
    and its length in bytes is tested before each letter: the word passes
    when what was written before its last letter is at most 10 bytes, and
    then gives the token of its mnemonic, or the unknown-command error
    carrying what was written; otherwise it fails with the length error.
    For a word of ASCII capitals what is written is the word itself, so
    the limit is 11 letters; a letter above 127 counts for two. *)
Theorem command_word_rule (a : string) (c : ascii) (w rest : string) :
  let word := String c w in
  all_IsUpper word = true ->
  is_marker c = false ->
  unicode.IsUpper (peek rest) = false ->
  ((String.length (written (but_last word)) <= 10)%nat ->
   lexer.GetNextToken (lexer_at a (word ++ rest))
   = (lexer_at (a ++ word) rest,
      match mnemonic (written word) with
      | Some t => Ok (token.New t 0)
      | None => Fail (UnknownCommand (written word))
      end))
  /\ ((11 <= String.length (written (but_last word)))%nat ->
      snd (lexer.GetNextToken (lexer_at a (word ++ rest)))
      = Fail CommandLength)
  /\ (all_upper word = true ->
      written word = word
      /\ String.length (written (but_last word)) = String.length w).
Proof.
  intros word Hw Hm Hr.
  pose proof Hw as Hc. cbn [word all_IsUpper] in Hc.
  apply andb_prop in Hc as [Hc _].
  split; [| split]; try intros Hlen.
  - subst word. cbn [append]. rewrite (GetNextToken_on_upper a c (w ++ rest) Hc Hm).
    change (String c (w ++ rest)) with (String c w ++ rest).
    unfold bind, lexer.Command.
    rewrite (Command_loop_written _ a "" rest Hw Hr) by (right; exact Hlen).
    cbn [append]. destruct (mnemonic _); reflexivity.
  - subst word. cbn [append]. rewrite (GetNextToken_on_upper a c (w ++ rest) Hc Hm).
    change (String c (w ++ rest)) with (String c w ++ rest).
    unfold bind, lexer.Command.
    pose proof (Command_loop_overlong _ a "" rest Hw ltac:(discriminate)
                  Hlen) as H.
    destruct (lexer.Command_loop _ _ _) as [lex' [s|e|g]];
      cbn [snd] in *; try discriminate. now injection H as ->.
  - destruct (all_upper_written word Hlen) as (_ & H1 & H2).
    split; [exact H1 |]. rewrite H2. apply length_but_last.
Qed.

Lemma command_word_rule_witness :
  lexer.GetNextToken (lexer_at "" ("ADD" ++ "1"))
  = (lexer_at ("" ++ "ADD") "1", Ok (token.New token.ADD 0))
  /\ snd (lexer.GetNextToken (lexer_at "" ("ABCDEFGHIJKL" ++ "")))
     = Fail CommandLength
  /\ (let A := ascii_of_nat 192 in
      snd (lexer.GetNextToken
             (lexer_at ""
                (String A (String A (String A (String A (String A (String A
                   (String A ""))))))
                 ++ ""))))
     = Fail CommandLength.
Proof.
  split; [| split].
  - apply (command_word_rule "" "A" "DD" "1" eq_refl eq_refl eq_refl).
    vm_compute. lia.
  - apply (command_word_rule "" "A" "BCDEFGHIJKL" "" eq_refl eq_refl eq_refl).
    vm_compute. lia.
  - apply (command_word_rule "" (ascii_of_nat 192)
             (String (ascii_of_nat 192) (String (ascii_of_nat 192)
                (String (ascii_of_nat 192) (String (ascii_of_nat 192)
                   (String (ascii_of_nat 192) (String (ascii_of_nat 192) ""))))))
             "" eq_refl eq_refl eq_refl).
    vm_compute. lia.
Defined.

(** [GetNextToken] on [$] goes to [Shape]. *)
Lemma GetNextToken_on_dollar (a tail : string) :
  lexer.GetNextToken (lexer_at a (String "$" tail))
  = (shape <- lexer.Shape ;;
     match shape_id shape with
     | Some id => ret (token.New token.SHAPE id)
     | None => fail (UnknownShape shape)
     end) (lexer_at a (String "$" tail)).
Proof.
  rewrite GetNextToken_unfold. cbn [lexer_at lexer.CurrentChar peek].
  change (negb (lexer.is_nul "$")) with true.
  change (unicode.IsSpace "$") with false. cbv iota.
  unfold lexer.GetNextToken_switch. cbn [lexer_at lexer.CurrentChar peek].
  change (unicode.ToLower "$" =? unicode.rune "r") with false.
  change (unicode.IsDigit "$") with false.
  change (Ascii.eqb "$" ",") with false.
  change (Ascii.eqb "$" "$") with true. cbv iota.
  unfold bind. destruct (lexer.Shape _) as [lex' [shape|e|g]];
    try reflexivity.
  unfold shape_id.
  destruct (String.eqb shape "heart"); [reflexivity |].
  destruct (String.eqb shape "bird"); reflexivity.
Qed.

(** The loop of [Shape] on a run of lower-case letters. *)
Lemma Shape_loop_written (name : string) :
  forall (a acc rest : string),
    all_IsLower name = true ->
    unicode.IsLower (peek rest) = false ->
    name = "" \/
    (String.length acc + String.length (written (but_last name)) <= 6)%nat ->
    lexer.Shape_loop (lexer.remaining (lexer_at a (name ++ rest))) acc
      (lexer_at a (name ++ rest))
    = (lexer_at (a ++ name) rest, Ok (acc ++ written name)).
Proof.
  induction name as [|c w IH]; intros a acc rest Hw Hr Hlen.
  - cbn [append written]. rewrite Shape_loop_unfold.
    cbn [lexer_at lexer.CurrentChar].
    rewrite Hr, andb_false_r, !append_nil_r. reflexivity.
  - destruct Hlen as [[=] | Hlen].
    cbn [append]. rewrite Shape_loop_unfold.
    cbn [lexer_at lexer.CurrentChar peek].
    fold (lexer_at a (String c (w ++ rest))).
    cbn [all_IsLower] in Hw. apply andb_prop in Hw as [Hc Hw].
    rewrite (IsLower_facts c Hc), Hc. cbn [negb andb].
    unfold lexer.len. rewrite Z.gtb_ltb.
    destruct (Z.ltb_spec 6 (Z.of_nat (String.length acc))); [lia |].
    rewrite GetNextChar_at, IH; try assumption.
    + cbn [written]. now rewrite !append_snoc, append_assoc.
    + destruct w as [|d w]; [now left | right].
      rewrite but_last_cons in Hlen. cbn [written] in Hlen.
      rewrite !length_append in *. lia.
Qed.

Lemma Shape_loop_overlong (name : string) :
  forall (a acc rest : string),
    all_IsLower name = true ->
    name <> "" ->
    (7 <= String.length acc + String.length (written (but_last name)))%nat ->
    snd (lexer.Shape_loop (lexer.remaining (lexer_at a (name ++ rest))) acc
           (lexer_at a (name ++ rest)))
    = Fail ShapeLength.
Proof.
  induction name as [|c w IH]; intros a acc rest Hw Hne Hlen; [congruence |].
  cbn [append]. rewrite Shape_loop_unfold.
  cbn [lexer_at lexer.CurrentChar peek].
  fold (lexer_at a (String c (w ++ rest))).
  cbn [all_IsLower] in Hw. apply andb_prop in Hw as [Hc Hw].
  rewrite (IsLower_facts c Hc), Hc. cbn [negb andb].
  unfold lexer.len. rewrite Z.gtb_ltb.
  destruct (Z.ltb_spec 6 (Z.of_nat (String.length acc))); [reflexivity |].
  destruct w as [|d w]; [cbn [but_last written String.length] in Hlen; lia |].
  rewrite GetNextChar_at. apply IH; [assumption | discriminate |].
  rewrite but_last_cons in Hlen. cbn [written] in Hlen.
  rewrite !length_append in *. lia.
Qed.

Lemma length_written_pos (c : ascii) (s : string) :
  (0 < String.length (written (String c s)))%nat.
Proof.
  cbn [written]. rewrite length_append. unfold unicode.utf8. cbv zeta.
  destruct (_ <? _); cbn [String.length]; lia.
Qed.

(** X5: a shape is [$] followed by a greedy run of lower-case letters,
    ASCII or Latin-1.  The [$] must come after a space or a comma, else
    the shape-delimiter error, with the lexer where it was; no letter
    after it is the missing-shape error.  The builder receives the UTF-8
    encoding of each letter and its length in bytes is tested before each
    letter: the name passes when what was written before its last letter
    is at most 6 bytes, and then gives SHAPE 1 for heart, SHAPE 2 for bird
    and the unknown-shape error carrying what was written otherwise; else
    it fails with the length error.  For a name of ASCII small letters
    what is written is the name itself, so the limit is 7 letters; a
    letter above 127 counts for two. *)
Theorem shape_rule (a name rest : string) :
  all_IsLower name = true ->
  unicode.IsLower (peek rest) = false ->
  let lex := lexer_at a (String "$" (name ++ rest)) in
  (is_delimiter (last_byte a) = false ->
   lexer.GetNextToken lex = (lex, Fail ShapeMissingDelimiter))
  /\ (is_delimiter (last_byte a) = true ->
      (String.length (written (but_last name)) <= 6)%nat ->
      lexer.GetNextToken lex
      = (lexer_at ((a ++ String "$" "") ++ name) rest,
         match name with
         | EmptyString => Fail MissingShape
         | _ => match shape_id (written name) with
                | Some id => Ok (token.New token.SHAPE id)
                | None => Fail (UnknownShape (written name))
                end
         end))
  /\ (is_delimiter (last_byte a) = true ->
      (7 <= String.length (written (but_last name)))%nat ->
      snd (lexer.GetNextToken lex) = Fail ShapeLength)
  /\ (all_lower name = true ->
      written name = name
      /\ String.length (written (but_last name))
         = Nat.pred (String.length name)).
Proof.
  intros Hw Hr lex. subst lex.
  split; [| split; [| split]]; [intros Hd | intros Hd Hlen ..| intros Hlow].
  - rewrite GetNextToken_on_dollar; unfold bind at 1; unfold lexer.Shape.
    rewrite Delimiter_last, Hd. reflexivity.
  - rewrite GetNextToken_on_dollar; unfold bind at 1; unfold lexer.Shape.
    rewrite Delimiter_last, Hd. cbn [negb].
    rewrite GetNextChar_at. unfold bind.
    rewrite (Shape_loop_written _ _ "" rest Hw Hr) by (right; exact Hlen).
    cbn [append]. destruct name as [|c w]; [reflexivity |].
    unfold lexer.len.
    pose proof (length_written_pos c w) as Hpos.
    destruct (Z.eqb_spec (Z.of_nat (String.length (written (String c w)))) 0);
      [lia |].
    unfold ret. destruct (shape_id _); reflexivity.
  - rewrite GetNextToken_on_dollar; unfold bind at 1; unfold lexer.Shape.
    rewrite Delimiter_last, Hd. cbn [negb].
    rewrite GetNextChar_at. unfold bind.
    assert (Hne : name <> "")
      by (intros ->; cbn [but_last written String.length] in Hlen; lia).
    pose proof (Shape_loop_overlong _ (a ++ String "$" "") "" rest Hw Hne
                  Hlen) as H.
    destruct (lexer.Shape_loop _ _ _) as [lex' [s|e|g]];
      cbn [snd] in *; try discriminate. now injection H as ->.
  - destruct (all_lower_written name Hlow) as (_ & H1 & H2).
    split; [exact H1 |]. rewrite H2.
    destruct name as [|c w]; [reflexivity |]. apply length_but_last.
Qed.

Lemma shape_rule_witness :
  lexer.GetNextToken (lexer_at "DRAW " (String "$" ("bird" ++ "")))
  = (lexer_at (("DRAW " ++ String "$" "") ++ "bird") "",
     Ok (token.New token.SHAPE 2))
  /\ lexer.GetNextToken (lexer_at "DRAW" (String "$" ("bird" ++ "")))
     = (lexer_at "DRAW" (String "$" ("bird" ++ "")), Fail ShapeMissingDelimiter)
  /\ (let e := ascii_of_nat 233 in
      snd (lexer.GetNextToken
             (lexer_at "DRAW "
                (String "$"
                   (String e (String e (String e (String e (String e ""))))
                    ++ "")))))
     = Fail ShapeLength.
Proof.
  destruct (shape_rule "DRAW " "bird" "" eq_refl eq_refl) as (_ & H & _).
  destruct (shape_rule "DRAW" "bird" "" eq_refl eq_refl) as (H' & _).
  destruct (shape_rule "DRAW "
              (String (ascii_of_nat 233) (String (ascii_of_nat 233)
                 (String (ascii_of_nat 233) (String (ascii_of_nat 233)
                    (String (ascii_of_nat 233) "")))))
              "" eq_refl eq_refl) as (_ & _ & H'' & _).
  split; [apply H; [reflexivity | vm_compute; lia] |].
  split; [apply H'; reflexivity |].
  apply H''; [reflexivity | vm_compute; lia].
Defined.

Lemma consumes_refl (x : lexer.Lexer) : consumes x x.
Proof.
  intros a b ->. exists "", b. split; [reflexivity | now rewrite append_nil_r].
Qed.

Lemma consumes_trans (x y z : lexer.Lexer) :
  consumes x y -> consumes y z -> consumes x z.
Proof.
  intros Hxy Hyz a b Hx.
  destruct (Hxy a b Hx) as (c & b' & -> & Hy).
  destruct (Hyz _ _ Hy) as (c' & b'' & -> & Hz).
  exists (c ++ c'), b''. split; [now rewrite append_assoc |].
  now rewrite <- append_assoc.
Qed.

Lemma consumes_GetNextChar (x : lexer.Lexer) :
  lexer.is_nul (lexer.CurrentChar x) = false ->
  consumes x (lexer.GetNextChar x).
Proof.
  intros Hn a b ->. cbn [lexer_at lexer.CurrentChar] in Hn.
  destruct b as [|c b]; [discriminate |].
  exists (String c ""), b. split; [reflexivity | apply GetNextChar_at].
Qed.

Lemma consumes_IgnoreWhiteSpace_loop (n : nat) :
  forall x, consumes x (lexer.IgnoreWhiteSpace_loop n x).
Proof.
  induction n as [|n IH]; intros x; cbn [lexer.IgnoreWhiteSpace_loop];
    [apply consumes_refl |].
  destruct (lexer.is_nul (lexer.CurrentChar x)) eqn:En; cbn [negb andb];
    [apply consumes_refl |].
  destruct (unicode.IsSpace _); [| apply consumes_refl].
  eapply consumes_trans; [apply consumes_GetNextChar, En | apply IH].
Qed.

Lemma consumes_Integer_loop (n : nat) :
  forall acc x, consumes x (fst (lexer.Integer_loop n acc x)).
Proof.
  induction n as [|n IH]; intros acc x; cbn [lexer.Integer_loop];
    [apply consumes_refl |].
  destruct (lexer.is_nul (lexer.CurrentChar x)) eqn:En; cbn [negb andb];
    [apply consumes_refl |].
  destruct (unicode.IsDigit _); [| apply consumes_refl].
  eapply consumes_trans; [apply consumes_GetNextChar, En | apply IH].
Qed.

Lemma consumes_Command_loop (n : nat) :
  forall acc x, consumes x (fst (lexer.Command_loop n acc x)).
Proof.
  induction n as [|n IH]; intros acc x; cbn [lexer.Command_loop];
    [apply consumes_refl |].
  destruct (lexer.is_nul (lexer.CurrentChar x)) eqn:En; cbn [negb andb];
    [apply consumes_refl |].
  destruct (unicode.IsUpper _); [| apply consumes_refl].
  destruct (_ >? _); [apply consumes_refl |].
  eapply consumes_trans; [apply consumes_GetNextChar, En | apply IH].
Qed.

Lemma consumes_Shape_loop (n : nat) :
  forall acc x, consumes x (fst (lexer.Shape_loop n acc x)).
Proof.
  induction n as [|n IH]; intros acc x; cbn [lexer.Shape_loop];
    [apply consumes_refl |].
  destruct (lexer.is_nul (lexer.CurrentChar x)) eqn:En; cbn [negb andb];
    [apply consumes_refl |].
  destruct (unicode.IsLower _); [| apply consumes_refl].
  destruct (_ >? _); [apply consumes_refl |].
  eapply consumes_trans; [apply consumes_GetNextChar, En | apply IH].
Qed.

Lemma consumes_Integer : preserves consumes lexer.Integer.
Proof.
  intros x y r. unfold lexer.Integer.
  destruct (negb _ && negb _); [intros [= <- _]; apply consumes_refl |].
  pose proof (consumes_Integer_loop (lexer.remaining x) "" x) as H.
  destruct (lexer.Integer_loop _ _ _) as [x1 s]. cbn [fst] in H.
  destruct (strconv.ParseInt s) as [i [e|]]; [now intros [= <- _] |].
  destruct (_ >? _); [now intros [= <- _] |].
  destruct (_ <? _); now intros [= <- _].
Qed.

Ltac same_cursor := cbv beta iota; intros [= <- _]; apply consumes_refl.
Ltac at_cursor H := cbv beta iota; unfold ret, fail; intros [= <- _]; exact H.

Lemma consumes_switch (x y : lexer.Lexer) (r : Outcome token.Token) :
  lexer.is_nul (lexer.CurrentChar x) = false ->
  lexer.GetNextToken_switch x = (y, r) -> consumes x y.
Proof.
  intros Hn. unfold lexer.GetNextToken_switch. cbv zeta.
  pose proof (consumes_GetNextChar x Hn) as H1.
  destruct (_ =? _).
  { unfold lexer.RegisterIndex, bind.
    destruct (negb _); [same_cursor |].
    destruct (unicode.IsSpace _); [at_cursor H1 |].
    destruct (lexer.Integer (lexer.GetNextChar x)) as [x1 [v|e|g]] eqn:E;
      pose proof (consumes_trans _ _ _ H1 (consumes_Integer _ _ _ E)) as H2.
    - destruct (v >? 9); at_cursor H2.
    - at_cursor H2.
    - at_cursor H2. }
  destruct (unicode.IsDigit _).
  { unfold bind. destruct (lexer.Integer x) as [x1 [v|e|g]] eqn:E;
      pose proof (consumes_Integer _ _ _ E) as H2; at_cursor H2. }
  destruct (Ascii.eqb _ ","); [at_cursor H1 |].
  destruct (Ascii.eqb _ "$").
  { unfold lexer.Shape, bind.
    destruct (negb _); [same_cursor |].
    pose proof (consumes_Shape_loop
                  (lexer.remaining (lexer.GetNextChar x)) ""
                  (lexer.GetNextChar x)) as H2.
    destruct (lexer.Shape_loop _ _ _) as [x1 [s|e|g]]; cbn [fst] in H2;
      pose proof (consumes_trans _ _ _ H1 H2) as H3.
    - destruct (lexer.len s =? 0); [at_cursor H3 |]. unfold ret, fail.
      repeat match goal with
             | |- context [if ?b then _ else _] => destruct b
             end; at_cursor H3.
    - at_cursor H3.
    - at_cursor H3. }
  destruct (unicode.IsLower _); [same_cursor |].
  destruct (_ || _); [same_cursor |].
  destruct (unicode.IsUpper _); [| same_cursor].
  unfold lexer.Command, bind.
  pose proof (consumes_Command_loop (lexer.remaining x) "" x) as H.
  destruct (lexer.Command_loop _ _ _) as [x1 [s|e|g]]; cbn [fst] in H.
  - unfold ret, fail.
    repeat match goal with
           | |- context [if ?b then _ else _] => destruct b
           end; at_cursor H.
  - at_cursor H.
  - at_cursor H.
Qed.

(** X6: the lexer reads its line from left to right and never touches it:
    whatever [GetNextToken] returns, token or error, it leaves the cursor
    on the same line, after a (possibly empty) further stretch of what was
    still unread. *)
Theorem GetNextToken_consumes
  (a b : string) (lex' : lexer.Lexer) (r : Outcome token.Token) :
  lexer.GetNextToken (lexer_at a b) = (lex', r) ->
  exists c b', b = c ++ b' /\ lex' = lexer_at (a ++ c) b'.
Proof.
  intros H. cut (consumes (lexer_at a b) lex'); [intros Hc; now apply Hc |].
  revert H. generalize (lexer_at a b). intros x.
  unfold lexer.GetNextToken. cbn [lexer.GetNextToken_loop].
  destruct (lexer.is_nul (lexer.CurrentChar x)) eqn:En; cbn [negb];
    [intros [= <- _]; apply consumes_refl |].
  destruct (unicode.IsSpace _); [| now apply consumes_switch].
  pose proof (consumes_IgnoreWhiteSpace_loop (lexer.remaining x) x) as H1.
  fold (lexer.IgnoreWhiteSpace x) in H1.
  destruct (lexer.is_nul (lexer.CurrentChar (lexer.IgnoreWhiteSpace x)))
    eqn:En'; cbn [negb]; [now intros [= <- _] |].
  destruct (unicode.IsSpace _).
  { intros [= <- _]. eapply consumes_trans; [exact H1 |].
    apply consumes_IgnoreWhiteSpace_loop. }
  intros H. eapply consumes_trans; [exact H1 |]. eapply consumes_switch; eauto.
Qed.

Lemma GetNextToken_consumes_witness :
  exists c b',
    " r1,r2" = c ++ b'
    /\ fst (lexer.GetNextToken (lexer_at "ADD" " r1,r2"))
       = lexer_at ("ADD" ++ c) b'.
Proof.
  exact (GetNextToken_consumes "ADD" " r1,r2" _ _
           (surjective_pairing (lexer.GetNextToken (lexer_at "ADD" " r1,r2")))).
Defined.

(** * Further properties of the parser *)

Lemma Integer_range (lex lex' : lexer.Lexer) (v : Z) :
  lexer.Integer lex = (lex', Ok v) -> 0 <= v <= MaxInt32.
Proof.
  intros H. split; [eapply Integer_nonneg, H |]. revert H.
  unfold lexer.Integer. destruct (negb _ && negb _); [discriminate |].
  destruct (lexer.Integer_loop _ _ _) as [lex1 s].
  destruct (strconv.ParseInt s) as [i [e|]]; [discriminate |].
  rewrite Z.gtb_ltb.
  destruct (Z.ltb_spec MaxInt32 i); [discriminate |].
  destruct (Z.ltb_spec i MinInt32); [discriminate |].
  intros [= _ <-]. rewrite int32_small; [assumption | split; assumption].
Qed.

Ltac plain_token :=
  cbv beta iota; unfold ret, fail;
  repeat match goal with
         | |- context [if ?b then _ else _] => destruct b
         end;
  intros [= _ <-]; cbn; auto.

Lemma GetNextToken_switch_wf (lex lex' : lexer.Lexer) (tok : token.Token) :
  lexer.GetNextToken_switch lex = (lex', Ok tok) -> token_wf tok.
Proof.
  unfold lexer.GetNextToken_switch. cbv zeta.
  destruct (_ =? _).
  { unfold bind.
    destruct (lexer.RegisterIndex lex) as [lex1 [v|e|g]] eqn:E;
      try discriminate.
    intros [= _ <-]. cbn. eapply RegisterIndex_range, E. }
  destruct (unicode.IsDigit _).
  { unfold bind. destruct (lexer.Integer lex) as [lex1 [v|e|g]] eqn:E;
      try discriminate.
    intros [= _ <-]. cbn. eapply Integer_range, E. }
  destruct (Ascii.eqb _ ","); [plain_token |].
  destruct (Ascii.eqb _ "$").
  { unfold bind. destruct (lexer.Shape lex) as [lex1 [v|e|g]];
      try discriminate. plain_token. }
  destruct (unicode.IsLower _); [discriminate |].
  destruct (_ || _); [discriminate |].
  destruct (unicode.IsUpper _); [| discriminate].
  unfold bind. destruct (lexer.Command lex) as [lex1 [v|e|g]];
    try discriminate. plain_token.
Qed.

Lemma GetNextToken_wf (lex lex' : lexer.Lexer) (tok : token.Token) :
  lexer.GetNextToken lex = (lex', Ok tok) -> token_wf tok.
Proof.
  unfold lexer.GetNextToken. cbn [lexer.GetNextToken_loop].
  repeat match goal with
         | |- context [if ?b then _ else _] => destruct b
         end;
    try apply GetNextToken_switch_wf;
    intros [= _ <-]; reflexivity.
Qed.

Lemma pull_wf (lex : lexer.Lexer) (p : parser.Parser) (r : Outcome unit) :
  parser.pull lex = (p, r) -> lookahead_wf p.
Proof.
  unfold parser.pull.
  destruct (lexer.GetNextToken lex) as [lex' [tok|e|g]] eqn:E;
    intros [= <- _] t [=].
  subst t. eapply GetNextToken_wf, E.
Qed.

Lemma Consume_wf (expected : token.TokenType) (p p' : parser.Parser) (u : unit) :
  parser.Consume expected p = (p', Ok u) ->
  lookahead_wf p'
  /\ exists tok, parser.CurrentToken p = Some tok
                 /\ token.TokenType_ tok = expected.
Proof.
  intros H. split; [| eapply Consume_Ok, H].
  revert H. unfold parser.Consume.
  destruct (parser.CurrentToken p) as [tok|]; [| discriminate].
  destruct (negb _); [discriminate |]. apply pull_wf.
Qed.

Lemma Instruction_switch_wf
  (p p' : parser.Parser) (instr : instructions.Instruction) :
  lookahead_wf p ->
  parser.Instruction_switch p = (p', Ok instr) ->
  well_encoded instr.
Proof.
  intros Hp H. unfold parser.Instruction_switch in H.
  step H. destruct (token.TokenType_ a) eqn:Ht; repeat step H.
  all: repeat match goal with
         | E : parser.current _ = (_, Ok _) |- _ =>
             apply current_Ok in E as [-> E]
         | E : parser.Consume _ _ = (_, Ok _) |- _ =>
             apply Consume_wf in E as [? (? & ? & ?)]
         end.
  all: repeat match goal with
         | E1 : parser.CurrentToken ?q = Some ?a,
           E2 : parser.CurrentToken ?q = Some ?x |- _ =>
             rewrite E1 in E2; injection E2 as <-
         end.
  all: repeat match goal with
         | Hq : lookahead_wf ?q, E : parser.CurrentToken ?q = Some ?a,
           Ht : token.TokenType_ ?a = _ |- _ =>
             let W := fresh "W" in
             pose proof (Hq a E) as W; unfold token_wf in W;
             rewrite Ht in W; clear Ht
         end.
  all: cbn; unfold interpreter.OPCODE_STDOUT, interpreter.OPCODE_LDI,
         interpreter.OPCODE_JUMP, interpreter.OPCODE_ADD,
         interpreter.OPCODE_ADDV, interpreter.OPCODE_DRAW,
         interpreter.OPCODE_BLINK, interpreter.OPCODE_PRINTR;
       try reflexivity; intuition auto.
Qed.

Lemma parsed_well_encoded (instr : instructions.Instruction) :
  parsed instr -> well_encoded instr.
Proof.
  intros (input & p & p' & Hnew & Hinstr).
  unfold parser.New in Hnew. apply pull_wf in Hnew.
  unfold parser.Instruction in Hinstr.
  destruct (parser.Instruction_switch p) as [p1 [i|e|g]] eqn:E;
    try discriminate.
  injection Hinstr as _ <-. eapply Instruction_switch_wf; eauto.
Qed.

(** X7: every instruction the parser returns with a nil error is one of
    the eight encodings with its operands in range: a unary STDOUT with a
    register 0..9, a binary LDI with a register and a literal in
    [0, 2147483647], a unary JUMP with a target in that range, a binary
    ADD or ADDV with two registers, a unary DRAW or BLINK with shape 1 or
    2, or the nullary PRINTR; never the error instruction. *)
Theorem parsed_instruction_forms (instr : instructions.Instruction) :
  parsed instr -> well_encoded instr.
Proof. exact (parsed_well_encoded instr). Qed.

Lemma parsed_instruction_forms_witness :
  well_encoded (instructions.BinaryInstruction 1 8 89).
Proof.
  apply parsed_instruction_forms. exists "LDI r8, 89".
  exists (fst (parser.New "LDI r8, 89")).
  exists (fst (parser.Instruction (fst (parser.New "LDI r8, 89")))).
  split; reflexivity.
Defined.

(** * Further properties of the interpreter *)

Lemma ReadFrom_no_error (P : error -> Prop) (register : Z) :
  register <= 9 -> fails_with P (interpreter.ReadFrom register).
Proof.
  intros H s s' e. unfold interpreter.ReadFrom. rewrite Z.gtb_ltb.
  destruct (Z.ltb_spec 9 register); [lia |].
  destruct (index _ _); intros [=].
Qed.

Lemma WriteTo_error (P : error -> Prop) (register value : Z) :
  P ReadOnlyError -> register <= 9 ->
  fails_with P (interpreter.WriteTo register value).
Proof.
  intros HP H s s' e. unfold interpreter.WriteTo. rewrite Z.gtb_ltb.
  destruct (register =? 0); [intros [= _ <-]; exact HP |].
  destruct (Z.ltb_spec 9 register); [lia |].
  destruct (index _ _); intros [=].
Qed.

Lemma runtime_error_ReadOnly : runtime_error ReadOnlyError.
Proof. left. reflexivity. Qed.

Lemma JumpTo_error (address : Z) :
  fails_with runtime_error (interpreter.JumpTo address).
Proof.
  intros s s' e. rewrite JumpTo_spec.
  destruct (interpreter.Registers s !! 0%nat); [| discriminate].
  destruct (_ <=? _); [intros [= _ <-]; right; left; eauto |].
  destruct (_ >? _); [intros [= _ <-]; right; right; left; reflexivity |].
  discriminate.
Qed.

Lemma PrintRegisters_from_no_error (P : error -> Prop) (count : nat) (i : Z) :
  0 <= i -> i + Z.of_nat count <= 10 ->
  fails_with P (interpreter.PrintRegisters_from i count).
Proof.
  revert i. induction count as [|count IH]; intros i Hi Hc;
    cbn [interpreter.PrintRegisters_from]; [apply fails_with_ret |].
  cbv zeta. apply fails_with_bind.
  - apply ReadFrom_no_error. rewrite int32_small;
      unfold in_int32, MinInt32, MaxInt32; lia.
  - intros v. apply fails_with_bind; [apply fails_with_modify |].
    intros _. apply IH; lia.
Qed.

Lemma DecodeAndDispatch_error (instr : instructions.Instruction) :
  well_encoded instr ->
  fails_with runtime_error (interpreter.DecodeAndDispatch (Some instr)).
Proof.
  pose proof runtime_error_ReadOnly as HRO.
  destruct instr as [op a b|op a|op|e]; cbn [well_encoded].
  - intros [(-> & Ha & Hb)|([->| ->] & Ha & Hb)];
      unfold interpreter.DecodeAndDispatch; cbn [instructions.GetOpCode
        instructions.GetArg1 instructions.GetArg2];
      rewrite (int32_small a), ?(int32_small b)
        by (unfold in_int32, MinInt32, MaxInt32 in *; lia).
    + apply WriteTo_error; [exact HRO | lia].
    + unfold interpreter.Add.
      apply fails_with_bind; [apply ReadFrom_no_error; lia | intros v1].
      apply fails_with_bind; [apply ReadFrom_no_error; lia | intros v2].
      apply fails_with_bind; [apply fails_with_discard | intros _].
      apply fails_with_ret.
    + unfold interpreter.AddV.
      apply fails_with_bind; [apply ReadFrom_no_error; lia | intros v1].
      apply fails_with_bind; [apply ReadFrom_no_error; lia | intros v2].
      destruct (_ || _).
      * apply fails_with_fail. right. right. right. reflexivity.
      * apply fails_with_bind; [apply fails_with_discard | intros _].
        destruct (_ || _); [apply fails_with_panic | apply fails_with_modify].
  - intros [(-> & Ha)|[(-> & Ha)|([->| ->] & [->| ->])]];
      unfold interpreter.DecodeAndDispatch; cbn [instructions.GetOpCode
        instructions.GetArg1 instructions.GetArg2].
    + unfold interpreter.PrintToStdOut.
      apply fails_with_bind; [apply ReadFrom_no_error; lia | intros v].
      apply fails_with_modify.
    + apply JumpTo_error.
    + apply fails_with_modify.
    + apply fails_with_modify.
    + apply fails_with_modify.
    + apply fails_with_modify.
  - intros ->. unfold interpreter.DecodeAndDispatch.
    cbn [instructions.GetOpCode].
    apply PrintRegisters_from_no_error; lia.
  - intros [].
Qed.

Lemma Interpret_loop_error (fuel : nat) (lastAddr : Z) :
  forall interp interp' e,
    (forall i instr,
        interpreter.Code interp !! i = Some (Some instr) ->
        well_encoded instr) ->
    interpreter.Interpret_loop fuel lastAddr interp = Some (interp', Fail e) ->
    runtime_error e.
Proof.
  induction fuel as [|fuel IH]; intros interp interp' e Hcode;
    cbn [interpreter.Interpret_loop];
    destruct (_ <? _); try discriminate.
  destruct (interpreter.Interpret_body interp) as [i1 [[]|e1|g]] eqn:E.
  - apply IH. pose proof (Interpret_body_bound_kept _ _ _ E) as [-> _].
    exact Hcode.
  - intros [= _ <-]. revert E.
    unfold interpreter.Interpret_body, bind at 1, get.
    destruct (index _ _) as [[instr|]|] eqn:Ei; try discriminate.
    apply index_Some in Ei as [_ Ei].
    apply (fails_with_bind runtime_error).
    + apply DecodeAndDispatch_error. eapply Hcode, Ei.
    + intros _. apply fails_with_modify.
  - discriminate.
Qed.

(** X8: on a code block of parsed instructions the interpreter returns
    only four errors: the read-only error (a write to register 0 by LDI),
    the infinite-loop and segmentation errors of JUMP, and the range error
    of ADDV; the invalid-register, invalid-shape and invalid-command
    errors do not occur. *)
Theorem parsed_code_errors
  (interp interp' : interpreter.Interpreter) (e : error) :
  (forall i instr,
      interpreter.Code interp !! i = Some (Some instr) -> parsed instr) ->
  interpreter.Interpret interp = Some (interp', Fail e) ->
  runtime_error e.
Proof.
  intros Hparsed. rewrite Interpret_spec.
  destruct (interpreter.Registers interp !! 0%nat); [| discriminate].
  apply Interpret_loop_error.
  intros i instr H. eapply parsed_well_encoded, Hparsed, H.
Qed.

Lemma parsed_code_errors_witness : runtime_error ReadOnlyError.
Proof.
  refine (parsed_code_errors
            (interpreter.New [1; 0; 0; 0; 0; 0; 0; 0; 0; 0]
               [Some (instructions.BinaryInstruction 1 0 2)])
            (interpreter.New [1; 0; 0; 0; 0; 0; 0; 0; 0; 0]
               [Some (instructions.BinaryInstruction 1 0 2)])
            ReadOnlyError _ eq_refl).
  intros [|i] instr; cbn; [| destruct i; discriminate].
  intros [= <-]. exists "LDI r0, 2".
  exists (fst (parser.New "LDI r0, 2")).
  exists (fst (parser.Instruction (fst (parser.New "LDI r0, 2")))).
  split; reflexivity.
Defined.

(** ** The parser and the nil token *)

Lemma Integer_never_panics : never_panics lexer.Integer.
Proof.
  intros s s' g. unfold lexer.Integer.
  destruct (negb _ && negb _); [discriminate |].
  destruct (lexer.Integer_loop _ _ _) as [lex1 str].
  destruct (strconv.ParseInt str) as [i [e|]]; [discriminate |].
  destruct (_ >? _); [discriminate |]. destruct (_ <? _); discriminate.
Qed.

Lemma Command_loop_never_panics (n : nat) :
  forall acc, never_panics (lexer.Command_loop n acc).
Proof.
  induction n as [|n IH]; intros acc s s' g; cbn [lexer.Command_loop];
    [discriminate |].
  destruct (_ && _); [| discriminate].
  destruct (_ >? _); [discriminate | apply IH].
Qed.

Lemma Shape_loop_never_panics (n : nat) :
  forall acc, never_panics (lexer.Shape_loop n acc).
Proof.
  induction n as [|n IH]; intros acc s s' g; cbn [lexer.Shape_loop];
    [discriminate |].
  destruct (_ && _); [| discriminate].
  destruct (_ >? _); [discriminate | apply IH].
Qed.

Ltac no_panic :=
  cbv beta iota; unfold ret, fail;
  repeat match goal with
         | |- context [if ?b then _ else _] => destruct b
         end;
  discriminate.

Lemma GetNextToken_switch_never_panics :
  never_panics lexer.GetNextToken_switch.
Proof.
  intros s s' g. unfold lexer.GetNextToken_switch. cbv zeta.
  destruct (_ =? _).
  { unfold lexer.RegisterIndex, bind.
    destruct (negb _); [no_panic |].
    destruct (unicode.IsSpace _); [no_panic |].
    destruct (lexer.Integer _) as [x1 [v|e|g']] eqn:E; try no_panic.
    exfalso. eapply Integer_never_panics, E. }
  destruct (unicode.IsDigit _).
  { unfold bind. destruct (lexer.Integer s) as [x1 [v|e|g']] eqn:E;
      try no_panic. exfalso. eapply Integer_never_panics, E. }
  destruct (Ascii.eqb _ ","); [no_panic |].
  destruct (Ascii.eqb _ "$").
  { unfold lexer.Shape, bind.
    destruct (negb _); [no_panic |].
    destruct (lexer.Shape_loop _ _ _) as [x1 [v|e|g']] eqn:E; try no_panic.
    exfalso. eapply Shape_loop_never_panics, E. }
  destruct (unicode.IsLower _); [no_panic |].
  destruct (_ || _); [no_panic |].
  destruct (unicode.IsUpper _); [| no_panic].
  unfold lexer.Command, bind.
  destruct (lexer.Command_loop _ _ _) as [x1 [v|e|g']] eqn:E; try no_panic.
  exfalso. eapply Command_loop_never_panics, E.
Qed.

Lemma GetNextToken_never_panics : never_panics lexer.GetNextToken.
Proof.
  intros s s' g. unfold lexer.GetNextToken. cbn [lexer.GetNextToken_loop].
  repeat match goal with
         | |- context [if ?b then _ else _] => destruct b
         end;
    try apply GetNextToken_switch_never_panics; discriminate.
Qed.

(** After [pull] the lookahead is nil exactly when the lexer failed. *)
Lemma pull_token (lex : lexer.Lexer) (p : parser.Parser) (r : Outcome unit) :
  parser.pull lex = (p, r) ->
  match r with
  | Ok _ => exists tok, parser.CurrentToken p = Some tok
  | Fail _ => parser.CurrentToken p = None
  | Panic _ => False
  end.
Proof.
  unfold parser.pull.
  destruct (lexer.GetNextToken lex) as [lex' [tok|e|g]] eqn:E;
    intros [= <- <-]; cbn; eauto.
  eapply GetNextToken_never_panics, E.
Qed.

Lemma Consume_token (expected : token.TokenType) (p p' : parser.Parser)
  (tok : token.Token) (r : Outcome unit) :
  parser.CurrentToken p = Some tok ->
  parser.Consume expected p = (p', r) ->
  match r with
  | Ok _ => exists tok', parser.CurrentToken p' = Some tok'
  | Fail _ => True
  | Panic _ => False
  end.
Proof.
  intros Hp. unfold parser.Consume. rewrite Hp.
  destruct (negb _); [intros [= _ <-]; exact I |].
  intros H. apply pull_token in H. destruct r; auto.
Qed.

Lemma current_token (p p' : parser.Parser) (tok : token.Token)
  (r : Outcome token.Token) :
  parser.CurrentToken p = Some tok ->
  parser.current p = (p', r) ->
  r = Ok tok /\ parser.CurrentToken p' = Some tok.
Proof.
  intros Hp. unfold parser.current. rewrite Hp.
  intros [= <- <-]. split; [reflexivity | exact Hp].
Qed.

Ltac pstep H :=
  match type of H with
  | bind (parser.Consume ?t) ?k ?s = _ =>
      let E := fresh "E" in
      let T := fresh "T" in
      unfold bind at 1 in H;
      destruct (parser.Consume t s) as [? [?|?|?]] eqn:E;
      [ match goal with
        | HS : parser.CurrentToken s = Some _ |- _ =>
            pose proof (Consume_token _ _ _ _ _ HS E) as T;
            cbv beta iota in T; destruct T as [? T]
        end
      | discriminate H
      | match goal with
        | HS : parser.CurrentToken s = Some _ |- _ =>
            exact (False_ind _ (Consume_token _ _ _ _ _ HS E))
        end ]
  | bind parser.current ?k ?s = _ =>
      let E := fresh "E" in
      let T := fresh "T" in
      unfold bind at 1 in H;
      destruct (parser.current s) as [? [?|?|?]] eqn:E;
      match goal with
      | HS : parser.CurrentToken s = Some _ |- _ =>
          pose proof (current_token _ _ _ _ HS E) as [T ?];
          try discriminate T
      end
  | ret _ _ = _ => discriminate H
  | fail _ _ = _ => discriminate H
  end.

Lemma Instruction_switch_never_panics
  (p p' : parser.Parser) (tok : token.Token) (g : GoPanic) :
  parser.CurrentToken p = Some tok ->
  parser.Instruction_switch p <> (p', Panic g).
Proof.
  intros Hp H. unfold parser.Instruction_switch in H.
  pstep H. destruct (token.TokenType_ _); repeat pstep H.
Qed.

(** X9: on a parser whose construction succeeded, [Instruction] never
    dereferences a nil token: it returns, with an instruction and a nil
    error or with the error instruction and its error.  On a parser that
    [New] returned together with an error the lookahead is nil, and
    calling [Instruction] is a nil dereference. *)
Theorem Instruction_nil_token (input : string) (p : parser.Parser) :
  (forall u, parser.New input = (p, Ok u) ->
             exists p' res, parser.Instruction p = (p', Ok res))
  /\ (forall e, parser.New input = (p, Fail e) ->
                parser.CurrentToken p = None
                /\ snd (parser.Instruction p) = Panic NilDereference)
  /\ (forall g, parser.New input <> (p, Panic g)).
Proof.
  unfold parser.New. split; [| split].
  - intros u H. apply pull_token in H as [tok Ht].
    unfold parser.Instruction.
    destruct (parser.Instruction_switch p) as [p' [i|e|g]] eqn:E; eauto.
    exfalso. eapply Instruction_switch_never_panics; eauto.
  - intros e H. apply pull_token in H. split; [exact H |].
    unfold parser.Instruction, parser.Instruction_switch, bind,
      parser.current.
    rewrite H. reflexivity.
  - intros g H. apply pull_token in H. exact H.
Qed.

Lemma Instruction_nil_token_witness :
  (exists p' res,
      parser.Instruction (fst (parser.New "STDOUT 3")) = (p', Ok res))
  /\ snd (parser.Instruction (fst (parser.New "r1,r2")))
     = Panic NilDereference.
Proof.
  split.
  - apply (proj1 (Instruction_nil_token "STDOUT 3" _) tt). reflexivity.
  - apply (proj1 (proj2 (Instruction_nil_token "r1,r2" _))
             RegMissingDelimiter).
    reflexivity.
Defined.

(** ** Tokens of a canonical line *)

Lemma GetNextToken_word (a : string) (c : ascii) (w rest : string) :
  all_upper (String c w) = true ->
  is_marker c = false ->
  unicode.IsUpper (peek rest) = false ->
  (String.length (String c w) <= 11)%nat ->
  lexer.GetNextToken (lexer_at a (String c w ++ rest))
  = (lexer_at (a ++ String c w) rest,
     match mnemonic (String c w) with
     | Some t => Ok (token.New t 0)
     | None => Fail (UnknownCommand (String c w))
     end).
Proof.
  intros Hw Hm Hr Hlen.
  pose proof Hw as Hc. cbn [all_upper] in Hc. apply andb_prop in Hc as [Hc _].
  cbn [append]. rewrite (GetNextToken_on_capital a c (w ++ rest) Hc Hm).
  change (String c (w ++ rest)) with (String c w ++ rest).
  unfold bind, lexer.Command.
  rewrite (Command_loop_at _ a "" rest Hw Hr) by (cbn [String.length] in *; lia).
  cbn [append]. destruct (mnemonic _); reflexivity.
Qed.

Lemma GetNextToken_space (a rest : string) :
  lexer.GetNextToken (lexer_at a (String " " rest))
  = lexer.GetNextToken (lexer_at (a ++ " ") rest).
Proof.
  rewrite <- (GetNextToken_IgnoreWhiteSpace (lexer_at a (String " " rest))).
  pose proof (IgnoreWhiteSpace_skip " " a rest eq_refl) as H.
  cbn [append] in H. rewrite H.
  apply GetNextToken_IgnoreWhiteSpace.
Qed.

Lemma GetNextToken_comma (a rest : string) :
  lexer.GetNextToken (lexer_at a (String "," rest))
  = (lexer_at (a ++ ",") rest, Ok (token.New token.COMMA 0)).
Proof.
  rewrite GetNextToken_unfold. cbn [lexer_at lexer.CurrentChar peek].
  change (negb (lexer.is_nul ",")) with true.
  change (unicode.IsSpace ",") with false. cbv iota.
  unfold lexer.GetNextToken_switch. cbn [lexer_at lexer.CurrentChar peek].
  change (unicode.ToLower "," =? unicode.rune "r") with false.
  change (unicode.IsDigit ",") with false.
  change (Ascii.eqb "," ",") with true. cbv iota.
  fold (lexer_at a (String "," rest)). now rewrite GetNextChar_at.
Qed.

Lemma GetNextToken_end (a : string) :
  lexer.GetNextToken (lexer_at a "")
  = (lexer_at a "", Ok (token.New token.EOF 0)).
Proof. rewrite GetNextToken_unfold. reflexivity. Qed.

Lemma GetNextToken_register (a : string) (k : ascii) (rest : string) :
  is_delimiter (last_byte a) = true ->
  unicode.IsDigit k = true ->
  unicode.IsDigit (peek rest) = false ->
  lexer.GetNextToken (lexer_at a (String "r" (String k rest)))
  = (lexer_at (a ++ String "r" (String k "")) rest,
     Ok (token.New token.REG (unicode.rune k - 48))).
Proof.
  intros Hd Hk Hr.
  rewrite (GetNextToken_on_marker a "r" (String k rest) eq_refl). unfold bind.
  pose proof (RegisterIndex_digits a "r" (String k "") rest eq_refl Hd) as H.
  cbn [append all_digits decimal] in H. rewrite Hk in H.
  rewrite (H eq_refl Hr).
  pose proof (digit_facts k Hk) as (_ & _ & _ & _ & _ & _ & Hv).
  destruct (Z.leb_spec (0 * 10 + (unicode.rune k - 48)) 9); [| lia].
  now rewrite append_snoc.
Qed.

Lemma GetNextToken_literal (a : string) (c : ascii) (ds rest : string) :
  is_delimiter (last_byte a) = true ->
  all_digits (String c ds) = true ->
  unicode.IsDigit (peek rest) = false ->
  decimal 0 (String c ds) <= MaxInt32 ->
  lexer.GetNextToken (lexer_at a (String c ds ++ rest))
  = (lexer_at (a ++ String c ds) rest,
     Ok (token.New token.INT (decimal 0 (String c ds)))).
Proof.
  intros Hd Hc Hr Hv.
  pose proof Hc as Hc'. cbn [all_digits] in Hc'.
  apply andb_prop in Hc' as [Hc' _].
  cbn [append]. rewrite (GetNextToken_on_digit a c (ds ++ rest) Hc').
  unfold bind.
  change (String c (ds ++ rest)) with (String c ds ++ rest).
  rewrite (Integer_digits a (String c ds) rest) by
    (try assumption; now rewrite Hd, orb_true_r).
  destruct (Z.leb_spec (decimal 0 (String c ds)) MaxInt32); [reflexivity | lia].
Qed.

Ltac tok L :=
  let H := fresh "H" in
  pose proof L as H; cbn [append] in H; rewrite ?append_nil_r in H;
  rewrite H; clear H;
  cbv beta iota;
  cbn [parser.CurrentToken parser.Lex token.TokenType_
       token.TokenType_eqb negb token.Value].

Ltac open_line :=
  unfold parse_line, parser.New; rewrite New_at; cbn [append];
  unfold parser.pull at 1.

Ltac open_parser :=
  cbv beta iota;
  unfold parser.Instruction, parser.Instruction_switch, bind, parser.current,
    parser.Consume, parser.pull, ret;
  cbn [parser.CurrentToken parser.Lex token.TokenType_
       token.TokenType_eqb negb token.Value].

(** X10: the canonical text of an instruction parses to its encoding, for
    every operand: STDOUT rK, LDI rK,N, JUMP N, ADD rK,rJ and ADDV rK,rJ
    give the instruction whose arguments are the register digits K, J and
    the value of the literal N (any run of digits worth at most
    2147483647). *)
Theorem canonical_lines (k j c : ascii) (ds : string) :
  unicode.IsDigit k = true ->
  unicode.IsDigit j = true ->
  all_digits (String c ds) = true ->
  decimal 0 (String c ds) <= MaxInt32 ->
  let K := unicode.rune k - 48 in
  let J := unicode.rune j - 48 in
  let N := decimal 0 (String c ds) in
  parse_line ("STDOUT r" ++ String k "")
  = Ok (instructions.UnaryInstruction parser.OPCODE_STDOUT K, None)
  /\ parse_line ("LDI r" ++ String k ("," ++ String c ds))
     = Ok (instructions.BinaryInstruction parser.OPCODE_LDI K N, None)
  /\ parse_line ("JUMP " ++ String c ds)
     = Ok (instructions.UnaryInstruction parser.OPCODE_JUMP N, None)
  /\ parse_line ("ADD r" ++ String k (",r" ++ String j ""))
     = Ok (instructions.BinaryInstruction parser.OPCODE_ADD K J, None)
  /\ parse_line ("ADDV r" ++ String k (",r" ++ String j ""))
     = Ok (instructions.BinaryInstruction parser.OPCODE_ADDV K J, None).
Proof.
  intros Hk Hj Hn Hv K J N. subst K J N.
  pose proof (digit_facts j Hj) as (_ & _ & _ & _ & _ & _ & _).
  repeat split.
  - open_line.
    tok (GetNextToken_word "" "S" "TDOUT" (" r" ++ String k "")
           eq_refl eq_refl eq_refl ltac:(cbn; lia)).
    change (mnemonic "STDOUT") with (Some token.STDOUT). open_parser.
    rewrite GetNextToken_space. cbn [append].
    tok (GetNextToken_register "STDOUT " k "" eq_refl Hk eq_refl).
    tok (GetNextToken_end ("STDOUT r" ++ String k "")).
    reflexivity.
  - open_line.
    tok (GetNextToken_word "" "L" "DI" (" r" ++ String k ("," ++ String c ds))
           eq_refl eq_refl eq_refl ltac:(cbn; lia)).
    change (mnemonic "LDI") with (Some token.LDI). open_parser.
    rewrite GetNextToken_space. cbn [append].
    tok (GetNextToken_register "LDI " k ("," ++ String c ds) eq_refl Hk eq_refl).
    tok (GetNextToken_comma ("LDI r" ++ String k "") (String c ds)).
    tok (GetNextToken_literal ("LDI r" ++ String k ",") c ds "" eq_refl Hn
           eq_refl Hv).
    tok (GetNextToken_end (("LDI r" ++ String k ",") ++ String c ds)).
    reflexivity.
  - open_line.
    tok (GetNextToken_word "" "J" "UMP" (" " ++ String c ds)
           eq_refl eq_refl eq_refl ltac:(cbn; lia)).
    change (mnemonic "JUMP") with (Some token.JUMP). open_parser.
    rewrite GetNextToken_space. cbn [append].
    tok (GetNextToken_literal "JUMP " c ds "" eq_refl Hn eq_refl Hv).
    tok (GetNextToken_end ("JUMP " ++ String c ds)).
    reflexivity.
  - open_line.
    tok (GetNextToken_word "" "A" "DD" (" r" ++ String k (",r" ++ String j ""))
           eq_refl eq_refl eq_refl ltac:(cbn; lia)).
    change (mnemonic "ADD") with (Some token.ADD). open_parser.
    rewrite GetNextToken_space. cbn [append].
    tok (GetNextToken_register "ADD " k (",r" ++ String j "") eq_refl Hk eq_refl).
    tok (GetNextToken_comma ("ADD r" ++ String k "") ("r" ++ String j "")).
    tok (GetNextToken_register ("ADD r" ++ String k ",") j "" eq_refl Hj eq_refl).
    tok (GetNextToken_end ("ADD r" ++ String k (",r" ++ String j ""))).
    reflexivity.
  - open_line.
    tok (GetNextToken_word "" "A" "DDV" (" r" ++ String k (",r" ++ String j ""))
           eq_refl eq_refl eq_refl ltac:(cbn; lia)).
    change (mnemonic "ADDV") with (Some token.ADDV). open_parser.
    rewrite GetNextToken_space. cbn [append].
    tok (GetNextToken_register "ADDV " k (",r" ++ String j "") eq_refl Hk eq_refl).
    tok (GetNextToken_comma ("ADDV r" ++ String k "") ("r" ++ String j "")).
    tok (GetNextToken_register ("ADDV r" ++ String k ",") j "" eq_refl Hj eq_refl).
    tok (GetNextToken_end ("ADDV r" ++ String k (",r" ++ String j ""))).
    reflexivity.
Qed.

Lemma canonical_lines_witness :
  parse_line "LDI r8,2147483647"
  = Ok (instructions.BinaryInstruction parser.OPCODE_LDI 8 2147483647, None).
Proof.
  refine (proj1 (proj2 (canonical_lines "8" "1" "2" "147483647"
                          eq_refl eq_refl eq_refl _))).
  vm_compute. discriminate.
Defined.

(** ** Registers *)

Lemma index_nat {A : Type} (l : list A) (i : Z) :
  0 <= i -> index l i = l !! Z.to_nat i.
Proof. intros H. unfold index. destruct (Z.ltb_spec i 0); [lia | reflexivity]. Qed.

Lemma index_negative {A : Type} (l : list A) (i : Z) :
  i < 0 -> index l i = None.
Proof. intros H. unfold index. destruct (Z.ltb_spec i 0); [reflexivity | lia]. Qed.

Lemma ReadFrom_ok (register : Z) (interp : interpreter.Interpreter) :
  length (interpreter.Registers interp) = 10%nat ->
  0 <= register <= 9 ->
  exists value,
    interpreter.Registers interp !! Z.to_nat register = Some value
    /\ interpreter.ReadFrom register interp = (interp, Ok value).
Proof.
  intros Hlen Hr. unfold interpreter.ReadFrom. rewrite Z.gtb_ltb.
  destruct (Z.ltb_spec 9 register); [lia |].
  rewrite index_nat by lia.
  destruct (lookup_lt_is_Some_2 (interpreter.Registers interp)
              (Z.to_nat register)) as [v Hv]; [lia |].
  exists v. now rewrite Hv.
Qed.

Lemma WriteTo_ok (register value : Z) (interp : interpreter.Interpreter) :
  length (interpreter.Registers interp) = 10%nat ->
  1 <= register <= 9 ->
  interpreter.WriteTo register value interp
  = (interpreter.set_Registers
       (<[Z.to_nat register := value]> (interpreter.Registers interp)) interp,
     Ok tt).
Proof.
  intros Hlen Hr. unfold interpreter.WriteTo. rewrite Z.gtb_ltb.
  destruct (Z.eqb_spec register 0); [lia |].
  destruct (Z.ltb_spec 9 register); [lia |].
  rewrite index_nat by lia.
  destruct (lookup_lt_is_Some_2 (interpreter.Registers interp)
              (Z.to_nat register)) as [v Hv]; [lia |].
  now rewrite Hv.
Qed.

(** X11: the register access contract.  On a register file of 10
    registers, an index above 9 is the invalid-register error on read and
    on write, with the state untouched; a negative index passes the
    [> 9] test and is an index-out-of-range panic; every index 0..9 can be
    read; a write to 1..9 succeeds, the register then reads back the
    value written, and every other register reads as before. *)
Theorem register_access
  (interp : interpreter.Interpreter) (register value : Z) :
  length (interpreter.Registers interp) = 10%nat ->
  (9 < register ->
   interpreter.ReadFrom register interp
   = (interp, Fail (InvalidRegisterError register))
   /\ interpreter.WriteTo register value interp
      = (interp, Fail (InvalidRegisterError register)))
  /\ (register < 0 ->
      interpreter.ReadFrom register interp = (interp, Panic IndexOutOfRange)
      /\ interpreter.WriteTo register value interp
         = (interp, Panic IndexOutOfRange))
  /\ (0 <= register <= 9 ->
      exists current, interpreter.ReadFrom register interp = (interp, Ok current))
  /\ (1 <= register <= 9 ->
      exists interp',
        interpreter.WriteTo register value interp = (interp', Ok tt)
        /\ interpreter.ReadFrom register interp' = (interp', Ok value)
        /\ length (interpreter.Registers interp') = 10%nat
        /\ forall other,
             0 <= other <= 9 -> other <> register ->
             snd (interpreter.ReadFrom other interp')
             = snd (interpreter.ReadFrom other interp)).
Proof.
  intros Hlen. split; [| split; [| split]].
  - intros H. unfold interpreter.ReadFrom, interpreter.WriteTo.
    rewrite Z.gtb_ltb.
    destruct (Z.ltb_spec 9 register); [| lia].
    destruct (Z.eqb_spec register 0); [lia |]. split; reflexivity.
  - intros H. unfold interpreter.ReadFrom, interpreter.WriteTo.
    rewrite Z.gtb_ltb, index_negative by lia.
    destruct (Z.ltb_spec 9 register); [lia |].
    destruct (Z.eqb_spec register 0); [lia |]. split; reflexivity.
  - intros H. destruct (ReadFrom_ok register interp Hlen H) as (v & _ & Hv).
    eauto.
  - intros H. eexists. split; [apply WriteTo_ok; assumption |].
    assert (Hlen' : length (<[Z.to_nat register := value]>
                              (interpreter.Registers interp)) = 10%nat)
      by now rewrite length_insert.
    split; [| split; [exact Hlen' |]].
    + unfold interpreter.ReadFrom. rewrite Z.gtb_ltb.
      destruct (Z.ltb_spec 9 register); [lia |].
      rewrite index_nat by lia. cbn [interpreter.Registers interpreter.set_Registers].
      rewrite list_lookup_insert_eq by lia. reflexivity.
    + intros other Ho Hne. unfold interpreter.ReadFrom. rewrite Z.gtb_ltb.
      destruct (Z.ltb_spec 9 other); [lia |].
      rewrite !index_nat by lia.
      cbn [interpreter.Registers interpreter.set_Registers].
      rewrite list_lookup_insert_ne by lia.
      destruct (_ !! _); reflexivity.
Qed.

Lemma register_access_witness :
  exists interp',
    interpreter.WriteTo 3 42 (interpreter.New (replicate 10 0) []) = (interp', Ok tt)
    /\ interpreter.ReadFrom 3 interp' = (interp', Ok 42).
Proof.
  destruct (register_access (interpreter.New (replicate 10 0) []) 3 42 eq_refl)
    as (_ & _ & _ & H).
  destruct (H ltac:(lia)) as (i' & Hw & Hr & _). exists i'. split; assumption.
Defined.

(** X12: ADD on a register file of 10 registers, with a destination in
    1..9 and a source in 0..9, stores the wrapped 32-bit sum of the two
    registers in the destination and changes nothing else: the other
    registers, the program counter and the output are as before, and the
    result is always Ok, whatever the operands. *)
Theorem Add_effect
  (interp : interpreter.Interpreter) (ri rj vi vj : Z) :
  length (interpreter.Registers interp) = 10%nat ->
  1 <= ri <= 9 -> 0 <= rj <= 9 ->
  interpreter.Registers interp !! Z.to_nat ri = Some vi ->
  interpreter.Registers interp !! Z.to_nat rj = Some vj ->
  interpreter.Add ri rj interp
  = (interpreter.set_Registers
       (<[Z.to_nat ri := int32 (vi + vj)]> (interpreter.Registers interp))
       interp,
     Ok tt)
  /\ in_int32 (int32 (vi + vj)).
Proof.
  intros Hlen Hi Hj Hvi Hvj. split; [| apply int32_range].
  unfold interpreter.Add, bind, discard, ret.
  destruct (ReadFrom_ok ri interp Hlen ltac:(lia)) as (v1 & H1 & ->).
  destruct (ReadFrom_ok rj interp Hlen Hj) as (v2 & H2 & ->).
  rewrite Hvi in H1. rewrite Hvj in H2. injection H1 as <-. injection H2 as <-.
  now rewrite WriteTo_ok.
Qed.

Lemma Add_effect_witness :
  interpreter.Add 1 1
    (interpreter.New [0; 2147483647; 0; 0; 0; 0; 0; 0; 0; 0] [])
  = (interpreter.New [0; -2; 0; 0; 0; 0; 0; 0; 0; 0] [], Ok tt).
Proof.
  apply (Add_effect
           (interpreter.New [0; 2147483647; 0; 0; 0; 0; 0; 0; 0; 0] [])
           1 1 2147483647 2147483647 eq_refl);
    first [reflexivity | lia].
Defined.

(** X13: ADDV on a register file of 10 registers, destination in 1..9 and
    source in 0..9.  An operand above 10 is the range error, with nothing
    written.  With both operands in 0..10 the sum is stored in the
    destination and one animated-add output is made.  There is no lower
    bound in the test: a negative operand passes it, the sum is stored,
    and the run then ends in the panic of a negative repeat count. *)
Theorem AddV_effect
  (interp : interpreter.Interpreter) (ri rj vi vj : Z) :
  length (interpreter.Registers interp) = 10%nat ->
  1 <= ri <= 9 -> 0 <= rj <= 9 ->
  interpreter.Registers interp !! Z.to_nat ri = Some vi ->
  interpreter.Registers interp !! Z.to_nat rj = Some vj ->
  (10 < vi \/ 10 < vj ->
   interpreter.AddV ri rj interp = (interp, Fail VisualAddRange))
  /\ (0 <= vi <= 10 -> 0 <= vj <= 10 ->
      interpreter.AddV ri rj interp
      = (interpreter.mkInterpreter (interpreter.PC interp)
           (<[Z.to_nat ri := vi + vj]> (interpreter.Registers interp))
           (interpreter.Code interp)
           (interpreter.Stdout interp
              ++ [interpreter.AnimatedAdd vi vj (vi + vj)]),
         Ok tt))
  /\ (vi <= 10 -> vj <= 10 -> vi < 0 \/ vj < 0 ->
      snd (interpreter.AddV ri rj interp) = Panic NegativeRepeatCount
      /\ interpreter.Registers (fst (interpreter.AddV ri rj interp))
         = <[Z.to_nat ri := int32 (vi + vj)]> (interpreter.Registers interp)).
Proof.
  intros Hlen Hi Hj Hvi Hvj.
  assert (E : interpreter.AddV ri rj interp
              = if (vi >? 10) || (vj >? 10) then (interp, Fail VisualAddRange)
                else
                  (discard tt (interpreter.WriteTo ri (int32 (vi + vj))) ;;;
                   if (vi <? 0) || (vj <? 0) || (vi + vj <? 0)
                   then panic NegativeRepeatCount
                   else interpreter.print
                          (interpreter.AnimatedAdd vi vj (vi + vj))) interp).
  { unfold interpreter.AddV. unfold bind at 1.
    destruct (ReadFrom_ok ri interp Hlen ltac:(lia)) as (v1 & H1 & ->).
    unfold bind at 1.
    destruct (ReadFrom_ok rj interp Hlen Hj) as (v2 & H2 & ->).
    rewrite Hvi in H1. rewrite Hvj in H2. injection H1 as <-. injection H2 as <-.
    destruct (_ || _); reflexivity. }
  rewrite E. unfold bind, discard. rewrite WriteTo_ok by assumption.
  rewrite !Z.gtb_ltb.
  split; [| split].
  - intros H.
    destruct (Z.ltb_spec 10 vi); [reflexivity |].
    destruct (Z.ltb_spec 10 vj); [reflexivity | lia].
  - intros H1 H2.
    destruct (Z.ltb_spec 10 vi); [lia |].
    destruct (Z.ltb_spec 10 vj); [lia |]. cbn [orb].
    destruct (Z.ltb_spec vi 0); [lia |].
    destruct (Z.ltb_spec vj 0); [lia |].
    destruct (Z.ltb_spec (vi + vj) 0); [lia |]. cbn [orb].
    rewrite int32_small by (unfold in_int32, MinInt32, MaxInt32; lia).
    reflexivity.
  - intros H1 H2 H.
    destruct (Z.ltb_spec 10 vi); [lia |].
    destruct (Z.ltb_spec 10 vj); [lia |]. cbn [orb].
    destruct (Z.ltb_spec vi 0); [split; reflexivity |].
    destruct (Z.ltb_spec vj 0); [split; reflexivity | lia].
Qed.

Lemma AddV_effect_witness :
  snd (interpreter.AddV 1 2
         (interpreter.New [0; -2; 3; 0; 0; 0; 0; 0; 0; 0] []))
  = Panic NegativeRepeatCount
  /\ interpreter.Registers
       (fst (interpreter.AddV 1 2
               (interpreter.New [0; -2; 3; 0; 0; 0; 0; 0; 0; 0] [])))
     = <[Z.to_nat 1 := int32 (-2 + 3)]> [0; -2; 3; 0; 0; 0; 0; 0; 0; 0].
Proof.
  destruct (AddV_effect
              (interpreter.New [0; -2; 3; 0; 0; 0; 0; 0; 0; 0] [])
              1 2 (-2) 3 eq_refl ltac:(lia) ltac:(lia) eq_refl eq_refl)
    as (_ & _ & H).
  apply H; lia.
Defined.

Lemma PrintRegisters_from_step
  (i : Z) (count : nat) (interp : interpreter.Interpreter) (value : Z) :
  0 <= i <= 9 ->
  interpreter.Registers interp !! Z.to_nat i = Some value ->
  interpreter.PrintRegisters_from i (S count) interp
  = interpreter.PrintRegisters_from (i + 1) count
      (interpreter.mkInterpreter (interpreter.PC interp)
         (interpreter.Registers interp) (interpreter.Code interp)
         (interpreter.Stdout interp ++ [interpreter.PrintRegister i value])).
Proof.
  intros Hi Hv. cbn [interpreter.PrintRegisters_from]. cbv zeta.
  rewrite int32_small by (unfold in_int32, MinInt32, MaxInt32; lia).
  unfold bind at 1, interpreter.ReadFrom. rewrite Z.gtb_ltb.
  destruct (Z.ltb_spec 9 i); [lia |].
  rewrite index_nat, Hv by lia. reflexivity.
Qed.

(** X14: PRINTR on a register file of 10 registers prints the ten
    registers in order, R0 first, each with its current value, and
    changes nothing else. *)
Theorem PrintRegisters_output
  (pc v0 v1 v2 v3 v4 v5 v6 v7 v8 v9 : Z)
  (code : list (option instructions.Instruction))
  (out : list interpreter.Output) :
  let regs := [v0; v1; v2; v3; v4; v5; v6; v7; v8; v9] in
  interpreter.PrintRegisters (interpreter.mkInterpreter pc regs code out)
  = (interpreter.mkInterpreter pc regs code
       (out ++ [interpreter.PrintRegister 0 v0; interpreter.PrintRegister 1 v1;
                interpreter.PrintRegister 2 v2; interpreter.PrintRegister 3 v3;
                interpreter.PrintRegister 4 v4; interpreter.PrintRegister 5 v5;
                interpreter.PrintRegister 6 v6; interpreter.PrintRegister 7 v7;
                interpreter.PrintRegister 8 v8; interpreter.PrintRegister 9 v9]),
     Ok tt).
Proof.
  intros regs. subst regs. unfold interpreter.PrintRegisters.
  rewrite (PrintRegisters_from_step 0 _ _ v0) by (first [lia | reflexivity]);
    cbn [interpreter.PC interpreter.Registers interpreter.Code
         interpreter.Stdout Z.add Pos.add Pos.succ].
  rewrite (PrintRegisters_from_step 1 _ _ v1) by (first [lia | reflexivity]);
    cbn [interpreter.PC interpreter.Registers interpreter.Code
         interpreter.Stdout Z.add Pos.add Pos.succ].
  rewrite (PrintRegisters_from_step 2 _ _ v2) by (first [lia | reflexivity]);
    cbn [interpreter.PC interpreter.Registers interpreter.Code
         interpreter.Stdout Z.add Pos.add Pos.succ].
  rewrite (PrintRegisters_from_step 3 _ _ v3) by (first [lia | reflexivity]);
    cbn [interpreter.PC interpreter.Registers interpreter.Code
         interpreter.Stdout Z.add Pos.add Pos.succ].
  rewrite (PrintRegisters_from_step 4 _ _ v4) by (first [lia | reflexivity]);
    cbn [interpreter.PC interpreter.Registers interpreter.Code
         interpreter.Stdout Z.add Pos.add Pos.succ].
  rewrite (PrintRegisters_from_step 5 _ _ v5) by (first [lia | reflexivity]);
    cbn [interpreter.PC interpreter.Registers interpreter.Code
         interpreter.Stdout Z.add Pos.add Pos.succ].
  rewrite (PrintRegisters_from_step 6 _ _ v6) by (first [lia | reflexivity]);
    cbn [interpreter.PC interpreter.Registers interpreter.Code
         interpreter.Stdout Z.add Pos.add Pos.succ].
  rewrite (PrintRegisters_from_step 7 _ _ v7) by (first [lia | reflexivity]);
    cbn [interpreter.PC interpreter.Registers interpreter.Code
         interpreter.Stdout Z.add Pos.add Pos.succ].
  rewrite (PrintRegisters_from_step 8 _ _ v8) by (first [lia | reflexivity]);
    cbn [interpreter.PC interpreter.Registers interpreter.Code
         interpreter.Stdout Z.add Pos.add Pos.succ].
  rewrite (PrintRegisters_from_step 9 _ _ v9) by (first [lia | reflexivity]);
    cbn [interpreter.PC interpreter.Registers interpreter.Code
         interpreter.Stdout Z.add Pos.add Pos.succ].
  cbn [interpreter.PrintRegisters_from interpreter.PC interpreter.Registers
       interpreter.Code interpreter.Stdout].
  unfold ret. rewrite <- !app_assoc. reflexivity.
Qed.

(** ** The interpreter: the terminal and the register file *)

Lemma grows_refl (i : interpreter.Interpreter) : grows i i.
Proof. split; [reflexivity | exists []; now rewrite app_nil_r]. Qed.

Lemma grows_trans (i1 i2 i3 : interpreter.Interpreter) :
  grows i1 i2 -> grows i2 i3 -> grows i1 i3.
Proof.
  intros [A [m B]] [A' [m' B']]. split; [congruence |].
  exists (m ++ m')%list. now rewrite B', B, app_assoc.
Qed.

Lemma grows_WriteTo (register value : Z) :
  preserves grows (interpreter.WriteTo register value).
Proof.
  intros i i' r. unfold interpreter.WriteTo.
  destruct (register =? 0); [intros [= <- _]; apply grows_refl |].
  destruct (register >? 9); [intros [= <- _]; apply grows_refl |].
  destruct (index _ _); intros [= <- _]; [| apply grows_refl].
  split; cbn; [apply length_insert | exists []; now rewrite app_nil_r].
Qed.

Lemma grows_ReadFrom (register : Z) :
  preserves grows (interpreter.ReadFrom register).
Proof.
  intros i i' r. unfold interpreter.ReadFrom.
  destruct (register >? 9); [intros [= <- _]; apply grows_refl |].
  destruct (index _ _); intros [= <- _]; apply grows_refl.
Qed.

Lemma grows_print (o : interpreter.Output) :
  preserves grows (interpreter.print o).
Proof.
  apply preserves_modify. intros i. split; [reflexivity |]. now exists [o].
Qed.

Lemma grows_set_PC (f : interpreter.Interpreter -> Z) :
  preserves grows (modify (fun i => interpreter.set_PC (f i) i)).
Proof. apply preserves_modify. intros i. apply (grows_refl i). Qed.

Create HintDb grows discriminated.
#[local] Hint Resolve grows_refl grows_trans grows_WriteTo grows_ReadFrom
  grows_print : grows.
#[local] Hint Extern 1 (preserves grows (ret _)) =>
  apply (preserves_ret grows grows_refl) : grows.
#[local] Hint Extern 1 (preserves grows (fail _)) =>
  apply (preserves_fail grows grows_refl) : grows.
#[local] Hint Extern 1 (preserves grows (panic _)) =>
  apply (preserves_panic grows grows_refl) : grows.
#[local] Hint Extern 1 (preserves grows get) =>
  apply (preserves_get grows grows_refl) : grows.
#[local] Hint Extern 1 (preserves grows (discard _ _)) =>
  apply (preserves_discard grows) : grows.
#[local] Hint Extern 1 (preserves grows (bind _ _)) =>
  apply (preserves_bind grows grows_trans); [| intros ?] : grows.
#[local] Hint Extern 1 (preserves grows (if ?b then _ else _)) =>
  destruct b : grows.
#[local] Hint Extern 1 (preserves grows (modify (interpreter.set_PC ?pc))) =>
  apply (grows_set_PC (fun _ => pc)) : grows.

Ltac grows_solve := auto 20 with grows.

Lemma grows_PrintRegisters_from (count : nat) (i : Z) :
  preserves grows (interpreter.PrintRegisters_from i count).
Proof.
  revert i. induction count as [|count IH]; intros i;
    cbn [interpreter.PrintRegisters_from]; grows_solve.
Qed.

Lemma grows_DecodeAndDispatch (instr : option instructions.Instruction) :
  preserves grows (interpreter.DecodeAndDispatch instr).
Proof.
  unfold interpreter.DecodeAndDispatch. destruct instr as [instr|];
    [| grows_solve].
  cbv zeta.
  repeat match goal with
         | |- preserves grows (if ?b then _ else _) => destruct b
         end.
  - unfold interpreter.LoadImmediate. grows_solve.
  - unfold interpreter.JumpTo, interpreter.CheckJump. grows_solve.
  - unfold interpreter.Add. grows_solve.
  - unfold interpreter.AddV. grows_solve.
  - unfold interpreter.Draw. grows_solve.
  - unfold interpreter.Blink. grows_solve.
  - unfold interpreter.PrintToStdOut. grows_solve.
  - apply grows_PrintRegisters_from.
  - grows_solve.
Qed.

Lemma grows_Interpret_body : preserves grows interpreter.Interpret_body.
Proof.
  unfold interpreter.Interpret_body.
  apply (preserves_bind grows grows_trans); [grows_solve | intros i].
  destruct (index _ _); [| grows_solve].
  apply (preserves_bind grows grows_trans);
    [apply grows_DecodeAndDispatch | intros _].
  apply (grows_set_PC (fun i => int32 (interpreter.PC i + 1))).
Qed.

Lemma grows_Interpret_loop (n : nat) (lastAddr : Z)
  (interp interp' : interpreter.Interpreter) (r : Outcome unit) :
  interpreter.Interpret_loop n lastAddr interp = Some (interp', r) ->
  grows interp interp'.
Proof.
  revert interp. induction n as [|n IH]; intros interp;
    cbn [interpreter.Interpret_loop].
  - destruct (_ <? _); [discriminate |]. intros [= <- _]. apply grows_refl.
  - destruct (_ <? _); [| intros [= <- _]; apply grows_refl].
    destruct (interpreter.Interpret_body interp) as [i1 o] eqn:E.
    pose proof (grows_Interpret_body _ _ _ E) as Hk.
    destruct o as [[]|e|p].
    + intros H. eapply grows_trans; [exact Hk | apply IH, H].
    + intros [= <- _]. exact Hk.
    + intros [= <- _]. exact Hk.
Qed.

(** X15: whatever a run of [Interpret] does and however it ends, the code
    block is the one it started with, the register file has as many
    registers as before, and the terminal holds what it held before,
    followed by what the run printed: output is only appended. *)
Theorem Interpret_appends_output
  (interp interp' : interpreter.Interpreter) (r : Outcome unit) :
  interpreter.Interpret interp = Some (interp', r) ->
  interpreter.Code interp' = interpreter.Code interp
  /\ length (interpreter.Registers interp')
     = length (interpreter.Registers interp)
  /\ exists more,
       interpreter.Stdout interp'
       = (interpreter.Stdout interp ++ more)%list.
Proof.
  intros H. split; [exact (proj1 (Interpret_bound_kept _ _ _ H)) |].
  revert H. rewrite Interpret_spec.
  destruct (interpreter.Registers interp !! 0%nat).
  - apply grows_Interpret_loop.
  - intros [= <- _]. apply grows_refl.
Qed.

Lemma Interpret_appends_output_witness :
  exists more,
    [interpreter.PrintValue 7; interpreter.PrintValue 5]
    = ([interpreter.PrintValue 7] ++ more)%list.
Proof.
  apply (Interpret_appends_output
           (interpreter.mkInterpreter 0 [1; 5; 0; 0; 0; 0; 0; 0; 0; 0]
              [Some (instructions.UnaryInstruction 0 1)]
              [interpreter.PrintValue 7])
           (interpreter.mkInterpreter 1 [1; 5; 0; 0; 0; 0; 0; 0; 0; 0]
              [Some (instructions.UnaryInstruction 0 1)]
              [interpreter.PrintValue 7; interpreter.PrintValue 5])
           (Ok tt) eq_refl).
Defined.

(** ** The interpreter: panics *)

Section Safe.

Context {S : Type} (I : S -> Prop) (P : GoPanic -> Prop).

Lemma safe_ret {A : Type} (a : A) : safe I P (ret a).
Proof. intros s s' r Hs [= <- <-]. split; [exact Hs | intros g [=]]. Qed.

Lemma safe_fail {A : Type} (e : error) : safe I P (@fail S A e).
Proof. intros s s' r Hs [= <- <-]. split; [exact Hs | intros g [=]]. Qed.

Lemma safe_panic {A : Type} (g : GoPanic) : P g -> safe I P (@panic S A g).
Proof.
  intros Hg s s' r Hs [= <- <-]. split; [exact Hs |]. now intros g' [= <-].
Qed.

Lemma safe_get : safe I P (@get S).
Proof. intros s s' r Hs [= <- <-]. split; [exact Hs | intros g [=]]. Qed.

Lemma safe_modify (f : S -> S) :
  (forall s, I s -> I (f s)) -> safe I P (modify f).
Proof.
  intros Hf s s' r Hs [= <- <-]. split; [apply Hf, Hs | intros g [=]].
Qed.

Lemma safe_bind {A B : Type} (m : M S A) (k : A -> M S B) :
  safe I P m -> (forall a, safe I P (k a)) -> safe I P (bind m k).
Proof.
  intros Hm Hk s s' r Hs. unfold bind.
  destruct (m s) as [s1 [a|e|p]] eqn:E; intros H.
  - destruct (Hm _ _ _ Hs E) as [Hs1 _]. eapply Hk; eauto.
  - injection H as <- <-. destruct (Hm _ _ _ Hs E) as [Hs1 _].
    split; [exact Hs1 | intros g [=]].
  - injection H as <- <-. destruct (Hm _ _ _ Hs E) as [Hs1 Hp].
    split; [exact Hs1 |]. intros g [= <-]. now apply Hp.
Qed.

Lemma safe_discard {A : Type} (zero : A) (m : M S A) :
  safe I P m -> safe I P (discard zero m).
Proof.
  intros Hm s s' r Hs. unfold discard.
  destruct (m s) as [s1 [a|e|p]] eqn:E; intros [= <- <-];
    destruct (Hm _ _ _ Hs E) as [Hs1 Hp];
    (split; [exact Hs1 |]); [intros g [=] .. | exact Hp].
Qed.

End Safe.

Section TenRegisters.

Variable P : GoPanic -> Prop.

Lemma ReadFrom_safe (register : Z) :
  0 <= register -> safe ten_registers P (interpreter.ReadFrom register).
Proof.
  intros Hr s s' r Hs. unfold interpreter.ReadFrom. rewrite Z.gtb_ltb.
  destruct (Z.ltb_spec 9 register);
    [intros [= <- <-]; split; [exact Hs | intros g [=]] |].
  rewrite index_nat by lia.
  destruct (lookup_lt_is_Some_2 (interpreter.Registers s)
              (Z.to_nat register)) as [v Hv];
    [unfold ten_registers in Hs; lia |].
  rewrite Hv. intros [= <- <-]. split; [exact Hs | intros g [=]].
Qed.

Lemma WriteTo_safe (register value : Z) :
  0 <= register -> safe ten_registers P (interpreter.WriteTo register value).
Proof.
  intros Hr s s' r Hs. unfold interpreter.WriteTo. rewrite Z.gtb_ltb.
  destruct (register =? 0);
    [intros [= <- <-]; split; [exact Hs | intros g [=]] |].
  destruct (Z.ltb_spec 9 register);
    [intros [= <- <-]; split; [exact Hs | intros g [=]] |].
  rewrite index_nat by lia.
  destruct (lookup_lt_is_Some_2 (interpreter.Registers s)
              (Z.to_nat register)) as [v Hv];
    [unfold ten_registers in Hs; lia |].
  rewrite Hv. intros [= <- <-]. split; [| intros g [=]].
  unfold ten_registers in *. cbn. now rewrite length_insert.
Qed.

Lemma print_safe (o : interpreter.Output) :
  safe ten_registers P (interpreter.print o).
Proof. apply safe_modify. intros s Hs. exact Hs. Qed.

Lemma set_PC_safe (f : interpreter.Interpreter -> Z) :
  safe ten_registers P (modify (fun i => interpreter.set_PC (f i) i)).
Proof. apply safe_modify. intros s Hs. exact Hs. Qed.

Lemma JumpTo_safe (address : Z) :
  safe ten_registers P (interpreter.JumpTo address).
Proof.
  unfold interpreter.JumpTo, interpreter.CheckJump.
  apply safe_bind; [| intros _; apply (set_PC_safe (fun _ => _))].
  apply safe_bind; [apply safe_discard, ReadFrom_safe; lia | intros lastAddr].
  apply safe_bind; [apply safe_get | intros interp].
  destruct (_ <=? _); [apply safe_fail |].
  destruct (_ >? _); [apply safe_fail | apply safe_ret].
Qed.

Lemma PrintRegisters_from_safe (count : nat) (i : Z) :
  0 <= i -> i + Z.of_nat count <= 10 ->
  safe ten_registers P (interpreter.PrintRegisters_from i count).
Proof.
  revert i. induction count as [|count IH]; intros i Hi Hc;
    cbn [interpreter.PrintRegisters_from]; [apply safe_ret |].
  cbv zeta. apply safe_bind.
  - apply ReadFrom_safe. rewrite int32_small;
      unfold in_int32, MinInt32, MaxInt32; lia.
  - intros v. apply safe_bind; [apply print_safe |].
    intros _. apply IH; lia.
Qed.

End TenRegisters.

(** On a register file of 10 registers a parsed instruction panics in one
    way only: ADDV on a negative operand. *)
Lemma DecodeAndDispatch_safe (instr : instructions.Instruction) :
  well_encoded instr ->
  safe ten_registers negative_repeat
    (interpreter.DecodeAndDispatch (Some instr)).
Proof.
  destruct instr as [op a b|op a|op|e]; cbn [well_encoded].
  - intros [(-> & Ha & Hb)|([->| ->] & Ha & Hb)];
      unfold interpreter.DecodeAndDispatch; cbn [instructions.GetOpCode
        instructions.GetArg1 instructions.GetArg2];
      rewrite (int32_small a), ?(int32_small b)
        by (unfold in_int32, MinInt32, MaxInt32 in *; lia).
    + apply WriteTo_safe; lia.
    + unfold interpreter.Add.
      apply safe_bind; [apply ReadFrom_safe; lia | intros v1].
      apply safe_bind; [apply ReadFrom_safe; lia | intros v2].
      apply safe_bind; [apply safe_discard, WriteTo_safe; lia | intros _].
      apply safe_ret.
    + unfold interpreter.AddV.
      apply safe_bind; [apply ReadFrom_safe; lia | intros v1].
      apply safe_bind; [apply ReadFrom_safe; lia | intros v2].
      destruct (_ || _); [apply safe_fail |].
      apply safe_bind; [apply safe_discard, WriteTo_safe; lia | intros _].
      destruct (_ || _); [now apply safe_panic | apply print_safe].
  - intros [(-> & Ha)|[(-> & Ha)|([->| ->] & [->| ->])]];
      unfold interpreter.DecodeAndDispatch; cbn [instructions.GetOpCode
        instructions.GetArg1 instructions.GetArg2].
    + unfold interpreter.PrintToStdOut.
      apply safe_bind; [apply ReadFrom_safe; lia | intros v].
      apply print_safe.
    + apply JumpTo_safe.
    + apply print_safe.
    + apply print_safe.
    + apply print_safe.
    + apply print_safe.
  - intros ->. unfold interpreter.DecodeAndDispatch.
    cbn [instructions.GetOpCode].
    apply PrintRegisters_from_safe; lia.
  - intros [].
Qed.

Lemma Interpret_body_safe (lastAddr : Z)
  (interp interp' : interpreter.Interpreter) (r : Outcome unit) :
  ten_registers interp ->
  code_below lastAddr interp ->
  0 <= interpreter.PC interp < lastAddr ->
  interpreter.Interpret_body interp = (interp', r) ->
  ten_registers interp' /\ forall g, r = Panic g -> g = NegativeRepeatCount.
Proof.
  intros Hten Hcode Hpc. unfold interpreter.Interpret_body, bind at 1, get.
  destruct (Hcode _ Hpc) as (instr & Hi & Hw).
  rewrite index_nat, Hi by lia.
  apply (safe_bind ten_registers negative_repeat); [| | exact Hten].
  - apply DecodeAndDispatch_safe, Hw.
  - intros _. apply (set_PC_safe negative_repeat
                       (fun i => int32 (interpreter.PC i + 1))).
Qed.

Lemma Interpret_loop_safe (fuel : nat) (lastAddr : Z) :
  forall interp interp' g,
    in_int32 lastAddr ->
    ten_registers interp ->
    code_below lastAddr interp ->
    interpreter.Registers interp !! 0%nat = Some lastAddr ->
    0 <= interpreter.PC interp ->
    interpreter.Interpret_loop fuel lastAddr interp = Some (interp', Panic g) ->
    g = NegativeRepeatCount.
Proof.
  induction fuel as [|fuel IH]; intros interp interp' g Hb Hten Hcode H0 Hpc;
    cbn [interpreter.Interpret_loop];
    destruct (Z.ltb_spec (interpreter.PC interp) lastAddr); try discriminate.
  destruct (interpreter.Interpret_body interp) as [i1 [[]|e1|g1]] eqn:E.
  - destruct (Interpret_body_safe lastAddr _ _ _ Hten Hcode ltac:(lia) E)
      as [Hten1 _].
    pose proof (Interpret_body_bound_kept _ _ _ E) as [Hc Hr].
    assert (Hin : in_int32 (interpreter.PC interp))
      by (unfold in_int32, MinInt32, MaxInt32 in *; lia).
    destruct (Interpret_body_progress _ _ Hin
                ltac:(unfold in_int32, MinInt32, MaxInt32 in *; lia) E)
      as [Hlt _].
    apply IH; try assumption.
    + unfold code_below. rewrite Hc. exact Hcode.
    + now rewrite Hr.
    + lia.
  - discriminate.
  - intros [= _ <-].
    now apply (Interpret_body_safe lastAddr _ _ _ Hten Hcode ltac:(lia) E).
Qed.

(** ** The virtual machine: loading a program *)

Lemma New_never_panics (input : string) (p : parser.Parser) (g : GoPanic) :
  parser.New input <> (p, Panic g).
Proof. intros H. unfold parser.New in H. apply pull_token in H. exact H. Qed.

(** What [Instruction] returns on the parser of a line. *)
Lemma Instruction_after_New (input : string) (p p' : parser.Parser)
  (r : Outcome (instructions.Instruction * option error)) :
  parser.New input = (p, Ok tt) ->
  parser.Instruction p = (p', r) ->
  exists instr,
    (r = Ok (instr, None) /\ parsed instr
     /\ parse_line input = Ok (instr, None))
    \/ (exists e, r = Ok (instr, Some e) /\ line_error input e).
Proof.
  intros Hnew Hinstr.
  assert (Hline : parse_line input = r)
    by (unfold parse_line; now rewrite Hnew, Hinstr).
  pose proof Hnew as Ht. unfold parser.New in Ht.
  apply pull_token in Ht as [tok Ht].
  pose proof Hinstr as H. unfold parser.Instruction in H.
  destruct (parser.Instruction_switch p) as [p1 [i|e|g]] eqn:E.
  - injection H as _ <-. exists i. left.
    split; [reflexivity |]. split; [| exact Hline].
    exists input, p, p'. split; assumption.
  - injection H as _ <-. exists (instructions.NewError e). right.
    exists e. split; [reflexivity |]. right. now exists (instructions.NewError e).
  - exfalso. eapply Instruction_switch_never_panics; eauto.
Qed.

Lemma loaded_NewVirtualMachine : loaded vm.NewVirtualMachine.
Proof.
  split; [reflexivity |]. split; [cbn; lia |]. split.
  - intros i instr H.
    change (vm.Code (vm.VMem vm.NewVirtualMachine))
      with (replicate 10 (@None instructions.Instruction)) in H.
    apply lookup_replicate in H as [[=] _].
  - intros i H. cbn in H. lia.
Qed.

(** [ParseInstructions] fills the code block from [CodeSize] upwards, one
    slot per line and in the order of the lines, and leaves the other
    slots and the terminal alone; it stops at the first line that does
    not parse, and panics only by storing outside the block. *)
Lemma ParseInstructions_loaded (sourceCode : list string) :
  forall (m m' : vm.VirtualMachine) (r : Outcome unit),
    vm.ParseInstructions sourceCode m = (m', r) ->
    loaded m ->
    loaded m'
    /\ interpreter.Stdout (vm.Interpreter m')
       = interpreter.Stdout (vm.Interpreter m)
    /\ (forall i,
           (i < Z.to_nat (vm.CodeSize (vm.VMem m))
            \/ Z.to_nat (vm.CodeSize (vm.VMem m)) + length sourceCode <= i)%nat ->
           vm.Code (vm.VMem m') !! i = vm.Code (vm.VMem m) !! i)
    /\ match r with
       | Ok _ =>
           forall k line, sourceCode !! k = Some line ->
             exists instr,
               parse_line line = Ok (instr, None)
               /\ vm.Code (vm.VMem m')
                    !! (Z.to_nat (vm.CodeSize (vm.VMem m)) + k)%nat
                  = Some (Some instr)
       | Fail e => exists line, In line sourceCode /\ line_error line e
       | Panic g =>
           g = IndexOutOfRange
           /\ Z.of_nat (length (vm.Code (vm.VMem m)))
              < vm.CodeSize (vm.VMem m) + Z.of_nat (length sourceCode)
       end.
Proof.
  induction sourceCode as [|line rest IH]; intros m m' r H Hm.
  { injection H as <- <-. split; [exact Hm |]. split; [reflexivity |].
    split; [reflexivity |]. intros k l [=]. }
  cbn [vm.ParseInstructions] in H.
  destruct (parser.New line) as [p [[]|e|g]] eqn:Hnew.
  - destruct (parser.Instruction p) as [p' ri] eqn:Hinstr.
    destruct (Instruction_after_New _ _ _ _ Hnew Hinstr)
      as [instr [(-> & Hparsed & Hline)|(e & -> & He)]].
    + destruct Hm as (Halias & Hsize & Hcode & Hfilled).
      unfold bind at 1, get in H. unfold bind at 1, vm.store_Code in H.
      destruct (index (vm.Code (vm.VMem m)) (vm.CodeSize (vm.VMem m)))
        as [old|] eqn:Ei.
      * unfold bind at 1, vm.incr_CodeSize, modify in H.
        apply index_Some in Ei as [_ Ei].
        pose proof (lookup_lt_Some _ _ _ Ei) as Hlt.
        apply IH in H; cbn [vm.VMem vm.Code vm.CodeSize vm.Interpreter
                            interpreter.Code interpreter.Stdout] in *.
        2:{ unfold loaded.
            cbn [vm.VMem vm.Code vm.CodeSize vm.Interpreter interpreter.Code].
            split; [reflexivity |]. rewrite length_insert.
            split; [lia |]. split.
            - intros i x Hx.
              destruct (decide (i = Z.to_nat (vm.CodeSize (vm.VMem m))))
                as [-> | Hne].
              + rewrite list_lookup_insert_eq in Hx by exact Hlt.
                now injection Hx as <-.
              + rewrite list_lookup_insert_ne in Hx by congruence.
                eapply Hcode, Hx.
            - intros i Hi.
              destruct (decide (i = Z.to_nat (vm.CodeSize (vm.VMem m))))
                as [-> | Hne].
              + exists instr. now apply list_lookup_insert_eq.
              + rewrite list_lookup_insert_ne by congruence.
                apply Hfilled. lia. }
        rewrite length_insert in H.
        destruct H as (Hm' & Hout & Hkept & Hr).
        split; [exact Hm' |]. split; [exact Hout |]. split.
        { intros i Hi. cbn [length] in Hi.
          rewrite Hkept by lia. apply list_lookup_insert_ne. lia. }
        destruct r as [[]|e|g].
        -- intros [|k] l Hl.
           ++ injection Hl as <-. exists instr. split; [exact Hline |].
              rewrite Nat.add_0_r, Hkept by lia.
              now apply list_lookup_insert_eq.
           ++ destruct (Hr k l Hl) as (i & Hi & Hc). exists i.
              split; [exact Hi |]. rewrite <- Hc. f_equal. lia.
        -- destruct Hr as (l & Hl & He). exists l. split; [now right | exact He].
        -- destruct Hr as [-> Hr]. split; [reflexivity |].
           cbn [length]. lia.
      * injection H as <- <-.
        split; [exact (conj Halias (conj Hsize (conj Hcode Hfilled))) |].
        split; [reflexivity |]. split; [reflexivity |].
        split; [reflexivity |].
        unfold index in Ei.
        destruct (Z.ltb_spec (vm.CodeSize (vm.VMem m)) 0); [lia |].
        apply lookup_ge_None in Ei. cbn [length]. lia.
    + injection H as <- <-. split; [exact Hm |]. split; [reflexivity |].
      split; [reflexivity |]. exists line. split; [now left | exact He].
  - injection H as <- <-. split; [exact Hm |]. split; [reflexivity |].
    split; [reflexivity |]. exists line. split; [now left |].
    left. unfold parse_line. now rewrite Hnew.
  - exfalso. eapply New_never_panics, Hnew.
Qed.

(** X16: when [ParseInstructions] returns nil on a fresh machine, the
    program had at most 10 lines, [CodeSize] is their number, every line
    parsed, and the interpreter, which shares the code block of the
    virtual memory, finds the instruction of line [k] at address [k];
    the slots from [CodeSize] up to 9 still hold nil. *)
Theorem program_loaded (sourceCode : list string) (m : vm.VirtualMachine) :
  vm.ParseInstructions sourceCode vm.NewVirtualMachine = (m, Ok tt) ->
  (length sourceCode <= 10)%nat
  /\ vm.CodeSize (vm.VMem m) = Z.of_nat (length sourceCode)
  /\ interpreter.Code (vm.Interpreter m) = vm.Code (vm.VMem m)
  /\ (forall k line, sourceCode !! k = Some line ->
        exists instr,
          parse_line line = Ok (instr, None)
          /\ interpreter.Code (vm.Interpreter m) !! k = Some (Some instr))
  /\ (forall k, (length sourceCode <= k < 10)%nat ->
        interpreter.Code (vm.Interpreter m) !! k = Some None).
Proof.
  intros H.
  destruct (ParseInstructions_spec _ _ _ _ H) as (_ & _ & _ & HL & Hsize);
    [cbn; lia |].
  destruct (Hsize eq_refl) as [Hcs Hle]. cbn in Hcs, HL. rewrite HL in Hle.
  destruct (ParseInstructions_loaded _ _ _ _ H loaded_NewVirtualMachine)
    as ((Halias & _) & _ & Hkept & Hr).
  change (Z.to_nat (vm.CodeSize (vm.VMem vm.NewVirtualMachine)))
    with 0%nat in Hkept, Hr.
  split; [lia |]. split; [exact Hcs |]. split; [exact Halias |].
  rewrite Halias. split; [exact Hr |].
  intros k Hk. rewrite Hkept by lia.
  change (vm.Code (vm.VMem vm.NewVirtualMachine))
    with (replicate 10 (@None instructions.Instruction)).
  apply lookup_replicate. split; [reflexivity | lia].
Qed.

Lemma program_loaded_witness :
  exists instr,
    parse_line "STDOUT r0" = Ok (instr, None)
    /\ interpreter.Code
         (vm.Interpreter
            (fst (vm.ParseInstructions ["LDI r1,1"; "STDOUT r0"]
                    vm.NewVirtualMachine))) !! 1%nat
       = Some (Some instr).
Proof.
  destruct (program_loaded ["LDI r1,1"; "STDOUT r0"]
              (fst (vm.ParseInstructions ["LDI r1,1"; "STDOUT r0"]
                      vm.NewVirtualMachine)) eq_refl)
    as (_ & _ & _ & H & _).
  exact (H 1%nat "STDOUT r0" eq_refl).
Defined.

(** ** The virtual machine: a whole run *)

Lemma Execute_after_parse (sourceCode : list string)
  (m1 : vm.VirtualMachine) (r1 : Outcome unit) :
  vm.ParseInstructions sourceCode vm.NewVirtualMachine = (m1, r1) ->
  vm.Execute sourceCode vm.NewVirtualMachine =
  match r1 with
  | Ok _ =>
      let regs :=
        <[0%nat := int32 (vm.CodeSize (vm.VMem m1))]> (replicate 10 0) in
      vm.run_Interpreter
        (vm.mkVirtualMachine
           (vm.mkVirtualMemory regs (vm.Code (vm.VMem m1))
              (vm.CodeSize (vm.VMem m1)))
           (interpreter.set_Registers regs (vm.Interpreter m1)))
  | Fail e => Some (m1, Fail e)
  | Panic g => Some (m1, Panic g)
  end.
Proof.
  intros Hparse.
  destruct (ParseInstructions_spec sourceCode _ _ _ Hparse)
    as (HR & _); [cbn; lia |].
  unfold vm.Execute, bind, get, vm.store_Register, index.
  rewrite Hparse. destruct r1 as [[]|e|g]; [| reflexivity ..].
  rewrite HR. reflexivity.
Qed.

(** X17: [Execute] on a fresh machine returns for every program, and its
    results are these.  It returns nil only for a program of at most 10
    lines that all parse.  An error is the parse error of one of the
    lines, or one of the four run-time errors.  It panics in two ways
    only: the store of an eleventh instruction into the 10-slot code
    block, and the negative repeat count of ADDV. *)
Theorem Execute_outcomes (sourceCode : list string) :
  exists m r,
    vm.Execute sourceCode vm.NewVirtualMachine = Some (m, r)
    /\ match r with
       | Ok _ =>
           (length sourceCode <= 10)%nat
           /\ forall line, In line sourceCode ->
                exists instr, parse_line line = Ok (instr, None)
       | Fail e =>
           (exists line, In line sourceCode /\ line_error line e)
           \/ runtime_error e
       | Panic g =>
           (g = IndexOutOfRange /\ (10 < length sourceCode)%nat)
           \/ g = NegativeRepeatCount
       end.
Proof.
  destruct (vm.ParseInstructions sourceCode vm.NewVirtualMachine)
    as [m1 r1] eqn:Hp.
  rewrite (Execute_after_parse _ _ _ Hp).
  destruct (ParseInstructions_spec _ _ _ _ Hp) as (_ & _ & HPC & HL & Hsize);
    [cbn; lia |].
  change (length (vm.Code (vm.VMem vm.NewVirtualMachine))) with 10%nat in HL.
  change (interpreter.PC (vm.Interpreter vm.NewVirtualMachine)) with 0 in HPC.
  change (vm.CodeSize (vm.VMem vm.NewVirtualMachine)) with 0 in Hsize.
  destruct (ParseInstructions_loaded _ _ _ _ Hp loaded_NewVirtualMachine)
    as ((Halias & _ & Hcode & Hfilled) & _ & _ & Hr).
  change (vm.CodeSize (vm.VMem vm.NewVirtualMachine)) with 0 in Hr.
  change (length (vm.Code (vm.VMem vm.NewVirtualMachine))) with 10%nat in Hr.
  destruct r1 as [[]|e|g].
  - destruct (Hsize eq_refl) as [Hcs Hle]. rewrite HL in Hle.
    cbv zeta. rewrite Hcs, Z.add_0_l.
    rewrite int32_small by (unfold in_int32, MinInt32, MaxInt32; lia).
    unfold vm.run_Interpreter. cbn [vm.Interpreter].
    set (n := Z.of_nat (length sourceCode)) in *.
    set (interp := interpreter.set_Registers _ _).
    assert (H0 : interpreter.Registers interp !! 0%nat = Some n)
      by reflexivity.
    assert (Hpc : interpreter.PC interp = 0) by exact HPC.
    assert (Hb : in_int32 n)
      by (unfold in_int32, MinInt32, MaxInt32; lia).
    rewrite Interpret_spec, H0.
    destruct (Interpret_loop_total
                (Z.to_nat (n - interpreter.PC interp)) n interp Hb)
      as (i' & r & Hrun & _);
      [rewrite Hpc; unfold in_int32, MinInt32, MaxInt32; lia | lia |].
    rewrite Hrun. eexists _, r. split; [reflexivity |].
    destruct r as [[]|e|g].
    + split; [lia |]. intros line Hin.
      apply list_elem_of_In, list_elem_of_lookup_1 in Hin as [k Hk].
      destruct (Hr k line Hk) as (instr & Hi & _). now exists instr.
    + right. eapply Interpret_loop_error; [| exact Hrun].
      intros i instr Hc. apply parsed_well_encoded.
      apply (Hcode i). rewrite <- Halias. exact Hc.
    + right. eapply Interpret_loop_safe; [exact Hb | | | exact H0 | | exact Hrun].
      * reflexivity.
      * intros a Ha. destruct (Hfilled (Z.to_nat a)) as [instr Hi]; [lia |].
        exists instr. split.
        -- change (interpreter.Code interp)
             with (interpreter.Code (vm.Interpreter m1)).
           rewrite Halias. exact Hi.
        -- eapply parsed_well_encoded, Hcode, Hi.
      * lia.
  - exists m1, (Fail e). split; [reflexivity |]. left. exact Hr.
  - exists m1, (Panic g). split; [reflexivity |]. left.
    destruct Hr as [-> Hr]. split; [reflexivity | lia].
Qed.

Lemma ParseInstructions_stops (bad : string) (e : error)
  (rest : list string) :
  line_error bad e ->
  forall (good : list string) (m : vm.VirtualMachine),
    (forall line, In line good ->
       exists instr, parse_line line = Ok (instr, None)) ->
    0 <= vm.CodeSize (vm.VMem m) ->
    vm.CodeSize (vm.VMem m) + Z.of_nat (length good)
    <= Z.of_nat (length (vm.Code (vm.VMem m))) ->
    exists m', vm.ParseInstructions (good ++ bad :: rest) m = (m', Fail e).
Proof.
  intros Hbad. induction good as [|line good IH]; intros m Hgood H0 Hcap.
  - cbn [app vm.ParseInstructions]. unfold line_error, parse_line in Hbad.
    destruct (parser.New bad) as [p [[]|e0|g]].
    + destruct (parser.Instruction p) as [p' [[instr [err|]]|e1|g1]];
        cbn [snd] in Hbad.
      * destruct Hbad as [[=]|[i [= _ ->]]]. eexists; reflexivity.
      * destruct Hbad as [[=]|[i [=]]].
      * destruct Hbad as [[= ->]|[i [=]]]. eexists; reflexivity.
      * destruct Hbad as [[=]|[i [=]]].
    + destruct Hbad as [[= ->]|[i [=]]]. eexists; reflexivity.
    + destruct Hbad as [[=]|[i [=]]].
  - cbn [app vm.ParseInstructions].
    destruct (Hgood line (or_introl eq_refl)) as [instr Hl].
    unfold parse_line in Hl.
    destruct (parser.New line) as [p [[]|e0|g]]; try discriminate.
    destruct (parser.Instruction p) as [p' ri]; cbn [snd] in Hl; subst ri.
    unfold bind at 1, get. unfold bind at 1, vm.store_Code.
    rewrite index_nat by lia. cbn [length] in Hcap.
    destruct (lookup_lt_is_Some_2 (vm.Code (vm.VMem m))
                (Z.to_nat (vm.CodeSize (vm.VMem m)))) as [old Hold]; [lia |].
    rewrite Hold. unfold bind at 1, vm.incr_CodeSize, modify.
    apply IH; cbn [vm.VMem vm.Code vm.CodeSize].
    + intros l Hin. apply Hgood. now right.
    + lia.
    + rewrite length_insert. lia.
Qed.

(** X18: a line that does not parse stops the load at that line, whatever
    follows it: with up to 10 lines before it that parse, [Execute]
    returns the error of that line and nothing is run: nothing is
    printed, and the registers, register 0 included, are still all 0.
    With exactly 10 lines before it the error wins over the full code
    block, since a line is parsed before its instruction is stored. *)
Theorem parse_error_stops
  (good rest : list string) (bad : string) (e : error) :
  (forall line, In line good ->
     exists instr, parse_line line = Ok (instr, None)) ->
  (length good <= 10)%nat ->
  line_error bad e ->
  exists m,
    vm.Execute (good ++ bad :: rest) vm.NewVirtualMachine = Some (m, Fail e)
    /\ interpreter.Stdout (vm.Interpreter m) = []
    /\ interpreter.Registers (vm.Interpreter m) = replicate 10 0
    /\ vm.Registers (vm.VMem m) = replicate 10 0.
Proof.
  intros Hgood Hlen Hbad.
  destruct (ParseInstructions_stops bad e rest Hbad good
              vm.NewVirtualMachine Hgood) as [m Hp]; [cbn; lia .. |].
  exists m. rewrite (Execute_after_parse _ _ _ Hp).
  split; [reflexivity |].
  destruct (ParseInstructions_spec _ _ _ _ Hp) as (HR & HIR & _);
    [cbn; lia |].
  destruct (ParseInstructions_loaded _ _ _ _ Hp loaded_NewVirtualMachine)
    as (_ & Hout & _).
  split; [exact Hout |]. split; [exact HIR | exact HR].
Qed.

Lemma parse_error_stops_witness :
  exists m,
    vm.Execute (replicate 10 "PRINTR" ++ "r1,r2" :: ["PRINTR"])
      vm.NewVirtualMachine
    = Some (m, Fail RegMissingDelimiter)
    /\ interpreter.Stdout (vm.Interpreter m) = []
    /\ interpreter.Registers (vm.Interpreter m) = replicate 10 0
    /\ vm.Registers (vm.VMem m) = replicate 10 0.
Proof.
  apply (parse_error_stops (replicate 10 "PRINTR") ["PRINTR"] "r1,r2"
           RegMissingDelimiter).
  - intros line Hin. exists (instructions.NullaryInstruction 33).
    cbn in Hin.
    repeat (destruct Hin as [<- | Hin]; [reflexivity |]). destruct Hin.
  - cbn. lia.
  - left. reflexivity.
Defined.
